(** * divan/simulation: the naive gossip propagation engine and its trace analysis

    A shallow embedding of package naivep2p (Simulator, NewSimulator,
    SendMessage, runNode, propagateMessage, sendMessage), of the index
    cache and the collecting loop of the WhisperV6 SendMessage, of its
    nodeIdxToName, and of stats.Analyze.

    Goroutines and unbuffered channels are modelled as an interleaving
    transition system. A state holds one component per goroutine: the
    caller of SendMessage, one runNode actor per node, and the sendMessage
    goroutines. A transition is one step of one goroutine up to its next
    blocking point; a channel rendezvous moves sender and receiver in one
    transition. What a goroutine does between two blocking points touches
    only its own variables and the wait group, so taking it in one step
    loses no behaviour of the others. [time.Now] is a logical clock in
    nanoseconds that only the transition [LTick] advances; a timer or a
    Sleep can end once the clock has reached its instant, and need not end
    then, as the scheduler is free to delay any goroutine.

    The transition function [step] is executable; the relation [Step] is
    the same function case by case. States carry instrumentation (tags on
    messages, a history of events) that no transition reads
    ([instrumentation_inert]). *)

From Stdlib Require Import ZArith Lia.
From stdpp Require Import base option list gmap strings fin_maps pretty.

#[local] Open Scope Z_scope.

(** ** Go's [int] (64-bit platforms): two's complement wrap-around *)

Module GoInt.

Definition min_int : Z := - 2 ^ 63.
Definition max_int : Z := 2 ^ 63 - 1.

Definition is_int (z : Z) : Prop := min_int ≤ z ≤ max_int.

Definition wrap (z : Z) : Z := (z + 2 ^ 63) mod 2 ^ 64 - 2 ^ 63.

(** [x--] and [x++] on an [int]. *)
Definition dec (z : Z) : Z := wrap (z - 1).
Definition inc (z : Z) : Z := wrap (z + 1).

End GoInt.

(** ** The topology collaborator *)

(** Modelled from the spec: the [graph.Graph] collaborator (package
    github.com/divan/graph-experiments/graph, not part of this repository's
    sources) is a read-only value exposing the ordered node identifiers,
    the link list as index pairs and the index to identifier lookup. *)
Record Link := { FromIdx : Z; ToIdx : Z }.

Record Graph := { Nodes : list string; Links : list Link }.

(** Modelled from the spec: [g.NodeIDByIdx(j)] of the collaborator gives the
    identifier at a dense index and an error out of range. *)
Definition NodeIDByIdx (g : Graph) (j : Z) : option string :=
  if bool_decide (0 ≤ j) then Nodes g !! Z.to_nat j else None.

(** ** Data of the naive simulator *)

Record Message := { Content : string; TTL : Z }.

(** Modelled from the spec: [LogEntry] and [NewLogEntry] of package naivep2p
    are not among the sources; an entry is {timestamp relative to run
    start, fromIndex, toIndex}. *)
Record LogEntry := { Ts : Z; From : Z; To : Z }.

Definition NewLogEntry (now start from to : Z) : LogEntry :=
  {| Ts := now - start; From := from; To := to |}.

(** The fields of [Simulator] that never change after [NewSimulator]: the
    channels, the wait group and [simulationStart] live in [State]. *)
Record Simulator := {
  data : Graph;
  delay : Z;                  (* time.Duration, nanoseconds *)
  peers : gmap Z (list Z);
  peersToSendTo : Z;          (* number of peers to propagate message *)
}.

(** Modelled from the spec: [PrecalculatePeers] is not among the sources;
    for every link (a,b) it adds b to peers[a] and a to peers[b], without
    deduplication of parallel links. *)
Definition add_peer (a b : Z) (m : gmap Z (list Z)) : gmap Z (list Z) :=
  <[a := default [] (m !! a) ++ [b]]> m.

Definition PrecalculatePeers (g : Graph) : gmap Z (list Z) :=
  foldl (λ m l, add_peer (ToIdx l) (FromIdx l) (add_peer (FromIdx l) (ToIdx l) m))
        ∅ (Links g).

(** [len(data.Nodes())], also the length of [nodesCh]. *)
Definition nodeCount (sim : Simulator) : nat := length (Nodes (data sim)).

(** [s.peers[from]]: a missing key reads as the nil slice. *)
Definition peers_of (sim : Simulator) (from : Z) : list Z :=
  default [] (peers sim !! from).

(** ** Goroutines *)

(** Instrumentation carried next to a message, never read by a transition:
    the nodes that have dispatched the message so far, the start node
    first, and the ttl of the [SendMessage] call that injected it. The
    message is on hop [hop g], the length of its route. *)
Record Tag := { route : list Z; ttl0 : Z }.

Definition hop (g : Tag) : Z := Z.of_nat (length (route g)).

Definition seed_tag (start ttl : Z) : Tag := {| route := [start]; ttl0 := ttl |}.

Definition relay_tag (i : Z) (g : Tag) : Tag :=
  {| route := route g ++ [i]; ttl0 := ttl0 g |}.

(** A [runNode] goroutine. [t] is the instant at which the timer made on
    entry fires; [cache] is the local dedup map. *)
Inductive Actor :=
  | ASpawned                                   (* go s.runNode(i, ch) issued, body not begun *)
  | ASelect (t : Z) (cache : gmap string bool) (* blocked in the select *)
  | AForward (t : Z) (cache : gmap string bool) (m : Message) (g : Tag) (wake : Z)
                                               (* in propagateMessage, inside time.Sleep *)
  | AExited.                                   (* returned; wg.Done() has run *)

(** A [sendMessage] goroutine. *)
Inductive Phase :=
  | PSend                  (* blocked on  s.nodesCh[to] <- message *)
  | PEntry                 (* message handed over, NewLogEntry not yet evaluated *)
  | PReport (e : LogEntry) (* blocked on  s.reportCh <- e *).

Record Sender := {
  sfrom : Z; sto : Z; smsg : Message; sphase : Phase; stag : Tag
}.

(** The goroutine that calls [SendMessage]. *)
Inductive Main :=
  | MIdle                                        (* NewSimulator has returned *)
  | MSleep (start : Z) (m : Message) (wake : Z)  (* in propagateMessage, inside time.Sleep *)
  | MCollect (ret : list (LogEntry * Tag))       (* in the for/select loop *)
  | MReturned (ret : list (LogEntry * Tag)).     (* the entries handed to logEntries2PropagationLog *)

(** What has happened so far; instrumentation, never read by a transition. *)
Inductive Event :=
  | EvCall (start ttl : Z)
  | EvFanout (from : Z) (c : string) (seed : bool)  (* the spawn loop of propagateMessage *)
  | EvRecv (from to : Z) (c : string) (dup : bool)  (* a message taken from nodesCh[to] *)
  | EvExpire (i : Z)                                (* return on TTL == 0 *)
  | EvTimeout (i : Z)                               (* return on <-t.C *)
  | EvEntry (e : LogEntry).                         (* NewLogEntry evaluated *)

Record State := {
  now : Z;
  simulationStart : Z;
  actors : list Actor;
  wg : Z;
  senders : list Sender;
  main : Main;
  panicked : bool;
  history : list Event;
}.

Definition with_now (v : Z) (s : State) : State :=
  {| now := v; simulationStart := simulationStart s; actors := actors s; wg := wg s;
     senders := senders s; main := main s; panicked := panicked s; history := history s |}.
Definition with_start (v : Z) (s : State) : State :=
  {| now := now s; simulationStart := v; actors := actors s; wg := wg s;
     senders := senders s; main := main s; panicked := panicked s; history := history s |}.
Definition with_actors (v : list Actor) (s : State) : State :=
  {| now := now s; simulationStart := simulationStart s; actors := v; wg := wg s;
     senders := senders s; main := main s; panicked := panicked s; history := history s |}.
Definition with_wg (v : Z) (s : State) : State :=
  {| now := now s; simulationStart := simulationStart s; actors := actors s; wg := v;
     senders := senders s; main := main s; panicked := panicked s; history := history s |}.
Definition with_senders (v : list Sender) (s : State) : State :=
  {| now := now s; simulationStart := simulationStart s; actors := actors s; wg := wg s;
     senders := v; main := main s; panicked := panicked s; history := history s |}.
Definition with_main (v : Main) (s : State) : State :=
  {| now := now s; simulationStart := simulationStart s; actors := actors s; wg := wg s;
     senders := senders s; main := v; panicked := panicked s; history := history s |}.
Definition with_panic (s : State) : State :=
  {| now := now s; simulationStart := simulationStart s; actors := actors s; wg := wg s;
     senders := senders s; main := main s; panicked := true; history := history s |}.
Definition record (evs : list Event) (s : State) : State :=
  {| now := now s; simulationStart := simulationStart s; actors := actors s; wg := wg s;
     senders := senders s; main := main s; panicked := panicked s;
     history := history s ++ evs |}.

Definition with_phase (p : Phase) (sd : Sender) : Sender :=
  {| sfrom := sfrom sd; sto := sto sd; smsg := smsg sd; sphase := p; stag := stag sd |}.

(** ** The engine *)

(** [10 * time.Second] *)
Definition idle_timeout : Z := 10 * 1000000000.

(** [time.Sleep(d)] returns at once for d <= 0. *)
Definition sleep_until (now d : Z) : Z := now + Z.max 0 d.

(** The fields that [NewSimulator(data, N, delay)] sets for good. *)
Definition NewSimulator (g : Graph) (N : Z) (d : Z) : Simulator :=
  {| data := g; delay := d; peers := PrecalculatePeers g; peersToSendTo := N |}.

(** The state when [NewSimulator] has returned: one [runNode] goroutine
    per node has been issued, none has begun, and the wait group counts
    them all. *)
Definition init (sim : Simulator) : State :=
  {| now := 0; simulationStart := 0;
     actors := replicate (nodeCount sim) ASpawned;
     wg := Z.of_nat (nodeCount sim);
     senders := []; main := MIdle; panicked := false; history := [] |}.

(** The spawn loop of [propagateMessage]: one [sendMessage] goroutine per
    element of [s.peers[from]], in order. *)
Definition propagateMessage (sim : Simulator) (from : Z) (m : Message) (g : Tag)
  : list Sender :=
  (λ to, {| sfrom := from; sto := to; smsg := m; sphase := PSend; stag := g |})
    <$> peers_of sim from.

(** The body of the [case message := <-ch] branch of [runNode], for the
    actor of node [i] whose timer fires at [t]: the next state of the
    actor and the events. *)
Definition runNode_receive (sim : Simulator) (clock : Z) (i from : Z) (t : Z)
    (cache : gmap string bool) (m : Message) (g : Tag) : Actor * list Event :=
  if default false (cache !! Content m) then
    (ASelect t cache, [EvRecv from i (Content m) true])
  else
    let cache' := <[Content m := true]> cache in
    let m' := {| Content := Content m; TTL := GoInt.dec (TTL m) |} in
    if bool_decide (TTL m' = 0) then
      (AExited, [EvRecv from i (Content m) false; EvExpire i])
    else
      (AForward t cache' m' g (sleep_until clock (delay sim)),
       [EvRecv from i (Content m) false]).

(** Has the goroutine returned, so that its deferred [wg.Done()] has run. *)
Definition exited (a : Actor) : bool :=
  match a with AExited => true | _ => false end.

(** The transitions: which goroutine moves, or the clock. *)
Inductive Label :=
  | LTick (d : Z)          (* the clock advances by d > 0 *)
  | LBoot (i : nat)        (* runNode i begins: timer and cache are made *)
  | LCall (start ttl : Z)  (* SendMessage(start, ttl) up to the Sleep of propagateMessage *)
  | LInject                (* SendMessage: the spawn loop, then the select loop is entered *)
  | LRecv (k : nat)        (* sender k hands its message to the actor of its target *)
  | LRelay (i : nat)       (* actor i leaves Sleep and runs the spawn loop *)
  | LTimeout (i : nat)     (* actor i takes <-t.C *)
  | LEntry (k : nat)       (* sender k evaluates NewLogEntry *)
  | LReport (k : nat)      (* the select loop takes sender k's entry from reportCh *)
  | LDone                  (* the select loop takes <-done *)
  | LPanic (k : nat).      (* sender k indexes nodesCh out of range *)

(** [i] indexes [nodesCh] without a panic. *)
Definition valid_idx (sim : Simulator) (i : Z) : bool :=
  bool_decide (0 ≤ i < Z.of_nat (nodeCount sim)).

(** One transition; [None] when the goroutine cannot move: it is blocked,
    its timer or Sleep has not ended, or a panic has stopped the program. *)
Definition step (sim : Simulator) (l : Label) (s : State) : option State :=
  if panicked s then None else
  match l with
  | LTick d =>
      if bool_decide (0 < d) then Some (with_now (now s + d) s) else None
  | LBoot i =>
      match actors s !! i with
      | Some ASpawned =>
          Some (with_actors (<[i := ASelect (now s + idle_timeout) ∅]> (actors s)) s)
      | _ => None
      end
  | LCall start ttl =>
      if bool_decide (GoInt.is_int start ∧ GoInt.is_int ttl) then
        match main s with
        | MIdle | MReturned _ =>
            let message := {| Content := "dummy"; TTL := ttl |} in
            Some (record [EvCall start ttl]
                 (with_main (MSleep start message (sleep_until (now s) (delay sim)))
                 (with_start (now s) s)))
        | _ => None
        end
      else None
  | LInject =>
      match main s with
      | MSleep start m wake =>
          if bool_decide (wake ≤ now s) then
            Some (record [EvFanout start (Content m) true]
                 (with_main (MCollect [])
                 (with_senders
                   (senders s ++ propagateMessage sim start m (seed_tag start (TTL m)))
                   s)))
          else None
      | _ => None
      end
  | LRecv k =>
      match senders s !! k with
      | Some sd =>
          match sphase sd, valid_idx sim (sto sd), actors s !! Z.to_nat (sto sd) with
          | PSend, true, Some (ASelect t cache) =>
              let '(a, evs) :=
                runNode_receive sim (now s) (sto sd) (sfrom sd) t cache (smsg sd) (stag sd) in
              Some (record evs
                   (with_wg (if exited a then wg s - 1 else wg s)
                   (with_actors (<[Z.to_nat (sto sd) := a]> (actors s))
                   (with_senders (<[k := with_phase PEntry sd]> (senders s)) s))))
          | _, _, _ => None
          end
      | None => None
      end
  | LRelay i =>
      match actors s !! i with
      | Some (AForward t cache m g wake) =>
          if bool_decide (wake ≤ now s) then
            Some (record [EvFanout (Z.of_nat i) (Content m) false]
                 (with_actors (<[i := ASelect t cache]> (actors s))
                 (with_senders
                   (senders s ++
                    propagateMessage sim (Z.of_nat i) m (relay_tag (Z.of_nat i) g))
                   s)))
          else None
      | _ => None
      end
  | LTimeout i =>
      match actors s !! i with
      | Some (ASelect t cache) =>
          if bool_decide (t ≤ now s) then
            Some (record [EvTimeout (Z.of_nat i)]
                 (with_wg (wg s - 1)
                 (with_actors (<[i := AExited]> (actors s)) s)))
          else None
      | _ => None
      end
  | LEntry k =>
      match senders s !! k with
      | Some sd =>
          match sphase sd with
          | PEntry =>
              let e := NewLogEntry (now s) (simulationStart s) (sfrom sd) (sto sd) in
              Some (record [EvEntry e]
                   (with_senders (<[k := with_phase (PReport e) sd]> (senders s)) s))
          | _ => None
          end
      | None => None
      end
  | LReport k =>
      match senders s !! k, main s with
      | Some sd, MCollect ret =>
          match sphase sd with
          | PReport e =>
              Some (with_main (MCollect (ret ++ [(e, stag sd)]))
                   (with_senders (delete k (senders s)) s))
          | _ => None
          end
      | _, _ => None
      end
  | LDone =>
      match main s with
      | MCollect ret => if bool_decide (wg s = 0) then Some (with_main (MReturned ret) s) else None
      | _ => None
      end
  | LPanic k =>
      match senders s !! k with
      | Some sd =>
          match sphase sd, valid_idx sim (sto sd) with
          | PSend, false => Some (with_panic s)
          | _, _ => None
          end
      | None => None
      end
  end.

(** A schedule, transition by transition. *)
Fixpoint run (sim : Simulator) (ls : list Label) (s : State) : option State :=
  match ls with
  | [] => Some s
  | l :: ls => match step sim l s with Some s' => run sim ls s' | None => None end
  end.

(** The states of the engine: those that some schedule reaches after
    [NewSimulator]. *)
Definition reachable (sim : Simulator) (s : State) : Prop :=
  ∃ ls, run sim ls (init sim) = Some s.

(** The entries that [SendMessage] hands to [logEntries2PropagationLog]
    for its result, without the instrumentation. *)
Definition returned (s : State) : option (list LogEntry) :=
  match main s with MReturned ret => Some (ret.*1) | _ => None end.


(** ** The transitions as a relation

    [Step] lists the cases of [step], one constructor per outcome, for
    proofs by case analysis; [step_Step] and [Step_step] show that the two
    agree. *)

Inductive Step (sim : Simulator) (s : State) : Label → State → Prop :=
  | STick d :
      panicked s = false → 0 < d →
      Step sim s (LTick d) (with_now (now s + d) s)
  | SBoot i :
      panicked s = false → actors s !! i = Some ASpawned →
      Step sim s (LBoot i)
        (with_actors (<[i := ASelect (now s + idle_timeout) ∅]> (actors s)) s)
  | SCall start ttl :
      panicked s = false → GoInt.is_int start → GoInt.is_int ttl →
      (main s = MIdle ∨ ∃ ret, main s = MReturned ret) →
      Step sim s (LCall start ttl)
        (record [EvCall start ttl]
        (with_main (MSleep start {| Content := "dummy"; TTL := ttl |}
                      (sleep_until (now s) (delay sim)))
        (with_start (now s) s)))
  | SInject start m wake :
      panicked s = false → main s = MSleep start m wake → wake ≤ now s →
      Step sim s LInject
        (record [EvFanout start (Content m) true]
        (with_main (MCollect [])
        (with_senders
          (senders s ++ propagateMessage sim start m (seed_tag start (TTL m))) s)))
  | SRecvDup k sd t cache :
      panicked s = false → senders s !! k = Some sd → sphase sd = PSend →
      valid_idx sim (sto sd) = true →
      actors s !! Z.to_nat (sto sd) = Some (ASelect t cache) →
      default false (cache !! Content (smsg sd)) = true →
      Step sim s (LRecv k)
        (record [EvRecv (sfrom sd) (sto sd) (Content (smsg sd)) true]
        (with_wg (wg s)
        (with_actors (<[Z.to_nat (sto sd) := ASelect t cache]> (actors s))
        (with_senders (<[k := with_phase PEntry sd]> (senders s)) s))))
  | SRecvExpire k sd t cache :
      panicked s = false → senders s !! k = Some sd → sphase sd = PSend →
      valid_idx sim (sto sd) = true →
      actors s !! Z.to_nat (sto sd) = Some (ASelect t cache) →
      default false (cache !! Content (smsg sd)) = false →
      GoInt.dec (TTL (smsg sd)) = 0 →
      Step sim s (LRecv k)
        (record [EvRecv (sfrom sd) (sto sd) (Content (smsg sd)) false; EvExpire (sto sd)]
        (with_wg (wg s - 1)
        (with_actors (<[Z.to_nat (sto sd) := AExited]> (actors s))
        (with_senders (<[k := with_phase PEntry sd]> (senders s)) s))))
  | SRecvForward k sd t cache :
      panicked s = false → senders s !! k = Some sd → sphase sd = PSend →
      valid_idx sim (sto sd) = true →
      actors s !! Z.to_nat (sto sd) = Some (ASelect t cache) →
      default false (cache !! Content (smsg sd)) = false →
      GoInt.dec (TTL (smsg sd)) ≠ 0 →
      Step sim s (LRecv k)
        (record [EvRecv (sfrom sd) (sto sd) (Content (smsg sd)) false]
        (with_wg (wg s)
        (with_actors
          (<[Z.to_nat (sto sd) :=
               AForward t (<[Content (smsg sd) := true]> cache)
                 {| Content := Content (smsg sd); TTL := GoInt.dec (TTL (smsg sd)) |}
                 (stag sd) (sleep_until (now s) (delay sim))]> (actors s))
        (with_senders (<[k := with_phase PEntry sd]> (senders s)) s))))
  | SRelay i t cache m g wake :
      panicked s = false → actors s !! i = Some (AForward t cache m g wake) →
      wake ≤ now s →
      Step sim s (LRelay i)
        (record [EvFanout (Z.of_nat i) (Content m) false]
        (with_actors (<[i := ASelect t cache]> (actors s))
        (with_senders
          (senders s ++
           propagateMessage sim (Z.of_nat i) m (relay_tag (Z.of_nat i) g)) s)))
  | STimeout i t cache :
      panicked s = false → actors s !! i = Some (ASelect t cache) → t ≤ now s →
      Step sim s (LTimeout i)
        (record [EvTimeout (Z.of_nat i)]
        (with_wg (wg s - 1)
        (with_actors (<[i := AExited]> (actors s)) s)))
  | SEntry k sd :
      panicked s = false → senders s !! k = Some sd → sphase sd = PEntry →
      Step sim s (LEntry k)
        (record [EvEntry (NewLogEntry (now s) (simulationStart s) (sfrom sd) (sto sd))]
        (with_senders
          (<[k := with_phase
                    (PReport (NewLogEntry (now s) (simulationStart s) (sfrom sd) (sto sd)))
                    sd]> (senders s)) s))
  | SReport k sd e ret :
      panicked s = false → senders s !! k = Some sd → sphase sd = PReport e →
      main s = MCollect ret →
      Step sim s (LReport k)
        (with_main (MCollect (ret ++ [(e, stag sd)]))
        (with_senders (delete k (senders s)) s))
  | SDone ret :
      panicked s = false → main s = MCollect ret → wg s = 0 →
      Step sim s LDone (with_main (MReturned ret) s)
  | SPanic k sd :
      panicked s = false → senders s !! k = Some sd → sphase sd = PSend →
      valid_idx sim (sto sd) = false →
      Step sim s (LPanic k) (with_panic s).


(** ** Counting over goroutines, entries and events *)

(** How many elements of [l] satisfy [P]. *)
Fixpoint count {A} (P : A → bool) (l : list A) : Z :=
  match l with
  | [] => 0
  | x :: l => Z.b2z (P x) + count P l
  end.

(** The actor of node [f], if [f] is the index of one. *)
Definition actor_at (l : list Actor) (f : Z) : option Actor :=
  if bool_decide (0 ≤ f) then l !! Z.to_nat f else None.

(** The entries the select loop has appended so far, or has returned. *)
Definition collected (s : State) : list (LogEntry * Tag) :=
  match main s with
  | MCollect ret | MReturned ret => ret
  | _ => []
  end.

(** A sender, an entry on the link from [f] to [t]. *)
Definition on_link (f t : Z) (sd : Sender) : bool :=
  bool_decide (sfrom sd = f ∧ sto sd = t).

Definition entry_on (f t : Z) (e : LogEntry) : bool :=
  bool_decide (From e = f ∧ To e = t).

(** The message was handed over and the entry is not yet made. *)
Definition in_phase_entry (sd : Sender) : bool :=
  match sphase sd with PEntry => true | _ => false end.

(** The kinds of events: a fan-out of [f] by [runNode] for content [c], a
    seed fan-out at [f], any fan-out of [f], a receipt that was not a
    duplicate, a handoff on the link (f,t), an entry made on the link. *)
Definition is_relay (f : Z) (c : string) (e : Event) : bool :=
  match e with
  | EvFanout f' c' false => bool_decide (f' = f ∧ c' = c)
  | _ => false
  end.

Definition is_seed (f : Z) (e : Event) : bool :=
  match e with
  | EvFanout f' _ true => bool_decide (f' = f)
  | _ => false
  end.

Definition is_fanout (f : Z) (e : Event) : bool :=
  match e with
  | EvFanout f' _ _ => bool_decide (f' = f)
  | _ => false
  end.

Definition is_accept (e : Event) : bool :=
  match e with EvRecv _ _ _ false => true | _ => false end.

Definition is_recv (f t : Z) (e : Event) : bool :=
  match e with
  | EvRecv f' t' _ _ => bool_decide (f' = f ∧ t' = t)
  | _ => false
  end.

Definition is_entry (f t : Z) (e : Event) : bool :=
  match e with
  | EvEntry e' => entry_on f t e'
  | _ => false
  end.

Definition is_expire (e : Event) : bool :=
  match e with EvExpire _ => true | _ => false end.

(** Fan-outs of node [f] for content [c] made by [runNode], and fan-outs
    of [f] made by [SendMessage] for the seed. *)
Definition relays (h : list Event) (f : Z) (c : string) : Z := count (is_relay f c) h.
Definition seeds (h : list Event) (f : Z) : Z := count (is_seed f) h.
Definition fanouts (h : list Event) (f : Z) : Z := count (is_fanout f) h.
Definition accepts (h : list Event) : Z := count is_accept h.

(** Is the actor asleep in [propagateMessage] with content [c]; has its
    cache (or had, once it has returned) the key [c]. *)
Definition forwarding (a : option Actor) (c : string) : bool :=
  match a with
  | Some (AForward _ _ m _ _) => bool_decide (Content m = c)
  | _ => false
  end.

Definition cached (c : string) (a : Actor) : bool :=
  match a with
  | ASelect _ cache | AForward _ cache _ _ _ => default false (cache !! c)
  | AExited => true
  | ASpawned => false
  end.

Definition cached_at (a : option Actor) (c : string) : bool :=
  match a with Some a => cached c a | None => false end.

Definition timer (a : Actor) : option Z :=
  match a with
  | ASelect t _ | AForward t _ _ _ _ => Some t
  | _ => None
  end.

(** The goroutine has not returned. *)
Definition running (a : Actor) : bool := negb (exited a).

(** ** Invariants of the engine *)

(** Dedup: per node and content key, at most one fan-out by [runNode],
    counting the one the actor is about to make; once there is one the key
    is in the actor's cache. *)
Definition inv_dedup (s : State) : Prop :=
  ∀ f c,
    let n := relays (history s) f c + Z.b2z (forwarding (actor_at (actors s) f) c) in
    n ≤ 1 ∧ (0 < n → cached_at (actor_at (actors s) f) c = true).

(** Every message carries the content of the seed. *)
Definition event_content_ok (e : Event) : Prop :=
  match e with
  | EvFanout _ c _ | EvRecv _ _ c _ => c = "dummy"
  | _ => True
  end.

(** [SendMessage] was called with this ttl. *)
Definition called (h : list Event) (ttl : Z) : Prop := ∃ start, EvCall start ttl ∈ h.

(** A message that is on hop [hop g] and not yet decremented for it: its
    ttl is the ttl of its call less the earlier hops, and there are at
    least as many accepted receipts as earlier hops. *)
Definition msg_ok (h : list Event) (m : Message) (g : Tag) : Prop :=
  Content m = "dummy" ∧ GoInt.is_int (ttl0 g) ∧ called h (ttl0 g) ∧
  1 ≤ hop g ≤ accepts h + 1 ∧
  TTL m = GoInt.wrap (ttl0 g - (hop g - 1)) ∧
  (1 ≤ ttl0 g → hop g ≤ ttl0 g).

(** A message received on hop [hop g], decremented, about to be forwarded. *)
Definition fwd_ok (h : list Event) (m : Message) (g : Tag) : Prop :=
  Content m = "dummy" ∧ GoInt.is_int (ttl0 g) ∧ called h (ttl0 g) ∧
  1 ≤ hop g ≤ accepts h ∧
  TTL m = GoInt.wrap (ttl0 g - hop g) ∧ TTL m ≠ 0 ∧
  (1 ≤ ttl0 g → hop g < ttl0 g).

(** The tag of a collected entry. *)
Definition entry_ok (h : list Event) (g : Tag) : Prop :=
  called h (ttl0 g) ∧ 1 ≤ hop g ≤ accepts h + 1 ∧ (1 ≤ ttl0 g → hop g ≤ ttl0 g).

(** Tags and ttl agree everywhere, and no more receipts were accepted than
    there are actors that have the key in their cache or have returned. *)
Definition inv_tags (s : State) : Prop :=
  let h := history s in
  Forall event_content_ok h ∧
  accepts h ≤ count (cached "dummy") (actors s) ∧
  (∀ sd, sd ∈ senders s → msg_ok h (smsg sd) (stag sd)) ∧
  (∀ t ca m g w, AForward t ca m g w ∈ actors s → fwd_ok h m g) ∧
  (∀ start m w, main s = MSleep start m w →
     Content m = "dummy" ∧ GoInt.is_int (TTL m) ∧ called h (TTL m)) ∧
  (∀ e g, (e, g) ∈ collected s → entry_ok h g).

(** ** Forwarding chains *)

(** The links between the consecutive nodes of a list. *)
Fixpoint links_of (r : list Z) : list (Z * Z) :=
  match r with
  | a :: r' => match r' with b :: _ => (a, b) :: links_of r' | [] => [] end
  | [] => []
  end.

(** Every link of the chain joins a node to one of its peers and a
    message has been handed over on it. *)
Definition chain_ok (sim : Simulator) (h : list Event) (chain : list Z) : Prop :=
  ∀ a b, (a, b) ∈ links_of chain → b ∈ peers_of sim a ∧ 0 < count (is_recv a b) h.

(** The route begins at the start node of the call that injected the
    message, with the ttl of that call. *)
Definition seeded (h : list Event) (g : Tag) : Prop :=
  ∃ start, head (route g) = Some start ∧ EvCall start (ttl0 g) ∈ h.

(** The route of a message is the chain of handoffs that brought it to the
    node that dispatches it; with the target of a log entry it is the
    forwarding chain that ends in the entry. *)
Definition sender_route (sim : Simulator) (h : list Event) (sd : Sender) : Prop :=
  seeded h (stag sd) ∧ last (route (stag sd)) = Some (sfrom sd) ∧
  sto sd ∈ peers_of sim (sfrom sd) ∧ chain_ok sim h (route (stag sd)) ∧
  (sphase sd ≠ PSend → 0 < count (is_recv (sfrom sd) (sto sd)) h).

Definition actor_route (sim : Simulator) (h : list Event) (i : nat) (g : Tag) : Prop :=
  seeded h g ∧ chain_ok sim h (route g ++ [Z.of_nat i]).

Definition entry_route (sim : Simulator) (h : list Event) (e : LogEntry) (g : Tag) : Prop :=
  seeded h g ∧ last (route g) = Some (From e) ∧ chain_ok sim h (route g ++ [To e]).

Definition inv_route (sim : Simulator) (s : State) : Prop :=
  let h := history s in
  (∀ start m w, main s = MSleep start m w → EvCall start (TTL m) ∈ h) ∧
  (∀ sd, sd ∈ senders s → sender_route sim h sd) ∧
  (∀ i t ca m g w, actors s !! i = Some (AForward t ca m g w) → actor_route sim h i g) ∧
  (∀ e g, (e, g) ∈ collected s → entry_route sim h e g).

(** How often [t] occurs in a peer list (parallel links are kept). *)
Definition mult (t : Z) (l : list Z) : Z := count (λ p, bool_decide (p = t)) l.

(** How many collected entries are on the link from [f] to [t]. *)
Definition logged (f t : Z) (ret : list (LogEntry * Tag)) : Z :=
  count (λ r, entry_on f t r.1) ret.

(** An entry waiting on [reportCh] names the link of its sender. *)
Definition inv_entries (s : State) : Prop :=
  ∀ sd e, sd ∈ senders s → sphase sd = PReport e → From e = sfrom sd ∧ To e = sto sd.

(** Senders and collected entries on a link never outnumber the fan-outs
    of its source times the multiplicity of the target in its peer list. *)
Definition inv_pairs (sim : Simulator) (s : State) : Prop :=
  ∀ f t,
    count (on_link f t) (senders s) + logged f t (collected s)
    ≤ mult t (peers_of sim f) * fanouts (history s) f.

(** The calls of [SendMessage] so far, oldest first. *)
Fixpoint calls (h : list Event) : list (Z * Z) :=
  match h with
  | [] => []
  | EvCall start ttl :: h => (start, ttl) :: calls h
  | _ :: h => calls h
  end.

(** The first round on a fresh simulator, called with ttl 1 at [start]:
    the goroutines of [sendMessage] and the collected entries together are
    the peer list of [start], and all of them are on the first hop. *)
Definition inv_first (sim : Simulator) (start : Z) (s : State) : Prop :=
  (calls (history s) = [] → main s = MIdle ∧ senders s = []) ∧
  (calls (history s) = [(start, 1)] →
     (∀ sd, sd ∈ senders s → sfrom sd = start) ∧
     (∀ r, r ∈ collected s → From r.1 = start) ∧
     match main s with
     | MIdle => False
     | MSleep st _ _ => st = start ∧ senders s = []
     | MCollect ret | MReturned ret =>
         (length ret + length (senders s) = length (peers_of sim start))%nat
     end).

(** A sender on the link (f,t) whose message was taken and whose entry is
    not yet made. *)
Definition awaiting (f t : Z) (sd : Sender) : bool := on_link f t sd && in_phase_entry sd.

(** Every message taken from a channel has made its entry, or is about to. *)
Definition inv_handoff (s : State) : Prop :=
  ∀ f t,
    count (is_recv f t) (history s)
    = count (awaiting f t) (senders s) + count (is_entry f t) (history s).

(** A hop event: an entry was made. *)
Definition any_entry (e : Event) : bool :=
  match e with EvEntry _ => true | _ => false end.

(** The actor of [t] has returned, every [sendMessage] goroutine on the
    link (f,t) is blocked on its channel send, and no entry was made on
    the link. *)
Definition link_dead (f t : Z) (s : State) : Prop :=
  actor_at (actors s) t = Some AExited ∧
  (∀ sd, sd ∈ senders s → on_link f t sd = true → sphase sd = PSend) ∧
  count (is_entry f t) (history s) = 0.

(** The simulator with another fan-out width. *)
Definition with_width (N : Z) (sim : Simulator) : Simulator :=
  {| data := data sim; delay := delay sim; peers := peers sim; peersToSendTo := N |}.

(** Every peer index names an actor. *)
Definition no_dangling (sim : Simulator) : Prop :=
  ∀ f t, t ∈ peers_of sim f → valid_idx sim t = true.

(** ** The instrumentation taken away

    [erase] forgets the tags and the history; [instrumentation_inert]
    shows that the transitions do not depend on them. *)

Definition no_tag : Tag := {| route := []; ttl0 := 0 |}.

Definition erase_sender (sd : Sender) : Sender :=
  {| sfrom := sfrom sd; sto := sto sd; smsg := smsg sd; sphase := sphase sd;
     stag := no_tag |}.

Definition erase_actor (a : Actor) : Actor :=
  match a with
  | AForward t cache m _ wake => AForward t cache m no_tag wake
  | a => a
  end.

Definition erase_entry (r : LogEntry * Tag) : LogEntry * Tag := (r.1, no_tag).

Definition erase_main (m : Main) : Main :=
  match m with
  | MCollect ret => MCollect (erase_entry <$> ret)
  | MReturned ret => MReturned (erase_entry <$> ret)
  | m => m
  end.

Definition erase (s : State) : State :=
  {| now := now s; simulationStart := simulationStart s;
     actors := erase_actor <$> actors s; wg := wg s;
     senders := erase_sender <$> senders s; main := erase_main (main s);
     panicked := panicked s; history := [] |}.

(** ** The WhisperV6 simulator: the collecting loop of [SendMessage]

    Lines 163 to 208 of the whisperv6 simulator: what the select loop
    does with the stream of its select outcomes, and the checks after it.
    The network, the RPC client and the event subscription are the
    go-ethereum collaborators; they appear as the stream. *)

Module Whisper.

(** [simulations.Event] as far as the loop reads it. *)
Record SimEvent := {
  IsMsg : bool;        (* event.Type == simulations.EventTypeMsg *)
  Code : Z;
  Protocol : string;
  Received : bool;
  One : string;        (* enode.ID *)
  Other : string;
  Time : Z;
}.

Inductive Select :=
  | OnEvent (event : SimEvent)     (* case event := <-events *)
  | OnTimer                        (* case <-timer.C *)
  | OnSubErr (e : option string).  (* case e := <-sub.Err() *)

Record Loop := {
  subErr : option string;
  done : bool;
  hasEvents : bool;
  plog : list LogEntry;
}.

Definition vars : Loop :=
  {| subErr := None; done := false; hasEvents := false; plog := [] |}.

(** One pass through the select; [ncache[id]] reads 0 for a missing key.
    Modelled from the spec: [propagation.NewLogEntry(t, start, from, to)]
    is not among the sources; the timestamp is relative to [start]. *)
Definition body (ncache : gmap string Z) (start : Z) (st : Loop) (c : Select) : Loop :=
  match c with
  | OnEvent event =>
      if IsMsg event
         && bool_decide (Code event = 1)
         && bool_decide (Protocol event = "shh")
         && negb (Received event)
      then
        let from := default 0 (ncache !! One event) in
        let to := default 0 (ncache !! Other event) in
        {| subErr := subErr st; done := done st; hasEvents := true;
           plog := plog st ++ [NewLogEntry (Time event) start from to] |}
      else st
  | OnTimer =>
      {| subErr := subErr st; done := true; hasEvents := hasEvents st; plog := plog st |}
  | OnSubErr e =>
      {| subErr := e; done := done st; hasEvents := hasEvents st; plog := plog st |}
  end.

(** [for subErr == nil && !done { select ... }]; [None] when the stream
    ends with the loop still waiting. *)
Fixpoint loop (ncache : gmap string Z) (start : Z) (st : Loop) (cs : list Select)
  : option Loop :=
  if bool_decide (subErr st = None) && negb (done st) then
    match cs with
    | [] => None
    | c :: cs => loop ncache start (body ncache start st c) cs
    end
  else Some st.

Inductive Outcome :=
  | Fatal (msg : string)              (* log.Fatal *)
  | Returned (entries : list LogEntry).  (* the entries handed to LogEntries2Log *)

Definition finish (st : Loop) : Outcome :=
  match subErr st with
  | Some _ => Fatal "[ERROR] Failed to collect propagation info"
  | None =>
      if negb (hasEvents st)
      then Fatal "[ERROR] Didn't get any events, something wrong with simulator."
      else Returned (plog st)
  end.

Definition SendMessage (ncache : gmap string Z) (start : Z) (cs : list Select)
  : option Outcome :=
  finish <$> loop ncache start vars cs.

End Whisper.

(** ** Trace analysis: package stats *)

(** Modelled from the spec: [propagation.Log] is not among the sources; it
    holds the derived lists that [Analyze] reads, the indices of the
    receiving nodes ([Nodes]) and of the links hit ([Indices]), one list
    per timestamp. *)
Module Propagation.

Record Log := {
  Timestamps : list Z;
  Indices : list (list Z);
  Nodes : list (list Z);
}.

End Propagation.

Module Stats.

(** Modelled from the spec: [Coverage] and [NewCoverage] are not among the
    sources; a coverage is the pair actual, total. *)
Record Coverage := { Actual : Z; Total : Z }.

Definition NewCoverage (actual total : Z) : Coverage :=
  {| Actual := actual; Total := total |}.

(** [nodeHits[id]++] after [g.NodeIDByIdx(j)]; [None] is [log.Fatal]. *)
Definition hit (g : Graph) (nodeHits : gmap string Z) (j : Z) : option (gmap string Z) :=
  match NodeIDByIdx g j with
  | Some id => Some (<[id := GoInt.inc (default 0 (nodeHits !! id))]> nodeHits)
  | None => None
  end.

(** [for _, j := range nodes] *)
Fixpoint hits (g : Graph) (nodeHits : gmap string Z) (nodes : list Z)
  : option (gmap string Z) :=
  match nodes with
  | [] => Some nodeHits
  | j :: nodes =>
      match hit g nodeHits j with
      | Some nodeHits => hits g nodeHits nodes
      | None => None
      end
  end.

(** [for _, nodes := range plog.Nodes] *)
Fixpoint all_hits (g : Graph) (nodeHits : gmap string Z) (rows : list (list Z))
  : option (gmap string Z) :=
  match rows with
  | [] => Some nodeHits
  | nodes :: rows =>
      match hits g nodeHits nodes with
      | Some nodeHits => all_hits g nodeHits rows
      | None => None
      end
  end.

Section Analyze.

(** The histogram of this package is not among the sources: [hist0] is
    [NewHistogram(HistogramOptions{NumBuckets: 16, GrowthFactor: 0.2,
    MinValue: 1})] and [Add h v] is the histogram after [h.Add(int64(v))],
    whose error is only logged. Go leaves open the order in which
    [for key, v := range nodeHits] visits the map, and it may differ from
    one run to the next: [order] gives the entries of the map as one run
    visits them. *)
Context {Histogram : Type} (hist0 : Histogram) (Add : Histogram → Z → Histogram)
  (order : gmap string Z → list (string * Z)).

Record Stats := {
  NodeHits : gmap string Z;
  NodeCoverage : Coverage;
  LinkCoverage : Coverage;
  Hist : Histogram;
}.

(** The second loop adds the counters to the histogram in the order in
    which this run ranges over the map. *)
Definition analyzeNodeHits (g : Graph) (plog : Propagation.Log)
  : option (gmap string Z * Histogram) :=
  match all_hits g ∅ (Propagation.Nodes plog) with
  | Some nodeHits =>
      Some (nodeHits, foldl (λ hist kv, Add hist kv.2) hist0 (order nodeHits))
  | None => None
  end.

Definition analyzeNodeCoverage (g : Graph) (nodeHits : gmap string Z) : Coverage :=
  let actual := Z.of_nat (size nodeHits) in
  let total := Z.of_nat (length (Nodes g)) in
  NewCoverage actual total.

Definition analyzeLinkCoverage (g : Graph) (plog : Propagation.Log) : Coverage :=
  let linkHits : gset Z := list_to_set (concat (Propagation.Indices plog)) in
  let actual := Z.of_nat (size linkHits) in
  let total := Z.of_nat (length (Links g)) in
  NewCoverage actual total.

Definition Analyze (g : Graph) (plog : Propagation.Log) : option Stats :=
  match analyzeNodeHits g plog with
  | Some (nodeHits, hist) =>
      Some {| NodeHits := nodeHits;
              NodeCoverage := analyzeNodeCoverage g nodeHits;
              LinkCoverage := analyzeLinkCoverage g plog;
              Hist := hist |}
  | None => None
  end.

End Analyze.

(** The receiving node of every log entry, as [Analyze] ranges over them. *)
Definition receivers (plog : Propagation.Log) : list Z := concat (Propagation.Nodes plog).

(** How many of the indices [js] carry the identifier [id]. *)
Definition hits_of (g : Graph) (id : string) (js : list Z) : Z :=
  count (λ j, bool_decide (NodeIDByIdx g j = Some id)) js.

End Stats.

(** The identifiers and the node indices that the log hits. *)
Definition ids_hit (g : Graph) (js : list Z) : gset string :=
  list_to_set (omap (NodeIDByIdx g) js).

Definition nodes_hit (js : list Z) : gset Z := list_to_set js.

(** The log names nodes of the topology only. *)
Definition log_in_range (g : Graph) (plog : Propagation.Log) : Prop :=
  ∀ j, j ∈ Stats.receivers plog → 0 ≤ j < Z.of_nat (length (Nodes g)).

(** A log as [SendMessage] would hand it over for the pair: node 1 was
    hit twice and node 0 once. *)
Definition pair_log : Propagation.Log :=
  {| Propagation.Timestamps := [10; 20];
     Propagation.Indices := [[0]; [0; 0]];
     Propagation.Nodes := [[1]; [0; 1]] |}.

(** ** Concrete topologies and runs *)

(** Two nodes and one link, with the arguments of the command line tool:
    [gossip.NewSimulator(network, 4, 10)]. *)
Definition pair_graph : Graph :=
  {| Nodes := ["n0"; "n1"]; Links := [ {| FromIdx := 0; ToIdx := 1 |} ] |}.

Definition pair_sim : Simulator := NewSimulator pair_graph 4 10.

Definition state_after (sim : Simulator) (ls : list Label) : State :=
  default (init sim) (run sim ls (init sim)).

(** [SendMessage(0, 3)] on the pair: node 1 takes the seed and relays it,
    node 0 takes the relayed copy, which its cache does not know. *)
Definition relay_run : list Label :=
  [LBoot 0; LBoot 1; LCall 0 3; LTick 10; LInject; LRecv 0; LEntry 0; LReport 0;
   LTick 10; LRelay 1; LRecv 0; LEntry 0; LReport 0].

Definition relay_state : State := state_after pair_sim relay_run.

(** [SendMessage(0, 1)] on the pair, called at once: node 1 takes the
    seed and returns on ttl zero, node 0 idles out. *)
Definition prompt_run : list Label :=
  [LBoot 0; LBoot 1; LCall 0 1; LTick 10; LInject; LRecv 0; LEntry 0; LReport 0;
   LTick idle_timeout; LTimeout 0; LDone].

Definition prompt_state : State := state_after pair_sim prompt_run.

(** [SendMessage(0, 1)] on the pair, called ten seconds after
    [NewSimulator]: both actors have taken their timer before the call. *)
Definition late_run : list Label :=
  [LBoot 0; LBoot 1; LTick idle_timeout; LTimeout 0; LTimeout 1;
   LCall 0 1; LTick 10; LInject; LDone].

Definition late_state : State := state_after pair_sim late_run.

(** A second [SendMessage(0, 1)] on the pair after the round of
    [prompt_run] has returned: all actors are gone. *)
Definition second_run : list Label :=
  prompt_run ++ [LCall 0 1; LTick 10; LInject; LDone].

Definition second_state : State := state_after pair_sim second_run.

(** [SendMessage(0, 3)] on the pair: the relayed copies go back and forth
    until node 1 takes a duplicate at the very instant its timer fires. *)
Definition busy_run : list Label :=
  relay_run ++ [LTick 10; LRelay 0; LTick (idle_timeout - 30); LRecv 0].

Definition busy_state : State := state_after pair_sim busy_run.

(** [SendMessage(0, 0)] on the pair: the round runs to the end. *)
Definition zero_ttl_run : list Label :=
  [LBoot 0; LBoot 1; LCall 0 0; LTick 10; LInject; LRecv 0; LEntry 0; LReport 0;
   LTick 10; LRelay 1; LRecv 0; LEntry 0; LReport 0;
   LTick 10; LRelay 0; LRecv 0; LEntry 0; LReport 0;
   LTick idle_timeout; LTimeout 0; LTimeout 1; LDone].

Definition zero_ttl_state : State := state_after pair_sim zero_ttl_run.

(** [SendMessage(7, 1)] on the pair, which has no node 7. *)
Definition bad_start_run : list Label :=
  [LBoot 0; LBoot 1; LCall 7 1; LTick 10; LInject;
   LTick idle_timeout; LTimeout 0; LTimeout 1; LDone].

Definition bad_start_state : State := state_after pair_sim bad_start_run.

(** [SendMessage(0, math.MinInt64)] on the pair, up to the first receipt. *)
Definition min_ttl_run : list Label :=
  [LBoot 0; LBoot 1; LCall 0 GoInt.min_int; LTick 10; LInject; LRecv 0].

Definition min_ttl_state : State := state_after pair_sim min_ttl_run.

(** [SendMessage(0, 0)] on the pair, up to the seed fan-out. *)
Definition zero_seed_run : list Label :=
  [LBoot 0; LBoot 1; LCall 0 0; LTick 10; LInject].

Definition zero_seed_state : State := state_after pair_sim zero_seed_run.

(** The message an actor is about to forward. *)
Definition forwarded (s : State) (i : nat) : option Message :=
  match actors s !! i with
  | Some (AForward _ _ m _ _) => Some m
  | _ => None
  end.

(** Three nodes in a ring. *)
Definition ring_graph : Graph :=
  {| Nodes := ["n0"; "n1"; "n2"];
     Links := [ {| FromIdx := 0; ToIdx := 1 |}; {| FromIdx := 1; ToIdx := 2 |};
                {| FromIdx := 2; ToIdx := 0 |} ] |}.

Definition ring_sim : Simulator := NewSimulator ring_graph 4 10.

(** [SendMessage(0, 2)] on the ring, called at once: nodes 1 and 2 take
    the seed and relay it; node 0 takes the copy of node 1 and returns on
    ttl zero while the copy of node 2 is still on its way to it. *)
Definition ring_run : list Label :=
  [LBoot 0; LBoot 1; LBoot 2; LCall 0 2; LTick 10; LInject; LRecv 0; LRecv 1;
   LTick 10; LRelay 1; LRelay 2; LRecv 2].

Definition ring_state : State := state_after ring_sim ring_run.

(** Two nodes joined by two parallel links. *)
Definition double_graph : Graph :=
  {| Nodes := ["n0"; "n1"];
     Links := [ {| FromIdx := 0; ToIdx := 1 |}; {| FromIdx := 0; ToIdx := 1 |} ] |}.

Definition double_sim : Simulator := NewSimulator double_graph 4 10.

(** [SendMessage(0, 1)] on the double link, called at once. *)
Definition double_run : list Label :=
  [LBoot 0; LBoot 1; LCall 0 1; LTick 10; LInject; LRecv 0; LEntry 0; LReport 0;
   LTick idle_timeout; LTimeout 0; LDone].

Definition double_state : State := state_after double_sim double_run.

(** ** Goroutines left behind, exits and time *)

(** The goroutine of [sendMessage] has handed its message over: it is past
    the send on [nodesCh[to]]. *)
Definition handed (sd : Sender) : bool :=
  match sphase sd with PSend => false | _ => true end.

(** The goroutine is blocked on the send on [nodesCh[to]]. *)
Definition sending (sd : Sender) : bool := negb (handed sd).

(** Every [runNode] goroutine has returned. *)
Definition all_exited (l : list Actor) : Prop := Forall (λ a, a = AExited) l.

(** The hand-over goroutines past their channel send together with the
    entries of the round in progress. *)
Definition pending (s : State) : Z :=
  count handed (senders s) + Z.of_nat (length (collected s)).

(** The timer of [runNode] runs ten seconds from its creation, and the
    clock starts at zero: a timer instant is never before ten seconds, and
    an actor that has returned did so on the ttl test or, ten seconds or
    more after [NewSimulator], on its timer. *)
Definition exit_ok (h : list Event) (clock : Z) (i : nat) (a : Actor) : Prop :=
  match a with
  | ASpawned => True
  | ASelect t _ | AForward t _ _ _ _ => idle_timeout ≤ t
  | AExited =>
      EvExpire (Z.of_nat i) ∈ h ∨ (EvTimeout (Z.of_nat i) ∈ h ∧ idle_timeout ≤ clock)
  end.

Definition inv_exit (s : State) : Prop :=
  0 ≤ now s ∧ ∀ i a, actors s !! i = Some a → exit_ok (history s) (now s) i a.

(** [SendMessage] has returned only with the wait group at zero, and so
    has every later round begun. *)
Definition inv_round (s : State) : Prop :=
  match main s with
  | MIdle => calls (history s) = []
  | MReturned _ => wg s = 0
  | MSleep _ _ _ | MCollect _ => (2 ≤ length (calls (history s)))%nat → wg s = 0
  end.

(** Timestamps are taken from a clock that has not run backwards since
    [simulationStart] was set. *)
Definition inv_time (s : State) : Prop :=
  simulationStart s ≤ now s ∧
  (∀ sd e, sd ∈ senders s → sphase sd = PReport e → 0 ≤ Ts e) ∧
  (∀ e g, (e, g) ∈ collected s → 0 ≤ Ts e).

(** In the first round every fan-out comes after a [time.Sleep(s.delay)]:
    a message on hop h was dispatched no earlier than h delays after
    [simulationStart]. *)
Definition inv_hops (sim : Simulator) (s : State) : Prop :=
  (length (calls (history s)) ≤ 1)%nat →
  let d := Z.max 0 (delay sim) in
  (∀ start m w, main s = MSleep start m w → simulationStart s + d ≤ w) ∧
  (∀ sd, sd ∈ senders s →
     simulationStart s + hop (stag sd) * d ≤ now s ∧
     ∀ e, sphase sd = PReport e → hop (stag sd) * d ≤ Ts e) ∧
  (∀ t ca m g w, AForward t ca m g w ∈ actors s →
     simulationStart s + (hop g + 1) * d ≤ w) ∧
  (∀ e g, (e, g) ∈ collected s → hop g * d ≤ Ts e).

(** Until the second call of [SendMessage] no goroutine of [sendMessage]
    is lost from the books: those alive and the entries collected on a
    link are the fan-outs of its source, one per parallel link. *)
Definition inv_ledger (sim : Simulator) (s : State) : Prop :=
  (length (calls (history s)) ≤ 1)%nat →
  ∀ f t,
    count (on_link f t) (senders s) + logged f t (collected s)
    = mult t (peers_of sim f) * fanouts (history s) f.

(** A round started at a node without peers: nothing is ever dispatched. *)
Definition inv_isolated (start ttl : Z) (s : State) : Prop :=
  (calls (history s) = [] ∨ calls (history s) = [(start, ttl)]) →
  senders s = [] ∧ collected s = [] ∧ count is_expire (history s) = 0 ∧
  Forall (λ a, match a with AForward _ _ _ _ _ => False | _ => True end) (actors s) ∧
  (∀ st m w, main s = MSleep st m w → calls (history s) = [(st, TTL m)]).

(** A message is handed over only to the actor of a node: past the channel
    send the target index is in range, and so is the receiving index of
    every entry. *)
Definition inv_receiver (sim : Simulator) (s : State) : Prop :=
  (∀ sd, sd ∈ senders s → handed sd = true → valid_idx sim (sto sd) = true) ∧
  (∀ e g, (e, g) ∈ collected s → valid_idx sim (To e) = true).

(** [SendMessage(start, ttl)] on a fresh simulator, with the scheduler
    running the caller alone. *)
Definition lone_run (sim : Simulator) (start ttl : Z) : list Label :=
  [LCall start ttl; LTick (Z.max 1 (delay sim)); LInject; LDone].

(** ** The WhisperV6 simulator: node names, the index cache, the log *)

(** [nodeIdxToName]: [fmt.Sprintf("Node %d", id)]. *)
Definition nodeIdxToName (id : Z) : string := "Node " +:+ pretty id.

(** The loop that fills [ncache] in [SendMessage]:
    [for i := range s.network.Nodes { ncache[s.network.Nodes[i].ID()] = i }],
    over the identifiers of [s.network.Nodes] from index [i] on. *)
Fixpoint precache_from (i : Z) (ids : list string) (ncache : gmap string Z)
  : gmap string Z :=
  match ids with
  | [] => ncache
  | id :: ids => precache_from (i + 1) ids (<[id := i]> ncache)
  end.

Definition precache (ids : list string) : gmap string Z := precache_from 0 ids ∅.

(** The test of the select loop on an event: a message event of the
    protocol shh with code 1 that is a send. *)
Definition relevant (event : Whisper.SimEvent) : bool :=
  Whisper.IsMsg event
  && bool_decide (Whisper.Code event = 1)
  && bool_decide (Whisper.Protocol event = "shh")
  && negb (Whisper.Received event).

(** The entry the loop appends for such an event. *)
Definition entry_of (ncache : gmap string Z) (start : Z) (event : Whisper.SimEvent)
  : LogEntry :=
  NewLogEntry (Whisper.Time event) start
    (default 0 (ncache !! Whisper.One event))
    (default 0 (ncache !! Whisper.Other event)).

(** The events selected before the loop ends, and what ended it: the timer
    ([None]) or an error of the subscription; nothing when the stream ends
    with the loop still waiting. A nil error from [sub.Err()] does not end
    the loop. *)
Fixpoint window (cs : list Whisper.Select)
  : option (list Whisper.SimEvent * option string) :=
  match cs with
  | [] => None
  | Whisper.OnEvent event :: cs =>
      match window cs with
      | Some (events, r) => Some (event :: events, r)
      | None => None
      end
  | Whisper.OnTimer :: _ => Some ([], None)
  | Whisper.OnSubErr None :: cs => window cs
  | Whisper.OnSubErr (Some e) :: _ => Some ([], Some e)
  end.

(** ** Trace analysis: totals *)

(** The sum of the hit counters. *)
Definition total_hits (nodeHits : gmap string Z) : Z :=
  map_fold (λ _ v acc, v + acc) 0 nodeHits.

(** The link index of every log entry, as [analyzeLinkCoverage] ranges
    over them. *)
Definition links_hit (plog : Propagation.Log) : list Z :=
  concat (Propagation.Indices plog).

(** The identifiers of the topology. *)
Definition node_ids (g : Graph) : gset string := list_to_set (Nodes g).

(** The log of [pair_log] with its entries in another order and under
    other timestamps. *)
Definition pair_log_shuffled : Propagation.Log :=
  {| Propagation.Timestamps := [5; 7; 9];
     Propagation.Indices := [[0]; [0]; [0]];
     Propagation.Nodes := [[1]; [1]; [0]] |}.

(** A log for the pair that names a node index the pair does not have. *)
Definition stray_log : Propagation.Log :=
  {| Propagation.Timestamps := [10];
     Propagation.Indices := [[0]];
     Propagation.Nodes := [[2]] |}.

(** Three nodes of which two carry the same identifier, and a log that
    hits these two. *)
Definition twin_graph : Graph :=
  {| Nodes := ["a"; "a"; "b"];
     Links := [ {| FromIdx := 0; ToIdx := 1 |}; {| FromIdx := 1; ToIdx := 2 |} ] |}.

Definition twin_log : Propagation.Log :=
  {| Propagation.Timestamps := [10; 20];
     Propagation.Indices := [[0]; [0]];
     Propagation.Nodes := [[1]; [0]] |}.

(** A histogram that keeps the values in the order of their addition. *)
Definition keep_order (h : list Z) (v : Z) : list Z := h ++ [v].

(** A run that ranges over the map the other way round. *)
Definition backwards (m : gmap string Z) : list (string * Z) := reverse (map_to_list m).

(** A topology without nodes, and the simulator of the command line tool
    on it. *)
Definition empty_graph : Graph := {| Nodes := []; Links := [] |}.

Definition empty_sim : Simulator := NewSimulator empty_graph 4 10.

(** The caller [SendMessage] is in [propagateMessage] for the seed at [f]. *)
Definition seeding (f : Z) (m : Main) : bool :=
  match m with MSleep start _ _ => bool_decide (start = f) | _ => false end.

(** Every seed fan-out belongs to a call of [SendMessage]. *)
Definition inv_seeds (s : State) : Prop :=
  ∀ f, seeds (history s) f + Z.b2z (seeding f (main s))
       ≤ Z.of_nat (length (calls (history s))).

(** The nodes that have relayed a message, its route without the start
    index, are nodes of the topology that have run the fan-out of
    [runNode], and none occurs twice. *)
Definition simple_route (sim : Simulator) (h : list Event) (g : Tag) : Prop :=
  NoDup (tail (route g)) ∧
  ∀ x, x ∈ tail (route g) →
       0 ≤ x < Z.of_nat (nodeCount sim) ∧ 1 ≤ relays h x "dummy".

Definition inv_simple (sim : Simulator) (s : State) : Prop :=
  (∀ sd, sd ∈ senders s → simple_route sim (history s) (stag sd)) ∧
  (∀ t ca m g w, AForward t ca m g w ∈ actors s → simple_route sim (history s) g) ∧
  (∀ e g, (e, g) ∈ collected s → simple_route sim (history s) g).

(** The cases of a transition, with names for what each one gives. *)
Ltac step_cases HS :=
  destruct HS as
    [ d Hp Hd
    | i Hp Ha
    | start ttl Hp Hs Ht Hm
    | start m wake Hp Hm Hw
    | k sd t cache Hp Hk Hph Hv Ha Hc
    | k sd t cache Hp Hk Hph Hv Ha Hc Hz
    | k sd t cache Hp Hk Hph Hv Ha Hc Hnz
    | i t cache m g wake Hp Ha Hw
    | i t cache Hp Ha Ht
    | k sd Hp Hk Hph
    | k sd e ret Hp Hk Hph Hm
    | ret Hp Hm Hwg
    | k sd Hp Hk Hph Hv ].
Lemma step_Step sim l s s' : step sim l s = Some s' → Step sim s l s'.
Proof.
  unfold step, runNode_receive. intros H.
  destruct (panicked s) eqn:Hp; [done|].
  destruct l; simpl in H;
    repeat (case_match; simplify_eq; try done);
    repeat match goal with
           | H : bool_decide _ = true |- _ => apply bool_decide_eq_true in H
           | H : bool_decide _ = false |- _ => apply bool_decide_eq_false in H
           end;
    try (by econstructor; eauto).
  all: match goal with H : _ ∧ _ |- _ => destruct H end; by econstructor; eauto.
Qed.

Lemma Step_step sim l s s' : Step sim s l s' → step sim l s = Some s'.
Proof.
  unfold step, runNode_receive.
  destruct 1; simpl;
    try match goal with H : _ ∨ _ |- _ => destruct H as [H|[? H]] end;
    repeat match goal with
           | H : _ = _ |- _ => rewrite H; simpl
           end;
    repeat case_bool_decide; simpl; try done; tauto.
Qed.

(** ** Lemmas on counting *)

Section Count.
Context {A : Type}.
Implicit Types (P : A → bool) (l : list A).

Lemma count_nonneg P l : 0 ≤ count P l.
Proof. induction l as [|x l IH]; simpl; [lia|]. destruct (P x); simpl; lia. Qed.

Lemma count_app P l1 l2 : count P (l1 ++ l2) = count P l1 + count P l2.
Proof. induction l1 as [|x l1 IH]; simpl; lia. Qed.

Lemma count_le_length P l : count P l ≤ Z.of_nat (length l).
Proof. induction l as [|x l IH]; simpl length; simpl count; [lia|]. destruct (P x); simpl; lia. Qed.

Lemma count_ext P Q l : (∀ x, x ∈ l → P x = Q x) → count P l = count Q l.
Proof.
  induction l as [|x l IH]; intros H; simpl; [done|].
  rewrite H by left. rewrite IH; [done|]. intros y Hy. apply H. by right.
Qed.

Lemma count_insert P l k x y :
  l !! k = Some x → count P (<[k := y]> l) = count P l - Z.b2z (P x) + Z.b2z (P y).
Proof.
  revert k. induction l as [|z l IH]; intros [|k] H; simplify_eq/=; [lia|].
  rewrite (IH k) by done. lia.
Qed.

Lemma count_delete P l k x :
  l !! k = Some x → count P (delete k l) = count P l - Z.b2z (P x).
Proof.
  revert k. induction l as [|z l IH]; intros [|k] H; simplify_eq/=; [lia|].
  rewrite (IH k) by done. lia.
Qed.

Lemma count_zero P l : (∀ x, x ∈ l → P x = false) → count P l = 0.
Proof.
  induction l as [|x l IH]; intros H; simpl; [done|].
  rewrite H by left. rewrite IH; [done|]. intros y Hy. apply H. by right.
Qed.

Lemma count_replicate P n x : count P (replicate n x) = Z.of_nat n * Z.b2z (P x).
Proof. induction n as [|n IH]; simpl replicate; simpl count; [lia|]. rewrite IH. lia. Qed.

End Count.

Lemma count_fmap {A B} (f : A → B) (P : B → bool) (l : list A) :
  count P (f <$> l) = count (P ∘ f) l.
Proof. induction l as [|x l IH]; [done|]. rewrite fmap_cons. simpl. by rewrite IH. Qed.

(** ** Lemmas on [int] arithmetic *)

Lemma wrap_id z : GoInt.is_int z → GoInt.wrap z = z.
Proof.
  unfold GoInt.is_int, GoInt.min_int, GoInt.max_int, GoInt.wrap. intros H.
  rewrite Z.mod_small; lia.
Qed.

Lemma wrap_is_int z : GoInt.is_int (GoInt.wrap z).
Proof.
  unfold GoInt.is_int, GoInt.min_int, GoInt.max_int, GoInt.wrap.
  pose proof (Z.mod_pos_bound (z + 2 ^ 63) (2 ^ 64)). lia.
Qed.

Lemma wrap_wrap_sub z d : GoInt.wrap (GoInt.wrap z - d) = GoInt.wrap (z - d).
Proof.
  unfold GoInt.wrap.
  replace ((z + 2 ^ 63) mod 2 ^ 64 - 2 ^ 63 - d + 2 ^ 63)
    with ((z + 2 ^ 63) mod 2 ^ 64 - d) by lia.
  rewrite Zminus_mod_idemp_l. f_equal. f_equal. lia.
Qed.

Lemma wrap_zero z : GoInt.wrap z = 0 → z mod 2 ^ 64 = 0.
Proof.
  unfold GoInt.wrap. intros H.
  assert ((z + 2 ^ 63) mod 2 ^ 64 = 2 ^ 63) as H1 by lia.
  rewrite <- (Z.mod_small (2 ^ 63) (2 ^ 64)) in H1 at 2 by lia.
  replace z with ((z + 2 ^ 63) - 2 ^ 63) by lia.
  rewrite Zminus_mod, H1, Z.sub_diag. done.
Qed.

(** Below zero, and less than 2^64 below, a value does not wrap to zero. *)
Lemma wrap_nonzero z : - 2 ^ 64 < z < 0 → GoInt.wrap z ≠ 0.
Proof.
  intros Hz H%wrap_zero.
  apply Z.mod_divide in H; [|lia]. destruct H as [q Hq]. lia.
Qed.

(** ** Reachable states *)

Lemma run_app sim ls1 ls2 s :
  run sim (ls1 ++ ls2) s = run sim ls1 s ≫= run sim ls2.
Proof.
  revert s. induction ls1 as [|l ls1 IH]; intros s; simpl; [done|].
  destruct (step sim l s); simpl; [apply IH|done].
Qed.

Lemma reachable_init sim : reachable sim (init sim).
Proof. by exists []. Qed.

Lemma reachable_step sim l s s' :
  reachable sim s → step sim l s = Some s' → reachable sim s'.
Proof.
  intros [ls Hls] Hs. exists (ls ++ [l]).
  rewrite run_app, Hls. simpl. by rewrite Hs.
Qed.

Lemma reachable_run sim ls s s' :
  reachable sim s → run sim ls s = Some s' → reachable sim s'.
Proof.
  revert s. induction ls as [|l ls IH]; intros s Hr H; simpl in H; [by simplify_eq|].
  destruct (step sim l s) as [s1|] eqn:Hs; [|done].
  eapply IH; [|done]. by eapply reachable_step.
Qed.

(** Induction over the transitions taken from [init]. *)
Lemma reachable_ind sim (P : State → Prop) :
  P (init sim) →
  (∀ l s s', reachable sim s → P s → Step sim s l s' → P s') →
  ∀ s, reachable sim s → P s.
Proof.
  intros Hinit Hstep s [ls Hls]. revert s Hls.
  induction ls as [|l ls IH] using rev_ind; intros s Hls.
  - simpl in Hls. by simplify_eq.
  - rewrite run_app in Hls.
    destruct (run sim ls (init sim)) as [s1|] eqn:H1; simpl in Hls; [|done].
    destruct (step sim l s1) as [s2|] eqn:H2; simplify_eq.
    eapply Hstep; [by exists ls|by apply IH|by apply step_Step].
Qed.

(** The wait group counts the actors that have not returned, and there is
    one actor per node. *)
Lemma inv_shape sim s :
  reachable sim s →
  length (actors s) = nodeCount sim ∧ wg s = count running (actors s).
Proof.
  induction 1 as [|l s s' Hr [IHl IHw] HS] using reachable_ind.
  - simpl. rewrite length_replicate, count_replicate. simpl. lia.
  - destruct HS; simpl; rewrite ?length_insert; (split; [done|]);
      try done;
      try (erewrite count_insert by eassumption; simpl; lia).
Qed.

Lemma actor_at_insert l i a f :
  (i < length l)%nat →
  actor_at (<[i := a]> l) f = if bool_decide (f = Z.of_nat i) then Some a else actor_at l f.
Proof.
  intros Hi. unfold actor_at. repeat case_bool_decide; try lia.
  - subst f. rewrite Nat2Z.id. by apply list_lookup_insert_eq.
  - apply list_lookup_insert_ne. lia.
  - done.
Qed.

Lemma actor_at_of_nat l i : actor_at l (Z.of_nat i) = l !! i.
Proof. unfold actor_at. rewrite bool_decide_eq_true_2 by lia. by rewrite Nat2Z.id. Qed.

Lemma valid_idx_to_nat sim f :
  valid_idx sim f = true → Z.of_nat (Z.to_nat f) = f ∧ (Z.to_nat f < nodeCount sim)%nat.
Proof. unfold valid_idx. intros H%bool_decide_eq_true. lia. Qed.

Lemma dedup_invariant sim s : reachable sim s → inv_dedup s.
Proof.
  induction 1 as [|l s s' Hr IH HS] using reachable_ind.
  - intros f c. unfold relays, actor_at. simpl. case_bool_decide; simpl; [|lia].
    destruct (replicate _ _ !! _) as [a|] eqn:Ha; [|simpl; lia].
    apply lookup_replicate in Ha as [-> _]. simpl. lia.
  - pose proof (inv_shape _ _ Hr) as [Hlen _].
    destruct HS; intros f c; specialize (IH f c); simpl in *; unfold relays in *;
      rewrite ?count_app; simpl.
    all: rewrite ?Z.add_0_r; try exact IH.
    all: rewrite actor_at_insert by (by eapply lookup_lt_Some).
    all: match goal with
         | |- context [bool_decide (?f = Z.of_nat ?i)] =>
             destruct (decide (f = Z.of_nat i)) as [->|Hf];
             [rewrite (bool_decide_eq_true_2 (_ = Z.of_nat i)) by done;
              rewrite actor_at_of_nat in IH
             |rewrite (bool_decide_eq_false_2 (_ = Z.of_nat i)) by done]
         end.
    all: try (rewrite ?bool_decide_eq_false_2 by (intros [??]; congruence);
              simpl; rewrite ?Z.add_0_r; exact IH).
    all: match goal with H : actors _ !! _ = Some _ |- _ => rewrite H in IH end;
         simpl in IH |- *.
    all: destruct IH as [IH1 IH2];
         match goal with |- context [count ?P ?h] => pose proof (count_nonneg P h) end.
    all: repeat case_bool_decide; simplify_eq/=; rewrite ?lookup_insert_eq; simpl;
         try (split; [lia|intros Hn; try done; try (apply IH2; lia); try (by specialize (IH2 Hn))]).
    + destruct (decide (0 < count (is_relay (Z.of_nat (Z.to_nat (sto sd))) (Content (smsg sd)))
                          (history s))) as [Hpos|Hnpos].
      * rewrite IH2 in H4 by lia. done.
      * split; [lia|done].
    + rewrite lookup_insert_ne by done. apply IH2. lia.
    + by destruct H4.
Qed.

(** ** Messages, hops and ttl *)

Lemma elem_insert_inv {A} (l : list A) k x y : y ∈ <[k := x]> l → y = x ∨ y ∈ l.
Proof.
  intros [j Hj]%list_elem_of_lookup.
  apply list_lookup_insert_Some in Hj as [(-> & -> & _)|[_ Hj]]; [by left|].
  right. by eapply list_elem_of_lookup_2.
Qed.

Lemma elem_delete_inv {A} (l : list A) k y : y ∈ delete k l → y ∈ l.
Proof.
  revert k. induction l as [|x l IH]; intros [|k]; simpl; try done.
  - intros H. by right.
  - intros [->|H]%elem_of_cons; [by left|]. right. by eapply IH.
Qed.

Lemma accepts_app h evs : accepts (h ++ evs) = accepts h + accepts evs.
Proof. apply count_app. Qed.

Lemma accepts_nonneg h : 0 ≤ accepts h.
Proof. apply count_nonneg. Qed.

Lemma called_app h evs ttl : called h ttl → called (h ++ evs) ttl.
Proof. intros [st H]. exists st. apply elem_of_app. by left. Qed.

Lemma msg_ok_mono h evs m g : msg_ok h m g → msg_ok (h ++ evs) m g.
Proof.
  intros (? & ? & ? & ? & ? & ?). pose proof (accepts_nonneg evs).
  split_and!; rewrite ?accepts_app; try done; try lia; by apply called_app.
Qed.

Lemma fwd_ok_mono h evs m g : fwd_ok h m g → fwd_ok (h ++ evs) m g.
Proof.
  intros (? & ? & ? & ? & ? & ? & ?). pose proof (accepts_nonneg evs).
  split_and!; rewrite ?accepts_app; try done; try lia; by apply called_app.
Qed.

Lemma entry_ok_mono h evs g : entry_ok h g → entry_ok (h ++ evs) g.
Proof.
  intros (? & ? & ?). pose proof (accepts_nonneg evs).
  split_and!; rewrite ?accepts_app; try done; try lia; by apply called_app.
Qed.

Lemma msg_ok_entry h m g : msg_ok h m g → entry_ok h g.
Proof. intros (? & ? & ? & ? & ? & ?). done. Qed.

(** A received message that goes on: the hop tag of the forward. *)
Lemma msg_ok_received h evs m g :
  msg_ok h m g → GoInt.dec (TTL m) ≠ 0 → 1 ≤ accepts evs →
  fwd_ok (h ++ evs) {| Content := Content m; TTL := GoInt.dec (TTL m) |} g.
Proof.
  intros (Hc & Hi & Hcall & Hh & Ht & Hb) Hnz Hev.
  assert (GoInt.dec (TTL m) = GoInt.wrap (ttl0 g - hop g)) as Hdec.
  { unfold GoInt.dec. rewrite Ht, wrap_wrap_sub. f_equal. lia. }
  split_and!; simpl; try done; try lia.
  - by apply called_app.
  - rewrite accepts_app. lia.
  - intros H1. specialize (Hb H1).
    destruct (decide (hop g = ttl0 g)) as [Heq|]; [|lia].
    rewrite Hdec, Heq, Z.sub_diag in Hnz. done.
Qed.

Lemma hop_seed start ttl : hop (seed_tag start ttl) = 1.
Proof. done. Qed.

Lemma hop_relay i g : hop (relay_tag i g) = hop g + 1.
Proof. unfold hop, relay_tag. simpl. rewrite length_app. simpl. lia. Qed.

Lemma fwd_ok_relayed h m g i :
  fwd_ok h m g → msg_ok h m (relay_tag i g).
Proof.
  intros (Hc & Hi & Hcall & Hh & Ht & Hnz & Hb).
  unfold msg_ok. rewrite hop_relay. simpl.
  split_and!; try done; try lia.
  rewrite Ht. f_equal. lia.
Qed.

Lemma msg_ok_seed h start m :
  Content m = "dummy" → GoInt.is_int (TTL m) → called h (TTL m) →
  msg_ok h m (seed_tag start (TTL m)).
Proof.
  intros Hc Hi Hcall. pose proof (accepts_nonneg h).
  unfold msg_ok. rewrite hop_seed. simpl.
  split_and!; try done; try lia.
  rewrite wrap_id; [lia|]. by replace (TTL m - (1 - 1)) with (TTL m) by lia.
Qed.

Lemma accepts_one h e : accepts (h ++ [e]) = accepts h + Z.b2z (is_accept e).
Proof. rewrite accepts_app. unfold accepts at 2. simpl. lia. Qed.

Lemma tags_invariant sim s : reachable sim s → inv_tags s.
Proof.
  induction 1 as [|l s s' Hr IH HS] using reachable_ind.
  - unfold inv_tags; simpl. split_and!.
    + constructor.
    + unfold accepts; simpl. apply count_nonneg.
    + intros sd H. by apply elem_of_nil in H.
    + intros ????? H%elem_of_replicate_inv. done.
    + done.
    + intros e g H. by apply elem_of_nil in H.
  - destruct IH as (Hc & Ha & Hs & Hf & Hm & He).
    pose proof (inv_shape _ _ Hr) as [Hlen _].
    assert (∀ k sd, senders s !! k = Some sd → msg_ok (history s) (smsg sd) (stag sd))
      as Hsk by (intros; eapply Hs, list_elem_of_lookup_2; eassumption).
    assert (∀ i t ca m g w, actors s !! i = Some (AForward t ca m g w) →
              fwd_ok (history s) m g)
      as Hfk by (intros; eapply Hf, list_elem_of_lookup_2; eassumption).
    unfold inv_tags, collected in *.
    destruct HS; simpl;
      repeat match goal with
             | H : senders _ !! _ = Some _ |- _ => apply Hsk in H as ?Hsd; clear Hsk
             | H : actors _ !! _ = Some (AForward _ _ _ _ _) |- _ =>
                 pose proof (Hfk _ _ _ _ _ _ H) as ?Hfw; clear Hfk
             | H : main _ = MSleep _ _ _ |- _ =>
                 pose proof (Hm _ _ _ H) as (?Hmc & ?Hmi & ?Hmcall); clear Hm
             end;
      split_and!; try done.
    all: try (intros sd' Hsd'; apply msg_ok_mono; by apply Hs).
    all: try (intros e' g' Hg'; apply entry_ok_mono; by eapply He).
    all: try (intros t' ca' m' g' w' Hin; apply fwd_ok_mono; by eapply Hf).
    all: try (intros e' g' Hg'; by apply elem_of_nil in Hg').
    all: try (intros t' ca' m' g' w' [?|Hin]%elem_insert_inv;
              [simplify_eq|apply fwd_ok_mono || idtac; by eapply Hf]).
    all: try (intros sd' [->|Hin]%elem_insert_inv; simpl;
              apply msg_ok_mono || idtac; [done|by apply Hs]).
    all: try (apply Forall_app; split; [done|]; repeat constructor; simpl;
              by match goal with H : msg_ok _ _ _ |- _ => destruct H
                               | H : fwd_ok _ _ _ |- _ => destruct H
                               | _ => idtac end).
    all: try (intros st' m' w' Hmain; destruct (Hm _ _ _ Hmain) as (?&?&?);
              split_and!; [done|done|by apply called_app]).
    all: try (intros sd' Hin%elem_delete_inv; by apply Hs).
    all: try match goal with H : main _ = _ |- _ => rewrite H in He end.
    all: try (intros e' g' [Hg'|Hg'%list_elem_of_singleton]%elem_of_app;
              [by eapply He|simplify_eq; by eapply msg_ok_entry]).
    all: try (apply msg_ok_received; [done|done|by unfold accepts]).
    all: try (intros sd' [Hin|Hin]%elem_of_app; [apply msg_ok_mono; by apply Hs|];
              unfold propagateMessage in Hin;
              apply list_elem_of_fmap in Hin as (to & -> & _); simpl;
              apply msg_ok_mono).
    all: try by apply fwd_ok_relayed.
    all: rewrite ?accepts_one; simpl; rewrite ?Z.add_0_r; try done.
    all: try (erewrite count_insert by eassumption; simpl).
    + rewrite lookup_empty. simpl. lia.
    + intros st' m' w' Hmain. simplify_eq. simpl. split_and!; [done..|].
      eexists. apply elem_of_app. right. by left.
    + by apply msg_ok_seed.
    + lia.
    + rewrite accepts_app. unfold accepts at 2. simpl.
      destruct Hsd as [Hcont _]. rewrite Hcont in *.
      match goal with H : default false _ = false |- _ => rewrite H end. simpl. lia.
    + destruct Hsd as [Hcont _]. rewrite Hcont in *.
      match goal with H : default false _ = false |- _ => rewrite H end.
      rewrite lookup_insert_eq. simpl. lia.
    + lia.
    + destruct (default false (cache !! "dummy")); simpl; lia.
Qed.

(** ** Entries per link *)

Lemma entries_invariant sim s : reachable sim s → inv_entries s.
Proof.
  induction 1 as [|l s s' Hr IH HS] using reachable_ind.
  - intros sd e H. by apply elem_of_nil in H.
  - unfold inv_entries in *. destruct HS; simpl; try done.
    all: try (intros sd' e' [Hin|Hin]%elem_of_app;
              [by apply IH|];
              apply list_elem_of_fmap in Hin as (to & -> & _); done).
    all: try (intros sd' e' [->|Hin]%elem_insert_inv; [|by apply IH]; simpl;
              intros; by simplify_eq).
    intros sd' e' Hin%elem_delete_inv. by apply IH.
Qed.

Lemma count_on_link_spawn sim from m g f t :
  count (on_link f t) (propagateMessage sim from m g)
  = if bool_decide (from = f) then mult t (peers_of sim from) else 0.
Proof.
  unfold propagateMessage, mult. rewrite count_fmap.
  case_bool_decide as Hf.
  - apply count_ext. intros p _. unfold on_link. simpl.
    apply bool_decide_ext. tauto.
  - apply count_zero. intros p _. unfold on_link. simpl.
    apply bool_decide_eq_false_2. tauto.
Qed.

Lemma fanouts_one h e f : fanouts (h ++ [e]) f = fanouts h f + Z.b2z (is_fanout f e).
Proof. unfold fanouts. rewrite count_app. simpl. lia. Qed.

Lemma fanouts_app h evs f : fanouts (h ++ evs) f = fanouts h f + fanouts evs f.
Proof. apply count_app. Qed.

Lemma mult_nonneg t l : 0 ≤ mult t l.
Proof. apply count_nonneg. Qed.

Lemma logged_nonneg f t ret : 0 ≤ logged f t ret.
Proof. apply count_nonneg. Qed.

Lemma on_link_phase f t p sd : on_link f t (with_phase p sd) = on_link f t sd.
Proof. done. Qed.

Lemma pairs_invariant sim s : reachable sim s → inv_pairs sim s.
Proof.
  induction 1 as [|l s s' Hr IH HS] using reachable_ind.
  - intros f t. unfold fanouts, logged. simpl. lia.
  - pose proof (entries_invariant _ _ Hr) as Hent.
    intros f t. specialize (IH f t).
    pose proof (mult_nonneg t (peers_of sim f)) as Hmult.
    pose proof (logged_nonneg f t (collected s)) as Hlog.
    unfold collected, fanouts in *.
    destruct HS; simpl;
      try match goal with H : main _ = _ |- _ => rewrite H in IH, Hlog end;
      rewrite ?count_app; simpl; rewrite ?Z.add_0_r; try done.
    all: try (erewrite count_insert by eassumption; rewrite on_link_phase; lia).
    all: try (rewrite count_on_link_spawn; case_bool_decide; subst; simpl;
              rewrite ?Z.mul_add_distr_l, ?Z.mul_1_r, ?Z.mul_0_r;
              unfold logged in *; simpl in *; lia).
    + lia.
    + erewrite count_delete by eassumption.
      unfold logged in *. rewrite count_app. simpl.
      destruct (Hent sd e) as [HF HT]; [by eapply list_elem_of_lookup_2|done|].
      unfold entry_on, on_link in *. rewrite HF, HT. lia.
Qed.

(** ** Consequences of the invariants *)

Lemma fanouts_split h f :
  Forall event_content_ok h → fanouts h f = seeds h f + relays h f "dummy".
Proof.
  unfold fanouts, seeds, relays.
  induction 1 as [|e h He _ IH]; simpl; [done|]. rewrite IH.
  destruct e as [| f' c [|] | | | |]; simpl in *; subst;
    repeat case_bool_decide; simpl; try lia; naive_solver.
Qed.

Lemma relays_bound sim s f c : reachable sim s → relays (history s) f c ≤ 1.
Proof.
  intros Hr. destruct (dedup_invariant _ _ Hr f c) as [H _].
  destruct (forwarding _ _); simpl in H; lia.
Qed.

(** An actor that has returned stays so. *)
Lemma exited_step sim l s s' i :
  Step sim s l s' → actors s !! i = Some AExited → actors s' !! i = Some AExited.
Proof.
  destruct 1; simpl; try done; intros Hi.
  all: match goal with
       | |- <[?j := _]> _ !! _ = _ =>
           destruct (decide (j = i)) as [Heq|];
           [rewrite <- Heq in Hi; congruence|by rewrite list_lookup_insert_ne]
       end.
Qed.

Lemma exited_run sim ls s s' i :
  run sim ls s = Some s' → actors s !! i = Some AExited → actors s' !! i = Some AExited.
Proof.
  revert s. induction ls as [|l ls IH]; intros s H Hi; simpl in H; [by simplify_eq|].
  destruct (step sim l s) as [s1|] eqn:Hs; [|done].
  eapply IH; [done|]. eapply exited_step; [by apply step_Step|done].
Qed.

(** The cache count of [tags_invariant] is bounded by the number of nodes,
    strictly when some actor has not yet the key. *)
Lemma cached_count_lt c (l : list Actor) i a :
  l !! i = Some a → cached c a = false → count (cached c) l < Z.of_nat (length l).
Proof.
  revert i. induction l as [|x l IH]; intros [|i] H Hc; simplify_eq/=.
  - rewrite Hc. pose proof (count_le_length (cached c) l). simpl. lia.
  - specialize (IH _ H Hc). destruct (cached c x); simpl; lia.
Qed.

(** With a ttl that was not positive at the call, the decrement of a
    receipt that is not a duplicate never yields zero: the hop number is
    at most the number of nodes, which is below 2^63. *)
Lemma dec_nonzero sim s k sd t cache :
  Z.of_nat (nodeCount sim) < 2 ^ 63 →
  reachable sim s →
  senders s !! k = Some sd → ttl0 (stag sd) ≤ 0 →
  actors s !! Z.to_nat (sto sd) = Some (ASelect t cache) →
  default false (cache !! Content (smsg sd)) = false →
  GoInt.dec (TTL (smsg sd)) = GoInt.wrap (ttl0 (stag sd) - hop (stag sd)) ∧
  1 ≤ hop (stag sd) ≤ Z.of_nat (nodeCount sim) ∧
  GoInt.dec (TTL (smsg sd)) ≠ 0.
Proof.
  intros Hn Hr Hk Hneg Ha Hmiss.
  destruct (tags_invariant _ _ Hr) as (_ & Hacc & Hs & _).
  destruct (inv_shape _ _ Hr) as [Hlen _].
  destruct (Hs sd) as (Hc & Hi & _ & Hh & Ht & _); [by eapply list_elem_of_lookup_2|].
  rewrite Hc in Hmiss.
  pose proof (cached_count_lt "dummy" _ _ _ Ha Hmiss) as Hlt. rewrite Hlen in Hlt.
  assert (GoInt.dec (TTL (smsg sd)) = GoInt.wrap (ttl0 (stag sd) - hop (stag sd))) as Hdec.
  { unfold GoInt.dec. rewrite Ht, wrap_wrap_sub. f_equal. lia. }
  split_and!; [done|lia|lia|]. rewrite Hdec. apply wrap_nonzero.
  unfold GoInt.is_int, GoInt.min_int in Hi. lia.
Qed.

Lemma no_expire sim s :
  Z.of_nat (nodeCount sim) < 2 ^ 63 →
  reachable sim s →
  (∀ start ttl, EvCall start ttl ∈ history s → ttl ≤ 0) →
  count is_expire (history s) = 0.
Proof.
  intros Hn. induction 1 as [|l s s' Hr IH HS] using reachable_ind; [done|].
  destruct HS; simpl; try done; intros Hcalls;
    rewrite ?count_app; simpl;
    try (rewrite IH; [done|]; intros st tt Hin; apply (Hcalls st tt), elem_of_app; by left).
  exfalso.
  destruct (tags_invariant _ _ Hr) as (_ & _ & Hs & _).
  destruct (Hs sd) as (_ & _ & [st Hcall] & _); [by eapply list_elem_of_lookup_2|].
  eapply dec_nonzero; try done.
  apply (Hcalls st). apply elem_of_app. by left.
Qed.

(** ** The first round with ttl 1 *)

Lemma calls_app h1 h2 : calls (h1 ++ h2) = calls h1 ++ calls h2.
Proof.
  induction h1 as [|e h1 IH]; simpl; [done|].
  destruct e; simpl; by rewrite ?IH.
Qed.

Lemma elem_of_calls h start ttl : EvCall start ttl ∈ h → (start, ttl) ∈ calls h.
Proof.
  induction h as [|e h IH]; [by intros ?%elem_of_nil|].
  intros [<-|Hin]%elem_of_cons; simpl; [by left|].
  destruct e; try by apply IH. right. by apply IH.
Qed.

Lemma called_calls h ttl : called h ttl → ∃ start, (start, ttl) ∈ calls h.
Proof. intros [start H]. exists start. by apply elem_of_calls. Qed.

Lemma first_invariant sim start s : reachable sim s → inv_first sim start s.
Proof.
  induction 1 as [|l s s' Hr [IH0 IH1] HS] using reachable_ind.
  - split; [done|]. simpl. done.
  - pose proof (entries_invariant _ _ Hr) as Hent.
    destruct (tags_invariant _ _ Hr) as (_ & _ & Hs & Hf & _).
    unfold inv_first, collected in *.
    destruct HS; simpl; rewrite ?calls_app; simpl; rewrite ?app_nil_r;
      try (by split).
    all: try (split;
      [intros Hc; destruct (IH0 Hc) as [_ Hnil]; by rewrite Hnil in *
      |intros Hc; destruct (IH1 Hc) as (Ha & Hb & Hm); split_and!;
       [intros sd' [->|Hin]%elem_insert_inv;
        [simpl; apply Ha; by eapply list_elem_of_lookup_2|by apply Ha]
       |done
       |rewrite length_insert; destruct (main s); try done;
        destruct Hm as [? Hnil]; by rewrite Hnil in *]]).
    + (* SendMessage is called *)
      split; [by intros [_ ?]%app_nil|].
      intros [[Hc ?]|[? ?]]%app_singleton; simplify_eq.
      destruct (IH0 Hc) as [_ Hnil]. rewrite Hnil.
      split_and!; try done; by intros ? ?%elem_of_nil.
    + (* the seed fan-out *)
      split; [intros Hc; destruct (IH0 Hc); congruence|].
      intros Hc. destruct (IH1 Hc) as (_ & _ & Hm). rewrite H0 in Hm.
      destruct Hm as [-> ->]. simpl. split_and!.
      * intros sd (to & -> & _)%list_elem_of_fmap. done.
      * by intros ? ?%elem_of_nil.
      * unfold propagateMessage. by rewrite length_fmap.
    + (* a relay: excluded, the forwarded message would be on a hop below 1 *)
      destruct (Hf t cache m g wake) as (_ & _ & Hcall & Hh & _ & _ & Hb);
        [by eapply list_elem_of_lookup_2|].
      apply called_calls in Hcall as [st Hin].
      split; intros Hc; exfalso; rewrite Hc in Hin.
      * by apply elem_of_nil in Hin.
      * apply list_elem_of_singleton in Hin. simplify_eq. lia.
    + (* an entry is collected *)
      split; [intros Hc; destruct (IH0 Hc); congruence|].
      intros Hc. destruct (IH1 Hc) as (Ha & Hb & Hm). rewrite H2 in Hb, Hm.
      assert (sd ∈ senders s) as Hsd by (by eapply list_elem_of_lookup_2).
      split_and!.
      * intros sd' Hin%elem_delete_inv. by apply Ha.
      * intros r [Hin|Hin%list_elem_of_singleton]%elem_of_app; [by apply Hb|].
        subst r. simpl. destruct (Hent sd e Hsd H1) as [-> _]. by apply Ha.
      * rewrite length_app, length_delete by done. simpl.
        apply lookup_lt_Some in H0. lia.
    + (* the select loop returns *)
      split; [intros Hc; destruct (IH0 Hc); congruence|].
      intros Hc. destruct (IH1 Hc) as (Ha & Hb & Hm). by rewrite H0 in Hb, Hm.
Qed.

(** ** Routes are forwarding chains *)

Lemma links_of_snoc r b x y :
  (x, y) ∈ links_of (r ++ [b]) → (x, y) ∈ links_of r ∨ (last r = Some x ∧ y = b).
Proof.
  induction r as [|a [|a' r] IH]; simpl.
  - by intros ?%elem_of_nil.
  - intros [?|?%elem_of_nil]%elem_of_cons; [|done]. simplify_eq. by right.
  - intros [?|Hin]%elem_of_cons; [simplify_eq; left; by left|].
    destruct (IH Hin) as [?|[? ?]]; [left; by right|by right].
Qed.

Lemma links_of_length r b : r ≠ [] → length (links_of (r ++ [b])) = length r.
Proof.
  induction r as [|a [|a' r] IH]; simpl; [done|done|].
  intros _. f_equal. by apply IH.
Qed.

Lemma head_snoc_Some (r : list Z) b x : head r = Some x → head (r ++ [b]) = Some x.
Proof. by destruct r. Qed.

Lemma chain_ok_mono sim h evs chain :
  chain_ok sim h chain → chain_ok sim (h ++ evs) chain.
Proof.
  intros H a b Hin. destruct (H a b Hin) as [Hp Hc]. split; [done|].
  rewrite count_app. pose proof (count_nonneg (is_recv a b) evs). lia.
Qed.

Lemma chain_ok_snoc sim h r a b :
  chain_ok sim h r → last r = Some a → b ∈ peers_of sim a →
  0 < count (is_recv a b) h → chain_ok sim h (r ++ [b]).
Proof.
  intros Hr Hl Hp Hc x y [Hin|[Hx ->]]%links_of_snoc; [by apply Hr|].
  by simplify_eq.
Qed.

Lemma seeded_mono h evs g : seeded h g → seeded (h ++ evs) g.
Proof. intros (st & Hh & Hc). exists st. split; [done|]. apply elem_of_app. by left. Qed.

Lemma seeded_relay h i g : seeded h g → seeded h (relay_tag i g).
Proof.
  intros (st & Hh & Hc). exists st. split; [|done]. simpl.
  destruct (route g); simplify_eq/=. done.
Qed.

Lemma count_recv_one h f t c d :
  0 < count (is_recv f t) (h ++ [EvRecv f t c d]).
Proof.
  rewrite count_app. simpl. rewrite bool_decide_eq_true_2 by done.
  pose proof (count_nonneg (is_recv f t) h). simpl. lia.
Qed.

Lemma count_recv_mono h evs f t :
  0 < count (is_recv f t) h → 0 < count (is_recv f t) (h ++ evs).
Proof. rewrite count_app. pose proof (count_nonneg (is_recv f t) evs). lia. Qed.

Lemma sender_route_mono sim h evs sd :
  sender_route sim h sd → sender_route sim (h ++ evs) sd.
Proof.
  intros (? & ? & ? & ? & Hp). split_and!; try done.
  - by apply seeded_mono.
  - by apply chain_ok_mono.
  - intros Hph. by apply count_recv_mono, Hp.
Qed.

Lemma actor_route_mono sim h evs i g :
  actor_route sim h i g → actor_route sim (h ++ evs) i g.
Proof. intros [? ?]. split; [by apply seeded_mono|by apply chain_ok_mono]. Qed.

Lemma entry_route_mono sim h evs e g :
  entry_route sim h e g → entry_route sim (h ++ evs) e g.
Proof.
  intros (? & ? & ?). split_and!; [by apply seeded_mono|done|by apply chain_ok_mono].
Qed.

(** The handoff: the sender has handed over, whatever its next phase. *)
Lemma sender_route_handoff sim h sd c d p :
  sender_route sim h sd →
  sender_route sim (h ++ [EvRecv (sfrom sd) (sto sd) c d]) (with_phase p sd).
Proof.
  intros (? & ? & ? & ? & Hp). split_and!; simpl; try done.
  - by apply seeded_mono.
  - by apply chain_ok_mono.
  - intros _. apply count_recv_one.
Qed.

Lemma sender_route_phase sim h sd p :
  sphase sd ≠ PSend → sender_route sim h sd → sender_route sim h (with_phase p sd).
Proof. intros Hph (? & ? & ? & ? & Hp). split_and!; simpl; try done. intros _. by apply Hp. Qed.

Lemma sender_route_chain sim h sd :
  sphase sd ≠ PSend → sender_route sim h sd →
  chain_ok sim h (route (stag sd) ++ [sto sd]).
Proof. intros Hph (? & ? & ? & ? & Hp). eapply chain_ok_snoc; eauto. Qed.

Lemma route_invariant sim s : reachable sim s → inv_route sim s.
Proof.
  induction 1 as [|l s s' Hr IH HS] using reachable_ind.
  - split_and!; simpl; try done.
    + by intros sd ?%elem_of_nil.
    + intros i ????? H. by apply lookup_replicate in H as [? _].
    + by intros e g ?%elem_of_nil.
  - destruct IH as (Hm & Hs & Hf & He).
    pose proof (entries_invariant _ _ Hr) as Hent.
    assert (∀ k sd, senders s !! k = Some sd → sender_route sim (history s) sd) as Hsk
      by (intros; by eapply Hs, list_elem_of_lookup_2).
    unfold inv_route, collected in *.
    destruct HS; simpl;
      repeat match goal with
             | H : senders _ !! _ = Some _ |- _ => pose proof (Hsk _ _ H) as ?Hsd; clear Hsk
             end;
      split_and!; try done.
    all: try (intros st' m' w' Hmain; apply elem_of_app; left; by eapply Hm).
    all: try (intros sd' Hsd'; apply sender_route_mono; by apply Hs).
    all: try (intros e' g' Hg'; apply entry_route_mono; by eapply He).
    all: try (intros i' t' ca' m' g' w' Hi'; apply actor_route_mono; by eapply Hf).
    all: try (intros e' g' Hg'; by apply elem_of_nil in Hg').
    all: try (intros sd' Hin%elem_delete_inv; by apply Hs).
    all: try match goal with H : main _ = _ |- _ => rewrite H in He end.
    all: try (intros i' t' ca' m' g' w' Hi';
              apply list_lookup_insert_Some in Hi' as [(<- & Heq & _)|[_ Hi']];
              [simplify_eq|apply actor_route_mono || idtac; by eapply Hf]).
    all: try (intros sd' [->|Hin]%elem_insert_inv;
              [|apply sender_route_mono; by apply Hs]).
    + (* SendMessage is called *)
      intros st' m' w' Hmain. simplify_eq. simpl. apply elem_of_app. right. by left.
    + (* the seed fan-out *)
      intros sd' [Hin|(to & -> & Hto)%list_elem_of_fmap]%elem_of_app;
        [apply sender_route_mono; by apply Hs|].
      apply sender_route_mono. split_and!; simpl; try done.
      * exists start. split; [done|]. by eapply Hm.
      * by intros a b ?%elem_of_nil.
    + by apply sender_route_handoff.
    + replace (history s ++ [EvRecv (sfrom sd) (sto sd) (Content (smsg sd)) false;
                             EvExpire (sto sd)])
        with ((history s ++ [EvRecv (sfrom sd) (sto sd) (Content (smsg sd)) false])
              ++ [EvExpire (sto sd)]) by (by rewrite <- app_assoc).
      by apply sender_route_mono, sender_route_handoff.
    + by apply sender_route_handoff.
    + (* the actor that goes on to forward *)
      pose proof (sender_route_handoff sim (history s) sd (Content (smsg sd)) false PEntry Hsd)
        as Hsd'.
      split; [by destruct Hsd'|].
      apply valid_idx_to_nat in H2 as [-> _].
      by apply (sender_route_chain sim _ (with_phase PEntry sd)).
    + (* a relay *)
      destruct (Hf _ _ _ _ _ _ H0) as [Hseed Hchain].
      intros sd' [Hin|(to & -> & Hto)%list_elem_of_fmap]%elem_of_app;
        [apply sender_route_mono; by apply Hs|].
      apply sender_route_mono. split_and!; simpl; try done.
      * by apply seeded_relay.
      * apply last_snoc.
    + apply sender_route_mono. apply sender_route_phase; [|done]. congruence.
    + (* an entry is collected *)
      intros e' g' [Hg'|Hg'%list_elem_of_singleton]%elem_of_app; [by eapply He|].
      simplify_eq. destruct Hsd as (Hseed & Hlast & Hp & Hchain & Hh).
      destruct (Hent sd e) as [HF HT]; [by eapply list_elem_of_lookup_2|done|].
      split_and!; [done|by rewrite HF|]. rewrite HT.
      eapply chain_ok_snoc; eauto. apply Hh. congruence.
    + exact He.
Qed.

(** ** Handoffs and entries *)

Lemma count_awaiting_spawn sim from m g f t :
  count (awaiting f t) (propagateMessage sim from m g) = 0.
Proof.
  apply count_zero. intros sd (to & -> & _)%list_elem_of_fmap.
  unfold awaiting, in_phase_entry. simpl. by rewrite andb_false_r.
Qed.

Lemma handoff_invariant sim s : reachable sim s → inv_handoff s.
Proof.
  induction 1 as [|l s s' Hr IH HS] using reachable_ind; [done|].
  intros f t. specialize (IH f t).
  destruct HS; simpl; rewrite ?count_app, ?count_awaiting_spawn; simpl;
    rewrite ?Z.add_0_r; try done;
    try (erewrite count_insert by eassumption);
    try (erewrite count_delete by eassumption);
    unfold awaiting, in_phase_entry, entry_on, on_link in *; simpl;
    match goal with H : sphase _ = _ |- _ => rewrite H end; simpl;
    rewrite ?andb_false_r, ?andb_true_r; simpl; lia.
Qed.

Lemma exited_at_step sim l s s' t :
  Step sim s l s' → actor_at (actors s) t = Some AExited →
  actor_at (actors s') t = Some AExited.
Proof.
  unfold actor_at. case_bool_decide; [|done]. apply exited_step.
Qed.

(** A dead link stays dead, and its blocked goroutines stay. *)
Lemma dead_step sim l s s' f t :
  Step sim s l s' → link_dead f t s →
  link_dead f t s' ∧ count (on_link f t) (senders s) ≤ count (on_link f t) (senders s').
Proof.
  intros HS (Ha & Hs & He).
  pose proof (exited_at_step _ _ _ _ t HS Ha) as Ha'.
  assert (∀ k sd, senders s !! k = Some sd → on_link f t sd = true → sphase sd = PSend)
    as Hsk by (intros k sd Hk; by eapply Hs, list_elem_of_lookup_2).
  unfold link_dead. split_and!; [done|..].
  - destruct HS; simpl; try done.
    all: try (intros sd' [Hin|(to & -> & Hto)%list_elem_of_fmap]%elem_of_app;
              [by apply Hs|done]).
    all: try (intros sd' [->|Hin]%elem_insert_inv; [|by apply Hs]; simpl;
              rewrite on_link_phase; intros Hon).
    all: try (intros sd' Hin%elem_delete_inv; by apply Hs).
    all: try (apply (Hsk _ _ H0) in Hon; congruence).
    all: exfalso; apply bool_decide_eq_true in Hon as [_ Hon];
         apply valid_idx_to_nat in H2 as [H2 _];
         unfold actor_at in Ha; rewrite <- Hon, bool_decide_eq_true_2 in Ha by lia;
         congruence.
  - destruct HS; simpl; rewrite ?count_app; simpl; rewrite ?Z.add_0_r; try done.
    rewrite He. simpl.
    destruct (entry_on f t _) eqn:Hon; [|done]. exfalso.
    apply (Hsk _ _ H0) in Hon. congruence.
  - destruct HS; simpl; rewrite ?count_app; try lia.
    all: try (pose proof (count_nonneg (on_link f t) (propagateMessage sim start m
                (seed_tag start (TTL m)))); lia).
    all: try (pose proof (count_nonneg (on_link f t) (propagateMessage sim (Z.of_nat i) m
                (relay_tag (Z.of_nat i) g))); lia).
    all: try (erewrite count_insert by eassumption; rewrite on_link_phase; lia).
    erewrite count_delete by eassumption.
    destruct (on_link f t sd) eqn:Hon; simpl; [|lia].
    apply (Hsk _ _ H0) in Hon. congruence.
Qed.

Lemma dead_run sim ls s s' f t :
  run sim ls s = Some s' → link_dead f t s →
  link_dead f t s' ∧ count (on_link f t) (senders s) ≤ count (on_link f t) (senders s').
Proof.
  revert s. induction ls as [|l ls IH]; intros s H Hd; simpl in H.
  - simplify_eq. split; [done|lia].
  - destruct (step sim l s) as [s1|] eqn:Hs; [|done].
    destruct (dead_step _ _ _ _ f t (step_Step _ _ _ _ Hs) Hd) as [Hd1 Hc1].
    destruct (IH _ H Hd1) as [Hd' Hc']. split; [done|lia].
Qed.

(** The channel send of [sendMessage] completes against an actor in its
    select, whatever the actor then does with the message. *)
Lemma sendMessage_handoff sim s k sd t cache :
  panicked s = false → senders s !! k = Some sd → sphase sd = PSend →
  valid_idx sim (sto sd) = true →
  actors s !! Z.to_nat (sto sd) = Some (ASelect t cache) →
  ∃ s', step sim (LRecv k) s = Some s' ∧
        senders s' !! k = Some (with_phase PEntry sd) ∧
        count (is_recv (sfrom sd) (sto sd)) (history s')
        = count (is_recv (sfrom sd) (sto sd)) (history s) + 1.
Proof.
  intros Hp Hk Hph Hv Ha.
  assert (k < length (senders s))%nat as Hlt by (by eapply lookup_lt_Some).
  destruct (default false (cache !! Content (smsg sd))) eqn:Hc;
    [|destruct (decide (GoInt.dec (TTL (smsg sd)) = 0))];
    (eexists; split; [apply Step_step; by econstructor|]); simpl;
    (split; [by apply list_lookup_insert_eq|]);
    rewrite count_app; simpl; rewrite bool_decide_eq_true_2 by done; simpl; lia.
Qed.

(** After the handoff the goroutine makes its entry. *)
Lemma sendMessage_entry sim s k sd :
  panicked s = false → senders s !! k = Some sd → sphase sd = PEntry →
  let e := {| Ts := now s - simulationStart s; From := sfrom sd; To := sto sd |} in
  ∃ s', step sim (LEntry k) s = Some s' ∧
        senders s' !! k = Some (with_phase (PReport e) sd) ∧
        history s' = history s ++ [EvEntry e].
Proof.
  intros Hp Hk Hph e.
  eexists; split; [apply Step_step; by econstructor|]. simpl.
  split; [|done]. apply list_lookup_insert_eq. by eapply lookup_lt_Some.
Qed.

(** Against an actor that has returned the channel send never completes. *)
Lemma sendMessage_blocked sim s k sd :
  senders s !! k = Some sd → actors s !! Z.to_nat (sto sd) = Some AExited →
  step sim (LRecv k) s = None.
Proof.
  intros Hk Ha. unfold step. destruct (panicked s); [done|].
  rewrite Hk, Ha. by destruct (sphase sd), (valid_idx sim (sto sd)).
Qed.

(** ** The idle timer, the fan-out width, panics *)

Lemma timer_kept sim l s s' i t :
  Step sim s l s' → actors s !! i ≫= timer = Some t →
  actors s' !! i ≫= timer = Some t ∨ actors s' !! i = Some AExited.
Proof.
  destruct 1; simpl; intros Hi; try (by left).
  all: match goal with
       | |- context [<[?j := _]> _ !! _] =>
           destruct (decide (j = i)) as [Heq|];
           [rewrite <- Heq in Hi |- *;
            match goal with H : actors _ !! _ = Some _ |- _ =>
              rewrite H in Hi; simpl in Hi; apply lookup_lt_Some in H end;
            rewrite list_lookup_insert_eq by done; simpl; simplify_eq; auto
           |rewrite list_lookup_insert_ne by done; by left]
       end.
Qed.

Lemma clock_monotone sim l s s' : Step sim s l s' → now s ≤ now s'.
Proof. destruct 1; simpl; lia. Qed.

Lemma senders_valid sim s :
  no_dangling sim → reachable sim s → ∀ sd, sd ∈ senders s → valid_idx sim (sto sd) = true.
Proof.
  intros Hnd. induction 1 as [|l s s' Hr IH HS] using reachable_ind.
  - by intros sd ?%elem_of_nil.
  - destruct HS; simpl; try done.
    all: try (intros sd' [Hin|(to & -> & Hto)%list_elem_of_fmap]%elem_of_app;
              [by apply IH|]; simpl; by eapply Hnd).
    all: try (intros sd' [->|Hin]%elem_insert_inv; [|by apply IH]; simpl;
              apply IH; by eapply list_elem_of_lookup_2).
    intros sd' Hin%elem_delete_inv. by apply IH.
Qed.

Lemma never_panics sim s : no_dangling sim → reachable sim s → panicked s = false.
Proof.
  intros Hnd. induction 1 as [|l s s' Hr IH HS] using reachable_ind; [done|].
  pose proof (senders_valid _ _ Hnd Hr) as Hv.
  destruct HS; simpl; try done.
  exfalso. rewrite Hv in H2; [done|]. by eapply list_elem_of_lookup_2.
Qed.

(** ** The WhisperV6 loop never returns an empty log *)

Lemma whisper_body_events ncache start st c :
  (Whisper.hasEvents st = true → Whisper.plog st ≠ []) →
  Whisper.hasEvents (Whisper.body ncache start st c) = true →
  Whisper.plog (Whisper.body ncache start st c) ≠ [].
Proof.
  intros Hst. destruct c as [event| |e]; simpl; try done.
  destruct (_ && _); simpl; [|done].
  intros _ [_ ?]%app_nil. done.
Qed.

Lemma whisper_loop_events ncache start cs st st' :
  (Whisper.hasEvents st = true → Whisper.plog st ≠ []) →
  Whisper.loop ncache start st cs = Some st' →
  Whisper.hasEvents st' = true → Whisper.plog st' ≠ [].
Proof.
  revert st. induction cs as [|c cs IH]; intros st Hst; simpl.
  - destruct (_ && _); [done|]. intros ?; by simplify_eq.
  - destruct (_ && _); [|intros ?; by simplify_eq].
    apply IH. by apply whisper_body_events.
Qed.

Lemma whisper_never_empty ncache start cs es :
  Whisper.SendMessage ncache start cs = Some (Whisper.Returned es) → es ≠ [].
Proof.
  unfold Whisper.SendMessage.
  destruct (Whisper.loop ncache start Whisper.vars cs) as [st|] eqn:Hl; [|done].
  simpl. unfold Whisper.finish. intros [= H].
  destruct (Whisper.subErr st); [done|].
  destruct (Whisper.hasEvents st) eqn:Hev; simpl in H; [|done].
  simplify_eq. eapply whisper_loop_events; [|exact Hl|exact Hev]. done.
Qed.

Example whisper_no_events_fatal ncache start :
  Whisper.SendMessage ncache start [Whisper.OnTimer]
  = Some (Whisper.Fatal "[ERROR] Didn't get any events, something wrong with simulator.").
Proof. reflexivity. Qed.

(** ** Node hits and coverage *)

Lemma NodeIDByIdx_valid g j :
  0 ≤ j < Z.of_nat (length (Nodes g)) → is_Some (NodeIDByIdx g j).
Proof.
  intros Hj. unfold NodeIDByIdx. rewrite bool_decide_eq_true_2 by lia.
  apply lookup_lt_is_Some. lia.
Qed.

Lemma NodeIDByIdx_inj g i j id :
  NoDup (Nodes g) → NodeIDByIdx g i = Some id → NodeIDByIdx g j = Some id → i = j.
Proof.
  unfold NodeIDByIdx. intros Hnd. repeat case_bool_decide; try done.
  intros Hi Hj. pose proof (NoDup_lookup _ _ _ _ Hnd Hi Hj). lia.
Qed.

Lemma hits_app g m js1 js2 :
  Stats.hits g m (js1 ++ js2) = Stats.hits g m js1 ≫= λ m', Stats.hits g m' js2.
Proof.
  revert m. induction js1 as [|j js1 IH]; intros m; simpl; [done|].
  destruct (Stats.hit g m j); simpl; [apply IH|done].
Qed.

Lemma all_hits_concat g m rows : Stats.all_hits g m rows = Stats.hits g m (concat rows).
Proof.
  revert m. induction rows as [|r rows IH]; intros m; simpl; [done|].
  rewrite hits_app. destruct (Stats.hits g m r); simpl; [apply IH|done].
Qed.

Lemma hits_of_nonneg g id js : 0 ≤ Stats.hits_of g id js.
Proof. apply count_nonneg. Qed.

Lemma hits_spec g js : ∀ m,
  (∀ j, j ∈ js → 0 ≤ j < Z.of_nat (length (Nodes g))) →
  (∀ id, 0 ≤ default 0 (m !! id)) →
  (∀ id, default 0 (m !! id) + Stats.hits_of g id js ≤ GoInt.max_int) →
  (∀ id v, m !! id = Some v → 1 ≤ v) →
  ∃ m', Stats.hits g m js = Some m' ∧
    (∀ id, default 0 (m' !! id) = default 0 (m !! id) + Stats.hits_of g id js) ∧
    (∀ id v, m' !! id = Some v → 1 ≤ v) ∧
    (∀ id, is_Some (m' !! id) ↔
           is_Some (m !! id) ∨ ∃ j, j ∈ js ∧ NodeIDByIdx g j = Some id).
Proof.
  induction js as [|j js IH]; intros m Hv H0 Hmax H1.
  - exists m. split_and!; try done.
    + intros id. unfold Stats.hits_of. simpl. lia.
    + intros id. split; [by left|]. intros [?|(j & []%elem_of_nil & _)]. done.
  - destruct (NodeIDByIdx_valid g j) as [idj Hidj]; [apply Hv; by left|].
    simpl. unfold Stats.hit. rewrite Hidj.
    assert (GoInt.inc (default 0 (m !! idj)) = default 0 (m !! idj) + 1) as Hinc.
    { unfold GoInt.inc. apply wrap_id. specialize (Hmax idj). specialize (H0 idj).
      pose proof (hits_of_nonneg g idj js).
      unfold Stats.hits_of in *. simpl in Hmax. rewrite Hidj in Hmax.
      rewrite bool_decide_eq_true_2 in Hmax by done. simpl in Hmax.
      unfold GoInt.is_int, GoInt.min_int, GoInt.max_int in *. lia. }
    rewrite Hinc.
    assert (∀ id, default 0 (<[idj := default 0 (m !! idj) + 1]> m !! id)
                  = default 0 (m !! id) + Z.b2z (bool_decide (Some idj = Some id))) as Hm1.
    { intros id. destruct (decide (idj = id)) as [->|Hne].
      - rewrite lookup_insert_eq, bool_decide_eq_true_2 by done. simpl. lia.
      - rewrite lookup_insert_ne, bool_decide_eq_false_2 by congruence. simpl. lia. }
    destruct (IH (<[idj := default 0 (m !! idj) + 1]> m)) as (m' & Hm' & Hc & Hp & Hd).
    + intros j' Hj'. apply Hv. by right.
    + intros id. rewrite Hm1. specialize (H0 id). destruct (bool_decide _); simpl; lia.
    + intros id. rewrite Hm1. specialize (Hmax id).
      unfold Stats.hits_of in *. simpl in Hmax. rewrite Hidj in Hmax. lia.
    + intros id v. destruct (decide (idj = id)) as [->|Hne].
      * rewrite lookup_insert_eq. intros [= <-]. specialize (H0 id). lia.
      * rewrite lookup_insert_ne by done. apply H1.
    + exists m'. split_and!; try done.
      * intros id. rewrite Hc, Hm1. unfold Stats.hits_of. simpl. rewrite Hidj. lia.
      * intros id. rewrite Hd. split.
        -- intros [Hs|(j' & Hj' & Hid)].
           ++ destruct (decide (idj = id)) as [->|Hne].
              ** right. exists j. split; [by left|done].
              ** left. by rewrite lookup_insert_ne in Hs.
           ++ right. exists j'. split; [by right|done].
        -- intros [Hs|(j' & [->|Hj']%elem_of_cons & Hid)].
           ++ left. destruct (decide (idj = id)) as [->|Hne].
              ** rewrite lookup_insert_eq. eauto.
              ** by rewrite lookup_insert_ne.
           ++ left. simplify_eq. rewrite lookup_insert_eq. eauto.
           ++ right. eauto.
Qed.

Lemma hits_of_le_length g id js : Stats.hits_of g id js ≤ Z.of_nat (length js).
Proof. apply count_le_length. Qed.

Lemma size_ids_hit g js :
  NoDup (Nodes g) → (∀ j, j ∈ js → 0 ≤ j < Z.of_nat (length (Nodes g))) →
  size (ids_hit g js) = size (nodes_hit js).
Proof.
  intros Hnd. unfold ids_hit, nodes_hit.
  induction js as [|j js IH]; intros Hv; [done|].
  destruct (NodeIDByIdx_valid g j) as [idj Hidj]; [apply Hv; by left|].
  simpl. rewrite Hidj. simpl.
  assert (idj ∈ (list_to_set (omap (NodeIDByIdx g) js) : gset string)
          ↔ j ∈ (list_to_set js : gset Z)) as Hiff.
  { rewrite !elem_of_list_to_set, list_elem_of_omap. split.
    - intros (j' & Hj' & Hid). by rewrite (NodeIDByIdx_inj g j j' idj).
    - intros Hj. eauto. }
  specialize (IH (λ j' Hj', Hv j' (list_elem_of_further _ _ _ Hj'))).
  destruct (decide (j ∈ (list_to_set js : gset Z))) as [Hin|Hnin].
  - rewrite (subseteq_union_1_L {[idj]}) by (by apply singleton_subseteq_l, Hiff).
    rewrite (subseteq_union_1_L {[j]}) by (by apply singleton_subseteq_l).
    done.
  - rewrite (size_union {[idj]}) by (apply disjoint_singleton_l; by rewrite Hiff).
    rewrite (size_union {[j]}) by (by apply disjoint_singleton_l).
    rewrite !size_singleton. f_equal. exact IH.
Qed.

Lemma NodeIDByIdx_None g j :
  NodeIDByIdx g j = None ↔ ¬ (0 ≤ j < Z.of_nat (length (Nodes g))).
Proof.
  unfold NodeIDByIdx. case_bool_decide as Hj.
  - rewrite lookup_ge_None. lia.
  - split; [lia|done].
Qed.

Lemma hits_None g js : ∀ m,
  Stats.hits g m js = None ↔ ∃ j, j ∈ js ∧ NodeIDByIdx g j = None.
Proof.
  induction js as [|j js IH]; intros m; simpl.
  - split; [done|]. by intros (j & []%elem_of_nil & _).
  - unfold Stats.hit. destruct (NodeIDByIdx g j) as [id|] eqn:Hid.
    + rewrite IH. split.
      * intros (j' & Hin & Hn). exists j'. split; [by right|done].
      * intros (j' & [->|Hin]%elem_of_cons & Hn); [congruence|]. eauto.
    + split; [|done]. intros _. exists j. split; [by left|done].
Qed.

Lemma analyze_inv {Histogram : Type} (hist0 : Histogram)
    (Add : Histogram → Z → Histogram)
    (order : gmap string Z → list (string * Z)) g plog st :
  Stats.Analyze hist0 Add order g plog = Some st →
  Stats.hits g ∅ (Stats.receivers plog) = Some (Stats.NodeHits st) ∧
  Stats.NodeCoverage st = Stats.analyzeNodeCoverage g (Stats.NodeHits st) ∧
  Stats.LinkCoverage st = Stats.analyzeLinkCoverage g plog ∧
  Stats.Hist st = foldl (λ hist kv, Add hist kv.2) hist0 (order (Stats.NodeHits st)).
Proof.
  unfold Stats.Analyze, Stats.analyzeNodeHits. rewrite all_hits_concat.
  fold (Stats.receivers plog).
  destruct (Stats.hits g ∅ (Stats.receivers plog)) as [m|]; [|done].
  by intros [= <-].
Qed.

Lemma analyze_None {Histogram : Type} (hist0 : Histogram)
    (Add : Histogram → Z → Histogram)
    (order : gmap string Z → list (string * Z)) g plog :
  Stats.Analyze hist0 Add order g plog = None ↔ Stats.hits g ∅ (Stats.receivers plog) = None.
Proof.
  unfold Stats.Analyze, Stats.analyzeNodeHits. rewrite all_hits_concat.
  fold (Stats.receivers plog).
  by destruct (Stats.hits g ∅ (Stats.receivers plog)).
Qed.

(** ** The instrumentation is inert *)

Lemma erase_spawn sim from m g :
  erase_sender <$> propagateMessage sim from m g = propagateMessage sim from m no_tag.
Proof. unfold propagateMessage. rewrite <- list_fmap_compose. done. Qed.

Lemma erase_erase_sender (l : list Sender) :
  erase_sender <$> (erase_sender <$> l) = erase_sender <$> l.
Proof. rewrite <- list_fmap_compose. done. Qed.

Lemma erase_erase_actor (l : list Actor) :
  erase_actor <$> (erase_actor <$> l) = erase_actor <$> l.
Proof. rewrite <- list_fmap_compose. apply list_fmap_ext. by intros ? []. Qed.

Lemma erase_erase_entry (l : list (LogEntry * Tag)) :
  erase_entry <$> (erase_entry <$> l) = erase_entry <$> l.
Proof. rewrite <- list_fmap_compose. done. Qed.

(** A transition from a state without its instrumentation is the
    transition from the state itself, up to the instrumentation. *)
Lemma instrumentation_inert sim l s :
  erase <$> step sim l (erase s) = erase <$> step sim l s.
Proof.
  unfold step. simpl. destruct (panicked s); [done|].
  destruct l; simpl; rewrite ?list_lookup_fmap.
  - case_bool_decide; [|done]. simpl. unfold erase. simpl.
    by rewrite erase_erase_actor, erase_erase_sender; destruct (main s); simpl;
      rewrite ?erase_erase_entry.
  - destruct (actors s !! i) as [[]|]; simpl; try done.
    unfold erase. simpl.
    rewrite !list_fmap_insert, erase_erase_actor, erase_erase_sender.
    by destruct (main s); simpl; rewrite ?erase_erase_entry.
  - case_bool_decide; [|done].
    destruct (main s); simpl; try done; unfold erase; simpl;
      by rewrite erase_erase_actor, erase_erase_sender.
  - destruct (main s); simpl; try done. case_bool_decide; [|done].
    simpl. unfold erase. simpl.
    by rewrite !fmap_app, !erase_spawn, erase_erase_actor, erase_erase_sender.
  - destruct (senders s !! k) as [sd|]; simpl; [|done].
    destruct (sphase sd) eqn:Hph, (valid_idx sim (sto sd)); try done.
    rewrite list_lookup_fmap.
    destruct (actors s !! Z.to_nat (sto sd)) as [[]|]; simpl; try done.
    unfold runNode_receive. simpl.
    destruct (default false (cache !! Content (smsg sd))); simpl;
      [|case_bool_decide; simpl]; unfold erase; simpl;
      rewrite !list_fmap_insert, erase_erase_actor, erase_erase_sender;
      by destruct (main s); simpl; rewrite ?erase_erase_entry.
  - destruct (actors s !! i) as [[]|]; simpl; try done.
    case_bool_decide; [|done]. simpl. unfold erase. simpl.
    rewrite !fmap_app, !erase_spawn, !list_fmap_insert, erase_erase_actor,
      erase_erase_sender.
    by destruct (main s); simpl; rewrite ?erase_erase_entry.
  - destruct (actors s !! i) as [[]|]; simpl; try done.
    case_bool_decide; [|done]. simpl. unfold erase. simpl.
    rewrite !list_fmap_insert, erase_erase_actor, erase_erase_sender.
    by destruct (main s); simpl; rewrite ?erase_erase_entry.
  - destruct (senders s !! k) as [sd|]; simpl; [|done].
    destruct (sphase sd); try done. simpl. unfold erase. simpl.
    rewrite !list_fmap_insert, erase_erase_actor, erase_erase_sender.
    by destruct (main s); simpl; rewrite ?erase_erase_entry.
  - destruct (senders s !! k) as [sd|]; simpl; [|by destruct (main s)].
    destruct (main s); simpl; try done. destruct (sphase sd); try done.
    simpl. unfold erase. simpl.
    by rewrite !list_fmap_delete, !fmap_app, erase_erase_actor, erase_erase_sender,
      erase_erase_entry.
  - destruct (main s); simpl; try done. case_bool_decide; [|done].
    simpl. unfold erase. simpl.
    by rewrite erase_erase_actor, erase_erase_sender, erase_erase_entry.
  - destruct (senders s !! k) as [sd|]; simpl; [|done].
    destruct (sphase sd), (valid_idx sim (sto sd)); try done.
    simpl. unfold erase. simpl.
    rewrite erase_erase_actor, erase_erase_sender.
    by destruct (main s); simpl; rewrite ?erase_erase_entry.
Qed.

Lemma erase_returned s : returned (erase s) = returned s.
Proof.
  unfold returned. simpl. destruct (main s); simpl; try done.
  by rewrite <- list_fmap_compose.
Qed.

(** ** The claims *)

Example relay_state_log :
  returned <$> run pair_sim (relay_run ++ [LTick 10; LRelay 0; LRecv 0; LEntry 0; LReport 0;
                                           LTick idle_timeout; LTimeout 0; LTimeout 1;
                                           LDone]) (init pair_sim)
  = Some (Some [ {| Ts := 10; From := 0; To := 1 |}; {| Ts := 20; From := 1; To := 0 |};
                 {| Ts := 30; From := 0; To := 1 |} ]).
Proof. vm_compute. reflexivity. Qed.

Example relay_state_counts :
  relays (history relay_state) 1 "dummy" = 1 ∧ seeds (history relay_state) 0 = 1 ∧
  logged 1 0 (collected relay_state) = 1 ∧ mult 0 (peers_of pair_sim 1) = 1.
Proof. vm_compute. done. Qed.

(** The duplicate branch of [runNode]: the message is taken and nothing
    else changes. *)
Lemma runNode_drop sim s k sd t cache :
  panicked s = false → senders s !! k = Some sd → sphase sd = PSend →
  valid_idx sim (sto sd) = true →
  actors s !! Z.to_nat (sto sd) = Some (ASelect t cache) →
  default false (cache !! Content (smsg sd)) = true →
  ∃ s', step sim (LRecv k) s = Some s' ∧ actors s' = actors s ∧ wg s' = wg s ∧
        senders s' = <[k := with_phase PEntry sd]> (senders s) ∧
        ∀ f, fanouts (history s') f = fanouts (history s) f.
Proof.
  intros Hp Hk Hph Hv Ha Hc. eexists. split.
  - apply Step_step. by eapply SRecvDup.
  - simpl. split_and!; try done.
    + by apply list_insert_id.
    + intros f. rewrite fanouts_one. simpl. lia.
Qed.

(** C1. Dedup idempotence: in every state the engine can reach, and for
    every content key, a node has run the fan-out of [runNode] at most
    once, so that the entries collected on a link (f,t) are at most the
    multiplicity of t among the peers of f, times one more than the number
    of seeds that [SendMessage] has injected at f; a message whose key is
    already cached is taken from the channel and changes nothing else. *)
Theorem dedup_idempotence sim s :
  reachable sim s →
  (∀ f c, relays (history s) f c ≤ 1) ∧
  (∀ f t, logged f t (collected s)
          ≤ mult t (peers_of sim f) * (seeds (history s) f + 1)) ∧
  (∀ k sd t cache,
     panicked s = false → senders s !! k = Some sd → sphase sd = PSend →
     valid_idx sim (sto sd) = true →
     actors s !! Z.to_nat (sto sd) = Some (ASelect t cache) →
     default false (cache !! Content (smsg sd)) = true →
     ∃ s', step sim (LRecv k) s = Some s' ∧ actors s' = actors s ∧ wg s' = wg s ∧
           senders s' = <[k := with_phase PEntry sd]> (senders s) ∧
           ∀ f, fanouts (history s') f = fanouts (history s) f).
Proof.
  intros Hr. split_and!.
  - intros f c. by eapply relays_bound.
  - intros f t.
    pose proof (pairs_invariant _ _ Hr f t) as Hp.
    destruct (tags_invariant _ _ Hr) as (Hc & _).
    rewrite (fanouts_split _ _ Hc) in Hp.
    pose proof (relays_bound _ _ f "dummy" Hr) as Hrel.
    pose proof (mult_nonneg t (peers_of sim f)) as Hm.
    pose proof (count_nonneg (on_link f t) (senders s)) as Hs.
    etrans; [|apply Z.mul_le_mono_nonneg_l; [exact Hm|]].
    + etrans; [|exact Hp]. lia.
    + lia.
  - intros. by eapply runNode_drop.
Qed.

Lemma dedup_idempotence_witness :
  reachable pair_sim relay_state ∧
  relays (history relay_state) 1 "dummy" ≤ 1 ∧
  logged 1 0 (collected relay_state)
  ≤ mult 0 (peers_of pair_sim 1) * (seeds (history relay_state) 1 + 1).
Proof.
  assert (reachable pair_sim relay_state) as Hr
    by (exists relay_run; vm_compute; reflexivity).
  destruct (dedup_idempotence pair_sim relay_state Hr) as (H1 & H2 & _).
  split_and!; [exact Hr|apply H1|apply H2].
Defined.

(** The zero branch of [runNode]: the actor returns and no goroutine is
    started. *)
Lemma runNode_expire sim s k sd t cache :
  panicked s = false → senders s !! k = Some sd → sphase sd = PSend →
  valid_idx sim (sto sd) = true →
  actors s !! Z.to_nat (sto sd) = Some (ASelect t cache) →
  default false (cache !! Content (smsg sd)) = false →
  GoInt.dec (TTL (smsg sd)) = 0 →
  ∃ s', step sim (LRecv k) s = Some s' ∧
        actors s' !! Z.to_nat (sto sd) = Some AExited ∧ wg s' = wg s - 1 ∧
        senders s' = <[k := with_phase PEntry sd]> (senders s) ∧
        ∀ f, fanouts (history s') f = fanouts (history s) f.
Proof.
  intros Hp Hk Hph Hv Ha Hc Hz. eexists. split.
  - apply Step_step. by eapply SRecvExpire.
  - simpl. split_and!; try done.
    + apply list_lookup_insert_eq. by eapply lookup_lt_Some.
    + intros f. rewrite fanouts_app. unfold fanouts at 2. simpl. lia.
Qed.

(** C2. TTL bound: a message injected with ttl t >= 1 that is on its h-th
    hop carries ttl t - (h - 1), one decrement per receipt that was not a
    duplicate, and 1 <= h <= t. For a collected entry the route of its
    message with the target of the entry is the forwarding chain that ends
    in the entry: it starts at the start node of a call with ttl t, each of
    its links joins a node to a peer and has handed a message over, its
    last link is the entry, and it has h <= t links. An actor that
    decrements the ttl to zero returns and starts no further sender. *)
Theorem ttl_bound sim s :
  reachable sim s →
  (∀ sd, sd ∈ senders s → 1 ≤ ttl0 (stag sd) →
     1 ≤ hop (stag sd) ≤ ttl0 (stag sd) ∧
     TTL (smsg sd) = ttl0 (stag sd) - (hop (stag sd) - 1)) ∧
  (∀ t ca m g w, AForward t ca m g w ∈ actors s → 1 ≤ ttl0 g →
     1 ≤ hop g < ttl0 g ∧ TTL m = ttl0 g - hop g) ∧
  (∀ e g, (e, g) ∈ collected s →
     let chain := route g ++ [To e] in
     (∃ start, head chain = Some start ∧ EvCall start (ttl0 g) ∈ history s) ∧
     last (route g) = Some (From e) ∧
     (∀ a b, (a, b) ∈ links_of chain →
        b ∈ peers_of sim a ∧ 0 < count (is_recv a b) (history s)) ∧
     Z.of_nat (length (links_of chain)) = hop g ∧
     (1 ≤ ttl0 g → 1 ≤ Z.of_nat (length (links_of chain)) ≤ ttl0 g)) ∧
  (∀ k sd t cache,
     panicked s = false → senders s !! k = Some sd → sphase sd = PSend →
     valid_idx sim (sto sd) = true →
     actors s !! Z.to_nat (sto sd) = Some (ASelect t cache) →
     default false (cache !! Content (smsg sd)) = false →
     GoInt.dec (TTL (smsg sd)) = 0 →
     ∃ s', step sim (LRecv k) s = Some s' ∧
           actors s' !! Z.to_nat (sto sd) = Some AExited ∧ wg s' = wg s - 1 ∧
           senders s' = <[k := with_phase PEntry sd]> (senders s) ∧
           ∀ f, fanouts (history s') f = fanouts (history s) f).
Proof.
  intros Hr. destruct (tags_invariant _ _ Hr) as (_ & _ & Hs & Hf & _ & He).
  destruct (route_invariant _ _ Hr) as (_ & _ & _ & Hroute).
  split_and!.
  - intros sd Hsd H1. destruct (Hs _ Hsd) as (_ & Hi & _ & Hh & Ht & Hb).
    specialize (Hb H1). split; [lia|]. rewrite Ht. apply wrap_id.
    unfold GoInt.is_int, GoInt.min_int, GoInt.max_int in *. lia.
  - intros t ca m g w Hin H1. destruct (Hf _ _ _ _ _ Hin) as (_ & Hi & _ & Hh & Ht & _ & Hb).
    specialize (Hb H1). split; [lia|]. rewrite Ht. apply wrap_id.
    unfold GoInt.is_int, GoInt.min_int, GoInt.max_int in *. lia.
  - intros e g Hin chain.
    destruct (He _ _ Hin) as (_ & Hh & Hb).
    destruct (Hroute _ _ Hin) as ((start & Hhead & Hcall) & Hlast & Hchain).
    assert (Z.of_nat (length (links_of chain)) = hop g) as Hlen.
    { unfold chain, hop. rewrite links_of_length; [done|]. by destruct (route g). }
    split_and!; try done.
    + exists start. split; [by apply head_snoc_Some|done].
    + intros H1. specialize (Hb H1). lia.
  - intros. by eapply runNode_expire.
Qed.

Lemma ttl_bound_witness :
  reachable pair_sim relay_state ∧
  (∀ sd, sd ∈ senders relay_state → 1 ≤ ttl0 (stag sd) →
     1 ≤ hop (stag sd) ≤ ttl0 (stag sd) ∧
     TTL (smsg sd) = ttl0 (stag sd) - (hop (stag sd) - 1)) ∧
  (∀ t ca m g w, AForward t ca m g w ∈ actors relay_state → 1 ≤ ttl0 g →
     1 ≤ hop g < ttl0 g ∧ TTL m = ttl0 g - hop g).
Proof.
  assert (reachable pair_sim relay_state) as Hr
    by (exists relay_run; vm_compute; reflexivity).
  destruct (ttl_bound pair_sim relay_state Hr) as (H1 & H2 & _).
  split_and!; [exact Hr|exact H1|exact H2].
Defined.

Example relay_state_hops :
  (λ r, (From r.1, To r.1, route r.2, ttl0 r.2)) <$> collected relay_state
  = [(0, 1, [0], 3); (1, 0, [0; 1], 3)] ∧
  forwarded relay_state 0 = Some {| Content := "dummy"; TTL := 1 |}.
Proof. vm_compute. done. Qed.

(** C3. Fan-out policy: the spawn loop of [propagateMessage] starts one
    [sendMessage] goroutine per element of [s.peers[from]], the list that
    [NewSimulator] stored for the node (none for a missing key), in its
    order and with the message unchanged, at the seed fan-out and at every
    relay; the width [peersToSendTo] limits nothing: [NewSimulator] stores
    it and the peer lists do not depend on it, with any width, be it below
    the number of peers, the goroutines started are as many as the peers,
    and nothing in the engine reads it, the transitions being the same
    under every width. *)
Theorem fanout_ignores_width sim N :
  (∀ from m g, sto <$> propagateMessage sim from m g = peers_of sim from) ∧
  (∀ from m g, propagateMessage (with_width N sim) from m g = propagateMessage sim from m g) ∧
  (∀ s s', step sim LInject s = Some s' →
     ∃ start m w, main s = MSleep start m w ∧
       senders s' = senders s ++ propagateMessage sim start m (seed_tag start (TTL m))) ∧
  (∀ i s s', step sim (LRelay i) s = Some s' →
     ∃ t cache m g w, actors s !! i = Some (AForward t cache m g w) ∧
       senders s' = senders s ++
         propagateMessage sim (Z.of_nat i) m (relay_tag (Z.of_nat i) g)) ∧
  init (with_width N sim) = init sim ∧
  (∀ l s, step (with_width N sim) l s = step sim l s) ∧
  (∀ from m g,
     sto <$> propagateMessage sim from m g = default [] (peers sim !! from) ∧
     smsg <$> propagateMessage sim from m g
     = replicate (length (default [] (peers sim !! from))) m ∧
     sfrom <$> propagateMessage sim from m g
     = replicate (length (default [] (peers sim !! from))) from) ∧
  (∀ from m g,
     length (propagateMessage (with_width N sim) from m g)
     = length (default [] (peers sim !! from))) ∧
  (∀ s s', step (with_width N sim) LInject s = Some s' →
     ∃ start m w, main s = MSleep start m w ∧
       sto <$> drop (length (senders s)) (senders s') = default [] (peers sim !! start)) ∧
  (∀ i s s', step (with_width N sim) (LRelay i) s = Some s' →
     sto <$> drop (length (senders s)) (senders s')
     = default [] (peers sim !! Z.of_nat i)) ∧
  (∀ g d N', peersToSendTo (NewSimulator g N d) = N ∧
             peers (NewSimulator g N d) = peers (NewSimulator g N' d)).
Proof.
  assert (∀ from m g,
            sto <$> propagateMessage sim from m g = default [] (peers sim !! from))
    as Htargets.
  { intros from m g. unfold propagateMessage, peers_of.
    rewrite <- list_fmap_compose. apply list_fmap_id. }
  assert (∀ l s, step (with_width N sim) l s = step sim l s) as Hstep
    by (intros l s; by destruct l).
  split_and!.
  - intros from m g. unfold propagateMessage. rewrite <- list_fmap_compose.
    apply list_fmap_id.
  - done.
  - intros s s' HS%step_Step. inversion HS; subst. eauto.
  - intros i s s' HS%step_Step. inversion HS; subst. eauto 10.
  - done.
  - done.
  - intros from m g. split_and!; [done|..];
      unfold propagateMessage, peers_of; rewrite <- list_fmap_compose;
      induction (default [] (peers sim !! from)) as [|to l IH]; simpl; by f_equal.
  - intros from m g.
    rewrite <- (length_fmap sto). change (propagateMessage (with_width N sim) from m g)
      with (propagateMessage sim from m g). by rewrite Htargets.
  - intros s s'. rewrite Hstep. intros HS%step_Step. inversion HS; subst.
    eexists _, _, _. split; [done|]. simpl. by rewrite drop_app_length.
  - intros i s s'. rewrite Hstep. intros HS%step_Step. inversion HS; subst.
    simpl. by rewrite drop_app_length.
  - done.
Qed.

(** With a width of one the seed fan-out at node 0 of the ring still goes
    to both of its peers. *)
Example width_one_fans_out_to_all :
  peersToSendTo (with_width 1 ring_sim) = 1 ∧
  peers ring_sim !! 0 = Some [1; 2] ∧
  (λ sd, (sfrom sd, sto sd)) <$> senders (state_after (with_width 1 ring_sim)
                                [LBoot 0; LBoot 1; LBoot 2; LCall 0 2; LTick 10; LInject])
  = [(0, 1); (0, 2)].
Proof. vm_compute. done. Qed.

(** C4, the naive engine at the failing inputs: on the pair, where node 0
    has the peer 1, the round called after the idle timers have fired
    observes no hop event and [SendMessage] returns the empty log; so does
    a second round on a simulator whose first round has returned; there is
    no panic. *)
Theorem naive_returns_empty_log :
  peers_of pair_sim 0 = [1] ∧
  (run pair_sim late_run (init pair_sim) = Some late_state ∧
   count any_entry (history late_state) = 0 ∧
   panicked late_state = false ∧
   returned late_state = Some []) ∧
  (run pair_sim second_run (init pair_sim) = Some second_state ∧
   calls (history second_state) = [(0, 1); (0, 1)] ∧
   panicked second_state = false ∧
   returned second_state = Some []).
Proof. vm_compute. done. Qed.

(** C5 as stated fails: on the pair, [SendMessage(0, 0)] is accepted, the
    message is propagated and three entries are returned; [SendMessage(7, 1)],
    whose start index names no node, is accepted and returns an empty log;
    neither ends in a panic. *)
Lemma invalid_configuration_accepted :
  (run pair_sim zero_ttl_run (init pair_sim) = Some zero_ttl_state ∧
   calls (history zero_ttl_state) = [(0, 0)] ∧
   panicked zero_ttl_state = false ∧
   returned zero_ttl_state
   = Some [ {| Ts := 10; From := 0; To := 1 |}; {| Ts := 20; From := 1; To := 0 |};
            {| Ts := 30; From := 0; To := 1 |} ]) ∧
  (run pair_sim bad_start_run (init pair_sim) = Some bad_start_state ∧
   calls (history bad_start_state) = [(7, 1)] ∧
   valid_idx pair_sim 7 = false ∧
   panicked bad_start_state = false ∧
   returned bad_start_state = Some []).
Proof. vm_compute. done. Qed.

(** C5, amended. Configuration: nothing is validated. [SendMessage]
    accepts every start index and every ttl and goes on to the seed
    fan-out, which dispatches to the peer list of the start index, empty
    when the index has none. The only fatal outcome is the panic of a
    [sendMessage] goroutine that indexes [nodesCh] with a peer index out of
    range; it stops every goroutine, and it cannot occur when every peer
    index names a node. *)
Theorem no_configuration_validation sim :
  (∀ s start ttl,
     panicked s = false → (main s = MIdle ∨ ∃ ret, main s = MReturned ret) →
     GoInt.is_int start → GoInt.is_int ttl →
     ∃ s', step sim (LCall start ttl) s = Some s' ∧ panicked s' = false ∧
           main s' = MSleep start {| Content := "dummy"; TTL := ttl |}
                       (sleep_until (now s) (delay sim))) ∧
  (∀ s start m w,
     panicked s = false → main s = MSleep start m w → w ≤ now s →
     ∃ s', step sim LInject s = Some s' ∧ panicked s' = false ∧
           sto <$> drop (length (senders s)) (senders s') = peers_of sim start) ∧
  (∀ start, peers sim !! start = None → peers_of sim start = []) ∧
  (∀ s k sd,
     panicked s = false → senders s !! k = Some sd → sphase sd = PSend →
     valid_idx sim (sto sd) = false →
     ∃ s', step sim (LPanic k) s = Some s' ∧ panicked s' = true ∧
           ∀ l, step sim l s' = None) ∧
  (no_dangling sim → ∀ s, reachable sim s → panicked s = false).
Proof.
  split_and!.
  - intros s start ttl Hp Hm Hs Ht. eexists. split; [apply Step_step; by constructor|done].
  - intros s start m w Hp Hm Hw. eexists. split; [apply Step_step; by econstructor|].
    simpl. split; [done|]. rewrite drop_app_length.
    unfold propagateMessage. rewrite <- list_fmap_compose. apply list_fmap_id.
  - intros start H. unfold peers_of. by rewrite H.
  - intros s k sd Hp Hk Hph Hv. eexists. split; [apply Step_step; by econstructor|].
    split; [done|]. intros l. done.
  - intros Hnd s Hr. by eapply never_panics.
Qed.

(** C6 as stated fails: on the pair, where node 0 has degree 1, a call of
    [SendMessage(0, 1)] made once the idle timers have fired returns an
    empty log. *)
Lemma scenario_c_late_call_empty :
  run pair_sim late_run (init pair_sim) = Some late_state ∧
  calls (history late_state) = [(0, 1)] ∧
  length (peers_of pair_sim 0) = 1%nat ∧
  returned late_state = Some [].
Proof. vm_compute. done. Qed.

(** C6, amended. Scenario C: in the first round of a simulator, called
    with ttl 1 at a start node of degree d, the returned entries and the
    [sendMessage] goroutines still blocked or unreported are d together, so
    the log has at most d entries, and exactly d when no goroutine is left;
    every entry is a first hop, from the start node to one of its peers. *)
Theorem scenario_c sim s start ret :
  reachable sim s → calls (history s) = [(start, 1)] → main s = MReturned ret →
  (length ret + length (senders s) = length (peers_of sim start))%nat ∧
  (length ret ≤ length (peers_of sim start))%nat ∧
  (∀ r, r ∈ ret →
     From r.1 = start ∧ To r.1 ∈ peers_of sim start ∧ route r.2 = [start] ∧ hop r.2 = 1).
Proof.
  intros Hr Hc Hm.
  destruct (first_invariant sim start s Hr) as [_ H1].
  destruct (H1 Hc) as (_ & Hfrom & Hlen).
  destruct (tags_invariant _ _ Hr) as (_ & _ & _ & _ & _ & He).
  destruct (route_invariant _ _ Hr) as (_ & _ & _ & Hroute).
  unfold collected in *. rewrite Hm in Hfrom, Hlen, He, Hroute.
  split_and!; [done|lia|].
  intros [e g] Hin. simpl.
  destruct (He e g Hin) as (Hcall & Hh & Hb).
  destruct (Hroute e g Hin) as (_ & Hlast & Hchain).
  pose proof (Hfrom _ Hin) as HF. simpl in HF.
  apply called_calls in Hcall as [st Hst]. rewrite Hc in Hst.
  apply list_elem_of_singleton in Hst. simplify_eq.
  assert (hop g = 1) as Hhop by lia.
  assert (route g = [From e]) as Hroute1.
  { unfold hop in Hhop. destruct (route g) as [|a [|b r]]; simpl in *; try lia.
    by simplify_eq. }
  split_and!; try done.
  destruct (Hchain (From e) (To e)) as [Hp _]; [|done].
  rewrite Hroute1. simpl. by left.
Qed.

Lemma scenario_c_witness :
  reachable pair_sim prompt_state ∧
  (length [( {| Ts := 10; From := 0; To := 1 |}, seed_tag 0 1)]
   + length (senders prompt_state) = length (peers_of pair_sim 0))%nat.
Proof.
  assert (reachable pair_sim prompt_state) as Hr
    by (exists prompt_run; vm_compute; reflexivity).
  split; [exact Hr|].
  refine (proj1 (scenario_c pair_sim prompt_state 0 _ Hr _ _));
    vm_compute; reflexivity.
Defined.

(** With a parallel link the start node has degree 2 and the second copy
    finds the actor of node 1 gone: one entry, one goroutine left. *)
Example double_link_log :
  run double_sim double_run (init double_sim) = Some double_state ∧
  peers_of double_sim 0 = [1; 1] ∧
  returned double_state = Some [ {| Ts := 10; From := 0; To := 1 |} ] ∧
  (λ sd, (sfrom sd, sto sd, sphase sd)) <$> senders double_state = [(0, 1, PSend)].
Proof. vm_compute. done. Qed.

Example prompt_state_log :
  returned prompt_state = Some [ {| Ts := 10; From := 0; To := 1 |} ] ∧
  senders prompt_state = [].
Proof. vm_compute. done. Qed.

(** C7 as stated fails: on the ring of three nodes, in the round
    [SendMessage(0, 2)], node 2 dispatches its copy to its peer 0 after
    node 0 has returned on the copy of node 1; the goroutine stays blocked
    on the channel send and no LogEntry is made on the link from 2 to 0,
    then or ever after. *)
Lemma dispatch_without_entry :
  run ring_sim ring_run (init ring_sim) = Some ring_state ∧
  (λ sd, (sfrom sd, sto sd, sphase sd)) <$> senders ring_state !! 5%nat
  = Some (2, 0, PSend) ∧
  ∀ ls s', run ring_sim ls ring_state = Some s' →
    count (is_entry 2 0) (history s') = 0 ∧ 1 ≤ count (on_link 2 0) (senders s').
Proof.
  split_and!; [vm_compute; done..|].
  intros ls s' Hrun.
  assert (link_dead 2 0 ring_state) as Hd.
  { split_and!; [vm_compute; done| |vm_compute; done].
    assert (Forall (λ sd, on_link 2 0 sd = true → sphase sd = PSend)
              (senders ring_state)) as HF.
    { vm_compute. repeat (apply List.Forall_cons; [by intros|]). apply List.Forall_nil. }
    intros sd Hin. by apply (proj1 (Forall_forall _ _) HF). }
  destruct (dead_run _ _ _ _ _ _ Hrun Hd) as [(_ & _ & He) Hc].
  split; [done|].
  assert (count (on_link 2 0) (senders ring_state) = 1) as H1 by (vm_compute; done).
  lia.
Qed.

(** C7, amended. Log-entry creation: every message that the goroutine
    [sendMessage(f, t, m)] has handed to the actor of peer t makes exactly
    one LogEntry {now - simulationStart, From f, To t}, whether the actor
    drops the message as a duplicate or not: the entries made on a link and
    the handoffs awaiting theirs add up to the messages taken on that link,
    a handoff to an actor in its select always completes, and the entry is
    made next. A dispatch to an actor that has returned hands nothing over. *)
Theorem log_entry_creation sim s :
  reachable sim s →
  (∀ f t, count (is_recv f t) (history s)
          = count (awaiting f t) (senders s) + count (is_entry f t) (history s)) ∧
  (∀ k sd t cache,
     panicked s = false → senders s !! k = Some sd → sphase sd = PSend →
     valid_idx sim (sto sd) = true →
     actors s !! Z.to_nat (sto sd) = Some (ASelect t cache) →
     ∃ s', step sim (LRecv k) s = Some s' ∧
           senders s' !! k = Some (with_phase PEntry sd) ∧
           count (is_recv (sfrom sd) (sto sd)) (history s')
           = count (is_recv (sfrom sd) (sto sd)) (history s) + 1) ∧
  (∀ k sd,
     panicked s = false → senders s !! k = Some sd → sphase sd = PEntry →
     let e := {| Ts := now s - simulationStart s; From := sfrom sd; To := sto sd |} in
     ∃ s', step sim (LEntry k) s = Some s' ∧
           senders s' !! k = Some (with_phase (PReport e) sd) ∧
           history s' = history s ++ [EvEntry e]) ∧
  (∀ k sd,
     senders s !! k = Some sd → actors s !! Z.to_nat (sto sd) = Some AExited →
     step sim (LRecv k) s = None).
Proof.
  intros Hr. split_and!.
  - by apply (handoff_invariant sim).
  - intros. by eapply sendMessage_handoff.
  - intros. by eapply sendMessage_entry.
  - intros. by eapply sendMessage_blocked.
Qed.

Lemma log_entry_creation_witness :
  reachable pair_sim relay_state ∧
  count (is_recv 0 1) (history relay_state)
  = count (awaiting 0 1) (senders relay_state)
    + count (is_entry 0 1) (history relay_state).
Proof.
  assert (reachable pair_sim relay_state) as Hr
    by (exists relay_run; vm_compute; reflexivity).
  split; [exact Hr|].
  apply (log_entry_creation pair_sim relay_state Hr).
Defined.

(** C8 as stated fails: a log for the pair that names the node index 2
    makes [Analyze] stop with [log.Fatal], nothing is returned; and on a
    topology in which two nodes carry the same identifier a log that hits
    these two nodes gives an actual coverage of one, not of two. *)
Lemma analyze_stray_index_and_twins :
  (Stats.receivers stray_log = [2] ∧ length (Nodes pair_graph) = 2%nat ∧
   Stats.Analyze tt (λ h _, h) map_to_list pair_graph stray_log = None) ∧
  ((λ st, (map_to_list (Stats.NodeHits st), Stats.NodeCoverage st))
     <$> Stats.Analyze tt (λ h _, h) map_to_list twin_graph twin_log
   = Some ([("a", 2)], Stats.NewCoverage 1 3) ∧
   size (nodes_hit (Stats.receivers twin_log)) = 2%nat).
Proof. vm_compute. done. Qed.

(** C8, amended. Node statistics: [Analyze] stops the program with
    [log.Fatal] exactly when the log names a receiving index outside the
    topology. For a log whose receiving indices name nodes of the topology
    (fewer than 2^63 of them), [Analyze] returns; the hit count under an
    identifier is the number of log entries whose receiving index carries
    that identifier, one hit per entry; the identifiers with a count are
    those of the nodes hit; NodeCoverage is the number of distinct
    identifiers hit over the number of nodes of the topology, and the
    former is the number of distinct nodes hit when the identifiers are
    distinct. *)
Theorem analyze_node_statistics {Histogram : Type} (hist0 : Histogram)
    (Add : Histogram → Z → Histogram)
    (order : gmap string Z → list (string * Z)) (g : Graph) (plog : Propagation.Log) :
  (Stats.Analyze hist0 Add order g plog = None ↔
   ∃ j, j ∈ Stats.receivers plog ∧ ¬ (0 ≤ j < Z.of_nat (length (Nodes g)))) ∧
  (log_in_range g plog →
   Z.of_nat (length (Stats.receivers plog)) ≤ GoInt.max_int →
   ∃ st, Stats.Analyze hist0 Add order g plog = Some st ∧
     (∀ id, default 0 (Stats.NodeHits st !! id)
            = Stats.hits_of g id (Stats.receivers plog)) ∧
     (∀ id, is_Some (Stats.NodeHits st !! id) ↔ id ∈ ids_hit g (Stats.receivers plog)) ∧
     Stats.NodeCoverage st
     = Stats.NewCoverage (Z.of_nat (size (ids_hit g (Stats.receivers plog))))
                         (Z.of_nat (length (Nodes g))) ∧
     (NoDup (Nodes g) →
      Stats.Actual (Stats.NodeCoverage st)
      = Z.of_nat (size (nodes_hit (Stats.receivers plog))))).
Proof.
  split.
  { rewrite analyze_None, hits_None.
    split; intros (j & Hin & Hj); exists j; (split; [done|]); by apply NodeIDByIdx_None. }
  intros Hv Hlen.
  destruct (hits_spec g (Stats.receivers plog) ∅) as (m' & Hm' & Hc & Hp & Hd).
  - done.
  - intros id. by rewrite lookup_empty.
  - intros id. rewrite lookup_empty. simpl.
    pose proof (hits_of_le_length g id (Stats.receivers plog)). lia.
  - intros id v. by rewrite lookup_empty.
  - assert (dom m' = ids_hit g (Stats.receivers plog)) as Hdom.
    { apply set_eq. intros id. rewrite elem_of_dom, Hd, lookup_empty.
      unfold ids_hit. rewrite elem_of_list_to_set, list_elem_of_omap.
      split; [intros [[? ?]|?]; done|by right]. }
    unfold Stats.Analyze, Stats.analyzeNodeHits.
    rewrite all_hits_concat. fold (Stats.receivers plog). rewrite Hm'.
    eexists. split; [done|]. simpl.
    assert (size m' = size (ids_hit g (Stats.receivers plog))) as Hsize
      by (by rewrite <- Hdom, size_dom).
    split_and!.
    + intros id. rewrite Hc, lookup_empty. simpl. lia.
    + intros id. by rewrite <- Hdom, elem_of_dom.
    + unfold Stats.analyzeNodeCoverage. by rewrite Hsize.
    + intros Hnd. simpl. rewrite Hsize. f_equal. by apply size_ids_hit.
Qed.

Lemma analyze_node_statistics_witness :
  log_in_range pair_graph pair_log ∧
  Z.of_nat (length (Stats.receivers pair_log)) ≤ GoInt.max_int ∧
  ∃ st, Stats.Analyze tt (λ h _, h) map_to_list pair_graph pair_log = Some st ∧
        default 0 (Stats.NodeHits st !! "n1") = 2 ∧
        Stats.NodeCoverage st = Stats.NewCoverage 2 2.
Proof.
  assert (log_in_range pair_graph pair_log) as Hv.
  { intros j Hj. change (j ∈ [1; 0; 1]) in Hj.
    repeat (apply elem_of_cons in Hj as [->|Hj]; [simpl; lia|]).
    by apply elem_of_nil in Hj. }
  assert (Z.of_nat (length (Stats.receivers pair_log)) ≤ GoInt.max_int) as Hlen
    by (vm_compute; discriminate).
  split_and!; [exact Hv|exact Hlen|].
  destruct (proj2 (analyze_node_statistics tt (λ h _, h) map_to_list pair_graph pair_log)
              Hv Hlen)
    as (st & Hst & Hhits & _ & Hcov & _).
  exists st. split_and!; [exact Hst|apply Hhits|exact Hcov].
Defined.

Example analyze_pair_log :
  (λ st, (map_to_list (Stats.NodeHits st), Stats.NodeCoverage st, Stats.LinkCoverage st))
    <$> Stats.Analyze tt (λ h _, h) map_to_list pair_graph pair_log
  = Some ([("n1", 2); ("n0", 1)], Stats.NewCoverage 2 2, Stats.NewCoverage 1 1).
Proof. vm_compute. reflexivity. Qed.

(** C9. Idle timer: the timer of an actor is made when [runNode] begins,
    for ten seconds later; no transition changes it while the actor runs,
    a receipt included; the clock never goes back, so from that instant on
    the actor can return through the timer whenever it is in its select;
    and on the pair an actor does so in the very instant in which it has
    taken a message. *)
Theorem idle_timer_never_reset :
  (∀ sim s i, panicked s = false → actors s !! i = Some ASpawned →
     ∃ s', step sim (LBoot i) s = Some s' ∧
           actors s' !! i ≫= timer = Some (now s + 10 * 1000000000)) ∧
  (∀ sim l s s' i t, step sim l s = Some s' → actors s !! i ≫= timer = Some t →
     actors s' !! i ≫= timer = Some t ∨ actors s' !! i = Some AExited) ∧
  (∀ sim l s s', step sim l s = Some s' → now s ≤ now s') ∧
  (∀ sim s i t cache, panicked s = false → actors s !! i = Some (ASelect t cache) →
     t ≤ now s →
     ∃ s', step sim (LTimeout i) s = Some s' ∧ actors s' !! i = Some AExited) ∧
  (∃ s1 s2 s3,
     reachable pair_sim s1 ∧
     step pair_sim (LRecv 0) s1 = Some s2 ∧ step pair_sim (LTimeout 1) s2 = Some s3 ∧
     (sto <$> senders s1 !! 0%nat) = Some 1 ∧
     actors s2 !! 1%nat ≫= timer = Some (now s2) ∧ now s3 = now s1).
Proof.
  split_and!.
  - intros sim s i Hp Ha. eexists. split; [apply Step_step; by constructor|].
    simpl. rewrite list_lookup_insert_eq by (by eapply lookup_lt_Some). done.
  - intros sim l s s' i t HS. eapply timer_kept. by apply step_Step.
  - intros sim l s s' HS. eapply clock_monotone. by apply step_Step.
  - intros sim s i t cache Hp Ha Ht. eexists. split; [apply Step_step; by econstructor|].
    simpl. rewrite list_lookup_insert_eq by (by eapply lookup_lt_Some). done.
  - exists (state_after pair_sim
              (relay_run ++ [LTick 10; LRelay 0; LTick (idle_timeout - 30)])),
           busy_state, (state_after pair_sim (busy_run ++ [LTimeout 1])).
    split_and!;
      [exists (relay_run ++ [LTick 10; LRelay 0; LTick (idle_timeout - 30)])|..];
      vm_compute; reflexivity.
Qed.

(** C10 as stated fails at the least int: the decrement of
    [math.MinInt64] wraps around to [math.MaxInt64], which is not negative. *)
Lemma min_ttl_wraps_positive :
  run pair_sim min_ttl_run (init pair_sim) = Some min_ttl_state ∧
  calls (history min_ttl_state) = [(0, GoInt.min_int)] ∧
  TTL <$> forwarded min_ttl_state 1 = Some GoInt.max_int ∧
  0 < GoInt.max_int.
Proof. vm_compute. done. Qed.

(** C10. Non-positive ttl: for a message injected with ttl <= 0, in a
    simulator of fewer than 2^63 nodes, the ttl after the decrement of a
    receipt on hop h is the wrapped value of ttl - h; it is never zero, and
    it is ttl - h < 0 unless ttl - h is below the least int, so the actor
    goes on to forward; as long as every call had ttl <= 0 no actor has
    returned through the ttl test, and each node still relays at most once
    per content key. *)
Theorem nonpositive_ttl_never_expires sim s :
  Z.of_nat (nodeCount sim) < 2 ^ 63 →
  reachable sim s →
  (∀ k sd t cache,
     senders s !! k = Some sd → ttl0 (stag sd) ≤ 0 →
     actors s !! Z.to_nat (sto sd) = Some (ASelect t cache) →
     default false (cache !! Content (smsg sd)) = false →
     GoInt.dec (TTL (smsg sd)) ≠ 0 ∧
     (GoInt.min_int ≤ ttl0 (stag sd) - hop (stag sd) →
      GoInt.dec (TTL (smsg sd)) = ttl0 (stag sd) - hop (stag sd) ∧
      GoInt.dec (TTL (smsg sd)) < 0)) ∧
  ((∀ start ttl, EvCall start ttl ∈ history s → ttl ≤ 0) →
   count is_expire (history s) = 0) ∧
  (∀ f c, relays (history s) f c ≤ 1).
Proof.
  intros Hn Hr. split_and!.
  - intros k sd t cache Hk Hneg Ha Hmiss.
    destruct (dec_nonzero _ _ _ _ _ _ Hn Hr Hk Hneg Ha Hmiss) as (Hdec & Hh & Hnz).
    split; [done|]. intros Hmin. rewrite Hdec, wrap_id.
    + lia.
    + unfold GoInt.is_int, GoInt.max_int. lia.
  - by eapply no_expire.
  - intros f c. by eapply relays_bound.
Qed.

Lemma nonpositive_ttl_never_expires_witness :
  Z.of_nat (nodeCount pair_sim) < 2 ^ 63 ∧
  reachable pair_sim zero_seed_state ∧
  GoInt.dec 0 ≠ 0 ∧ (GoInt.min_int ≤ 0 - 1 → GoInt.dec 0 = 0 - 1 ∧ GoInt.dec 0 < 0).
Proof.
  assert (Z.of_nat (nodeCount pair_sim) < 2 ^ 63) as Hn by (vm_compute; reflexivity).
  assert (reachable pair_sim zero_seed_state) as Hr
    by (exists zero_seed_run; vm_compute; reflexivity).
  split_and!; [exact Hn|exact Hr|..];
    apply (proj1 (nonpositive_ttl_never_expires pair_sim zero_seed_state Hn Hr)
             0%nat
             {| sfrom := 0; sto := 1; smsg := {| Content := "dummy"; TTL := 0 |};
                sphase := PSend; stag := seed_tag 0 0 |}
             idle_timeout ∅);
    vm_compute; first [reflexivity | discriminate].
Defined.

(** ** More on the trace analysis *)

(** Two hits commute, whether on the same counter or not. *)
Lemma hit_comm g m i j :
  Stats.hit g m i ≫= (λ m', Stats.hit g m' j)
  = Stats.hit g m j ≫= (λ m', Stats.hit g m' i).
Proof.
  unfold Stats.hit.
  destruct (NodeIDByIdx g i) as [idi|] eqn:Hi, (NodeIDByIdx g j) as [idj|] eqn:Hj;
    simpl; rewrite ?Hi, ?Hj; try done.
  destruct (decide (idi = idj)) as [->|Hne]; [done|].
  rewrite !lookup_insert_ne by done. f_equal. by apply insert_insert_ne.
Qed.

Lemma hits_perm g js1 js2 :
  js1 ≡ₚ js2 → ∀ m, Stats.hits g m js1 = Stats.hits g m js2.
Proof.
  induction 1 as [|j js1 js2 _ IH|i j js|js1 js2 js3 _ IH1 _ IH2]; intros m.
  - done.
  - simpl. destruct (Stats.hit g m j); [apply IH|done].
  - pose proof (hit_comm g m j i) as Hc. simpl.
    destruct (Stats.hit g m j) as [m1|], (Stats.hit g m i) as [m2|]; simpl in *;
      try done.
    + destruct (Stats.hit g m1 i), (Stats.hit g m2 j); by simplify_eq.
    + by destruct (Stats.hit g m1 i).
    + by destruct (Stats.hit g m2 j).
  - by rewrite IH1.
Qed.

Lemma hits_dom g js : ∀ m m',
  Stats.hits g m js = Some m' → dom m' = dom m ∪ ids_hit g js.
Proof.
  unfold ids_hit. induction js as [|j js IH]; intros m m'; simpl.
  - intros [= <-]. by rewrite (right_id_L ∅ (∪)).
  - unfold Stats.hit. destruct (NodeIDByIdx g j) as [id|]; [|done].
    intros H%IH. rewrite H, dom_insert_L. simpl.
    apply set_eq. intros x. rewrite !elem_of_union, elem_of_singleton. tauto.
Qed.

Lemma ids_hit_nodes g js : ids_hit g js ⊆ node_ids g.
Proof.
  unfold ids_hit, node_ids. intros id.
  rewrite !elem_of_list_to_set, list_elem_of_omap.
  intros (j & _ & Hj). unfold NodeIDByIdx in Hj. case_bool_decide; [|done].
  by eapply list_elem_of_lookup_2.
Qed.

Lemma size_list_to_set_le `{Countable A} (l : list A) :
  (size (list_to_set l : gset A) ≤ length l)%nat.
Proof.
  induction l as [|x l IH]; [by rewrite list_to_set_nil, size_empty|].
  rewrite list_to_set_cons, size_union_alt, size_singleton.
  assert (list_to_set l ∖ {[x]} ⊆ (list_to_set l : gset A)) as Hs%subseteq_size
    by (intros y [? _]%elem_of_difference; done).
  simpl. lia.
Qed.

Lemma size_list_to_set_dups `{Countable A} (l : list A) :
  size (list_to_set l : gset A) = length (remove_dups l).
Proof.
  rewrite <- (size_list_to_set (C := gset A) (remove_dups l)) by apply NoDup_remove_dups.
  f_equal. apply set_eq. intros x.
  by rewrite !elem_of_list_to_set, elem_of_remove_dups.
Qed.

(** *** The sum of the counters *)

Lemma total_hits_fresh m id v :
  m !! id = None → total_hits (<[id := v]> m) = v + total_hits m.
Proof.
  intros Hn. unfold total_hits.
  rewrite (map_fold_insert_L (λ _ v acc, v + acc)); [done| |done].
  intros. lia.
Qed.

Lemma total_hits_insert m id v :
  total_hits (<[id := v]> m) = total_hits m - default 0 (m !! id) + v.
Proof.
  destruct (m !! id) as [v0|] eqn:Hid; simpl.
  - rewrite <- (insert_delete_id m id v0) at 2 by done.
    rewrite <- insert_delete_eq.
    rewrite !total_hits_fresh by apply lookup_delete_eq. lia.
  - rewrite total_hits_fresh by done. lia.
Qed.

Lemma total_hits_nonneg m :
  (∀ id v, m !! id = Some v → 0 ≤ v) → 0 ≤ total_hits m.
Proof.
  induction m as [|id v m Hn IH] using map_ind; intros Hv.
  - unfold total_hits. by rewrite map_fold_empty.
  - rewrite total_hits_fresh by done.
    assert (0 ≤ v) by (apply (Hv id); by rewrite lookup_insert_eq).
    assert (0 ≤ total_hits m); [|lia].
    apply IH. intros id' v' H'. apply (Hv id').
    rewrite lookup_insert_ne; [done|]. intros ->. congruence.
Qed.

Lemma total_hits_lookup m id v :
  (∀ id v, m !! id = Some v → 0 ≤ v) → m !! id = Some v → v ≤ total_hits m.
Proof.
  intros Hv Hid.
  rewrite <- (insert_delete_id m id v) by done.
  rewrite total_hits_fresh by apply lookup_delete_eq.
  assert (0 ≤ total_hits (delete id m)); [|lia].
  apply total_hits_nonneg. intros id' v' [_ H']%lookup_delete_Some. by eapply Hv.
Qed.

Lemma hits_total g js : ∀ m m',
  (∀ id v, m !! id = Some v → 1 ≤ v) →
  total_hits m + Z.of_nat (length js) ≤ GoInt.max_int →
  Stats.hits g m js = Some m' →
  total_hits m' = total_hits m + Z.of_nat (length js) ∧
  (∀ id v, m' !! id = Some v → 1 ≤ v).
Proof.
  induction js as [|j js IH]; intros m m' Hv Hmax; simpl.
  - intros [= <-]. split; [lia|done].
  - unfold Stats.hit. destruct (NodeIDByIdx g j) as [id|]; [|done].
    rewrite length_cons, Nat2Z.inj_succ in Hmax.
    assert (∀ id v, m !! id = Some v → 0 ≤ v) as Hv0
      by (intros id' v' H'; specialize (Hv _ _ H'); lia).
    pose proof (total_hits_nonneg m Hv0) as Hnn.
    assert (0 ≤ default 0 (m !! id) ≤ total_hits m) as Hid.
    { destruct (m !! id) as [v|] eqn:Hl; simpl; [|lia].
      split; [by eapply Hv0|by eapply total_hits_lookup]. }
    assert (GoInt.inc (default 0 (m !! id)) = default 0 (m !! id) + 1) as ->.
    { apply wrap_id. unfold GoInt.is_int, GoInt.min_int, GoInt.max_int in *. lia. }
    intros H. apply IH in H as [Ht Hv'].
    + split; [|done]. rewrite Ht, total_hits_insert. lia.
    + intros id' v'. destruct (decide (id = id')) as [->|Hne].
      * rewrite lookup_insert_eq. intros [= <-]. lia.
      * rewrite lookup_insert_ne by done. apply Hv.
    + rewrite total_hits_insert. lia.
Qed.

(** Additions that commute may come in any order. *)
Lemma foldl_add_perm {Histogram : Type} (Add : Histogram → Z → Histogram)
    (l1 l2 : list (string * Z)) :
  (∀ h v w, Add (Add h v) w = Add (Add h w) v) → l1 ≡ₚ l2 →
  ∀ h, foldl (λ hist kv, Add hist kv.2) h l1 = foldl (λ hist kv, Add hist kv.2) h l2.
Proof.
  intros Hcomm.
  induction 1 as [|x l1 l2 _ IH|x y l|l1 l2 l3 _ IH1 _ IH2]; intros h; simpl.
  - done.
  - apply IH.
  - by rewrite Hcomm.
  - by rewrite IH1.
Qed.

(** ** More on the WhisperV6 simulator *)

Lemma precache_from_miss ids : ∀ i m id,
  id ∉ ids → precache_from i ids m !! id = m !! id.
Proof.
  induction ids as [|id0 ids IH]; intros i m id Hn; simpl; [done|].
  apply not_elem_of_cons in Hn as [Hne Hn].
  rewrite IH by done. by apply lookup_insert_ne.
Qed.

Lemma precache_from_last ids : ∀ k i m id,
  ids !! k = Some id → (∀ k', (k < k')%nat → ids !! k' ≠ Some id) →
  precache_from i ids m !! id = Some (i + Z.of_nat k).
Proof.
  induction ids as [|id0 ids IH]; intros k i m id Hk Hlast; [done|].
  destruct k as [|k]; simpl in *.
  - simplify_eq. rewrite precache_from_miss.
    + rewrite lookup_insert_eq. f_equal. lia.
    + intros [k' Hk']%list_elem_of_lookup_1. by apply (Hlast (S k')); [lia|].
  - rewrite (IH k) by (try done; intros k' Hlt; apply (Hlast (S k')); lia).
    f_equal. lia.
Qed.

Lemma relevant_filter_nil (events : list Whisper.SimEvent) :
  existsb relevant events = false ↔ filter relevant events = [].
Proof.
  induction events as [|event events IH]; [done|].
  destruct (relevant event) eqn:Hr.
  - rewrite filter_cons_True by (by apply Is_true_true_2). simpl. by rewrite Hr.
  - rewrite filter_cons_False by (by apply Is_true_false_2). simpl. by rewrite Hr.
Qed.

(** The select loop, from a state in which it is still waiting. *)
Lemma loop_window ncache start cs : ∀ st,
  Whisper.subErr st = None → Whisper.done st = false →
  Whisper.loop ncache start st cs =
  match window cs with
  | None => None
  | Some (events, r) =>
      Some {| Whisper.subErr := r;
              Whisper.done := bool_decide (r = None);
              Whisper.hasEvents := Whisper.hasEvents st || existsb relevant events;
              Whisper.plog :=
                Whisper.plog st ++ (entry_of ncache start <$> filter relevant events) |}
  end.
Proof.
  induction cs as [|c cs IH]; intros st Hsub Hdone; simpl;
    rewrite Hsub, Hdone; simpl; [done|].
  destruct c as [event| |[e|]]; simpl.
  - fold (relevant event). destruct (relevant event) eqn:Hr.
    + rewrite IH by done. simpl. destruct (window cs) as [[events r]|]; [|done].
      rewrite filter_cons_True by (by apply Is_true_true_2). simpl.
      rewrite Hr, orb_true_r. simpl. by rewrite <- app_assoc.
    + rewrite IH by done. destruct (window cs) as [[events r]|]; [|done].
      rewrite filter_cons_False by (by apply Is_true_false_2). simpl. by rewrite Hr.
  - destruct cs; simpl; rewrite ?Hsub, ?Hdone, ?orb_false_r, ?app_nil_r; done.
  - destruct cs; simpl; rewrite ?Hsub, ?Hdone, ?orb_false_r, ?app_nil_r; done.
  - rewrite IH by done. destruct st. simpl in *. by subst.
Qed.

(** ** More on the engine: the wait group and the rounds *)

Lemma count_pos_lookup {A} (P : A → bool) l i x :
  l !! i = Some x → P x = true → 1 ≤ count P l.
Proof.
  revert i. induction l as [|y l IH]; intros [|i] H HP; simplify_eq/=.
  - rewrite HP. pose proof (count_nonneg P l). simpl. lia.
  - specialize (IH _ H HP). destruct (P y); simpl; lia.
Qed.

Lemma count_zero_inv {A} (P : A → bool) l x :
  count P l = 0 → x ∈ l → P x = false.
Proof.
  intros H0 [i Hi]%list_elem_of_lookup_1.
  destruct (P x) eqn:HP; [|done].
  pose proof (count_pos_lookup P l i x Hi HP). lia.
Qed.

Lemma all_exited_count l : all_exited l ↔ count running l = 0.
Proof.
  unfold all_exited. split.
  - intros H. apply count_zero. intros a Ha.
    by rewrite (proj1 (Forall_forall _ _) H a Ha).
  - intros H0. apply Forall_forall. intros a Ha.
    apply (count_zero_inv running l a H0) in Ha. by destruct a.
Qed.

Lemma all_exited_lookup l i a : all_exited l → l !! i = Some a → a = AExited.
Proof. intros H Hi. by apply (proj1 (Forall_lookup _ _) H i a). Qed.

(** A goroutine of [runNode] that is alive keeps the wait group above zero. *)
Lemma wg_pos sim s i a :
  reachable sim s → actors s !! i = Some a → running a = true → 1 ≤ wg s.
Proof.
  intros Hr Hi Ha. destruct (inv_shape _ _ Hr) as [_ ->].
  by eapply count_pos_lookup.
Qed.

Lemma round_invariant sim s : reachable sim s → inv_round s.
Proof.
  induction 1 as [|l s s' Hr IH HS] using reachable_ind; [done|].
  unfold inv_round in *.
  destruct HS; simpl; rewrite ?calls_app; simpl; rewrite ?app_nil_r; try done.
  all: try match goal with
           | H : actors _ !! _ = Some (ASelect _ _) |- _ =>
               pose proof (wg_pos _ _ _ _ Hr H eq_refl) as Hpos
           end.
  all: try (destruct (main s); try done; try lia; intros Hc; specialize (IH Hc); lia).
  - destruct H2 as [Hm|[ret Hm]]; rewrite Hm in IH.
    + rewrite IH. simpl. lia.
    + done.
Qed.

(** *** Once every actor has returned *)

Lemma handed_spawn sim from m g : count handed (propagateMessage sim from m g) = 0.
Proof. apply count_zero. by intros sd (to & -> & _)%list_elem_of_fmap. Qed.

(** With every actor gone a transition hands no message over, starts no
    actor and frees no blocked goroutine. *)
Lemma quiet_step sim s l s' :
  Step sim s l s' → all_exited (actors s) →
  actors s' = actors s ∧
  (∀ f t, count (is_recv f t) (history s') = count (is_recv f t) (history s)) ∧
  count handed (senders s') ≤ count handed (senders s) ∧
  count sending (senders s) ≤ count sending (senders s') ∧
  (length (calls (history s)) ≤ length (calls (history s')))%nat ∧
  pending s' ≤ pending s ∧
  ((length (calls (history s)) < length (calls (history s')))%nat →
   pending s' = count handed (senders s')).
Proof.
  intros HS Hq.
  destruct HS; simpl;
    try match goal with
        | H : actors _ !! _ = Some _ |- _ =>
            by pose proof (all_exited_lookup _ _ _ Hq H)
        end.
  all: unfold pending, collected; simpl;
       rewrite ?calls_app, ?length_app; simpl; rewrite ?app_nil_r.
  all: split; [done|]; split; [intros f t; rewrite ?count_app; simpl; lia|].
  all: rewrite ?count_app, ?handed_spawn.
  all: try (erewrite !count_insert by eassumption).
  all: try (erewrite !count_delete by eassumption).
  all: unfold sending, handed; simpl;
       try match goal with H : sphase _ = _ |- _ => rewrite H end; simpl.
  all: try match goal with
           | |- context [count ?P (propagateMessage ?a ?b ?c ?d)] =>
               pose proof (count_nonneg P (propagateMessage a b c d))
           end.
  all: try match goal with H : main _ = _ |- _ => rewrite H end.
  all: rewrite ?length_app; simpl; split_and!; try lia.
  all: destruct (main s); simpl; lia.
Qed.

Lemma quiet_run sim ls : ∀ s s',
  run sim ls s = Some s' → all_exited (actors s) →
  all_exited (actors s') ∧
  (∀ f t, count (is_recv f t) (history s') = count (is_recv f t) (history s)) ∧
  count handed (senders s') ≤ count handed (senders s) ∧
  count sending (senders s) ≤ count sending (senders s') ∧
  (length (calls (history s)) ≤ length (calls (history s')))%nat ∧
  ((length (calls (history s)) < length (calls (history s')))%nat →
   pending s' ≤ count handed (senders s)).
Proof.
  induction ls as [|l ls IH] using rev_ind; intros s s' Hrun Hq.
  - simpl in Hrun. simplify_eq. split_and!; try done; lia.
  - rewrite run_app in Hrun.
    destruct (run sim ls s) as [s1|] eqn:H1; simpl in Hrun; [|done].
    destruct (step sim l s1) as [s2|] eqn:H2; simplify_eq.
    destruct (IH _ _ H1 Hq) as (Hq1 & Hr1 & Hh1 & Hs1 & Hc1 & Hp1).
    destruct (quiet_step _ _ _ _ (step_Step _ _ _ _ H2) Hq1)
      as (Ha & Hr2 & Hh2 & Hs2 & Hc2 & Hp2 & Hn2).
    split_and!; try lia.
    + by rewrite Ha.
    + intros f t. by rewrite Hr2.
Qed.

Lemma quiet_blocked sim s k : all_exited (actors s) → step sim (LRecv k) s = None.
Proof.
  intros Hq. unfold step. destruct (panicked s); [done|].
  destruct (senders s !! k) as [sd|]; [|done].
  destruct (sphase sd); try done.
  destruct (valid_idx sim (sto sd)); [|done].
  destruct (actors s !! Z.to_nat (sto sd)) as [a|] eqn:Ha; [|done].
  by rewrite (all_exited_lookup _ _ _ Hq Ha).
Qed.

(** *** Timestamps *)

Lemma elem_spawn sim from m g sd :
  sd ∈ propagateMessage sim from m g →
  sfrom sd = from ∧ sto sd ∈ peers_of sim from ∧ smsg sd = m ∧ sphase sd = PSend ∧
  stag sd = g.
Proof. by intros (to & -> & Hto)%list_elem_of_fmap. Qed.

Lemma time_invariant sim s : reachable sim s → inv_time s.
Proof.
  induction 1 as [|l s s' Hr (Hclock & Hsd & Hcol) HS] using reachable_ind.
  - split_and!; [done|by intros ?? ?%elem_of_nil|by intros ?? ?%elem_of_nil].
  - unfold inv_time, collected in *.
    step_cases HS; simpl; split_and!; try done; try lia.
    all: try (intros ?? ?%elem_of_nil; done).
    all: try (intros sd' e' [->|Hin]%elem_insert_inv; simpl;
              [intros [= <-]; simpl; lia|by apply Hsd]).
    all: try (intros sd' e' [Hin|Hin%elem_spawn]%elem_of_app; [by apply Hsd|];
              destruct Hin as (_ & _ & _ & -> & _); done).
    + intros sd' e' Hin%elem_delete_inv. by apply Hsd.
    + rewrite Hm in Hcol.
      intros e' g' [Hin|Hin%list_elem_of_singleton]%elem_of_app; [by eapply Hcol|].
      simplify_eq. eapply Hsd; [by eapply list_elem_of_lookup_2|done].
    + by rewrite Hm in Hcol.
Qed.

(** Before the first call nothing is in flight. *)
Lemma fresh_state sim s :
  reachable sim s → calls (history s) = [] →
  main s = MIdle ∧ senders s = [] ∧ collected s = [] ∧
  ∀ t ca m g w, AForward t ca m g w ∉ actors s.
Proof.
  intros Hr Hc. destruct (first_invariant sim 0 s Hr) as [H0 _].
  destruct (H0 Hc) as [Hm Hs]. unfold collected. rewrite Hm.
  split_and!; try done.
  intros t ca m g w Hin.
  destruct (tags_invariant _ _ Hr) as (_ & _ & _ & Hf & _).
  destruct (Hf _ _ _ _ _ Hin) as (_ & _ & Hcall & _).
  apply called_calls in Hcall as [st Hst]. rewrite Hc in Hst.
  by apply elem_of_nil in Hst.
Qed.

Lemma hops_invariant sim s : reachable sim s → inv_hops sim s.
Proof.
  induction 1 as [|l s s' Hr IH HS] using reachable_ind.
  - intros _ d. split_and!; try done.
    + by intros ? ?%elem_of_nil.
    + by intros ????? ?%elem_of_replicate_inv.
    + by intros ?? ?%elem_of_nil.
  - pose proof (fresh_state _ _ Hr) as Hfresh.
    unfold inv_hops, collected in *.
    step_cases HS; simpl; rewrite ?calls_app; simpl;
      rewrite ?app_nil_r; intros Hlen.
    all: try (destruct (IH Hlen) as (IHm & IHs & IHf & IHc); clear IH).
    all: try assert (∀ k sd, senders s !! k = Some sd →
                       simulationStart s + hop (stag sd) * Z.max 0 (delay sim) ≤ now s ∧
                       ∀ e, sphase sd = PReport e →
                            hop (stag sd) * Z.max 0 (delay sim) ≤ Ts e) as IHk
           by (intros; eapply IHs, list_elem_of_lookup_2; eassumption).
    + (* the clock *)
      split_and!; try done. intros sd' Hin. destruct (IHs _ Hin). split; [lia|done].
    + (* an actor begins *)
      split_and!; try done.
      intros t' ca' m' g' w' [?|Hin]%elem_insert_inv; [done|by eapply IHf].
    + (* the call *)
      rewrite length_app in Hlen.
      destruct Hfresh as (_ & Hnil & _ & Hnf);
        [destruct (calls (history s)); [done|simpl in Hlen; lia]|].
      rewrite Hnil. split_and!.
      * intros st' m' w' [= <- <- <-]. unfold sleep_until. lia.
      * by intros ? ?%elem_of_nil.
      * intros t' ca' m' g' w' Hin. by apply Hnf in Hin.
      * by intros ?? ?%elem_of_nil.
    + (* the seed fan-out *)
      specialize (IHm _ _ _ Hm). split_and!; try done.
      * intros sd' [Hin|Hin%elem_spawn]%elem_of_app; [by apply IHs|].
        destruct Hin as (_ & _ & _ & Hph & ->). rewrite Hph, hop_seed.
        split; [lia|done].
      * by intros ?? ?%elem_of_nil.
    + (* a duplicate is taken *)
      split_and!; try done.
      * intros sd' [->|Hin]%elem_insert_inv; [|by apply IHs]. simpl.
        destruct (IHk _ _ Hk). split; [done|]. by intros e' [=].
      * intros t' ca' m' g' w' [?|Hin]%elem_insert_inv; [done|by eapply IHf].
    + (* the ttl runs out *)
      split_and!; try done.
      * intros sd' [->|Hin]%elem_insert_inv; [|by apply IHs]. simpl.
        destruct (IHk _ _ Hk). split; [done|]. by intros e' [=].
      * intros t' ca' m' g' w' [?|Hin]%elem_insert_inv; [done|by eapply IHf].
    + (* a message is accepted *)
      split_and!; try done.
      * intros sd' [->|Hin]%elem_insert_inv; [|by apply IHs]. simpl.
        destruct (IHk _ _ Hk). split; [done|]. by intros e' [=].
      * intros t' ca' m' g' w' [Heq|Hin]%elem_insert_inv; [|by eapply IHf].
        simplify_eq. destruct (IHk _ _ Hk) as [Hnow _].
        unfold sleep_until. lia.
    + (* a relay *)
      assert (AForward t cache m g wake ∈ actors s) as Hin
        by (by eapply list_elem_of_lookup_2).
      pose proof (IHf _ _ _ _ _ Hin) as Hwake. split_and!; try done.
      * intros sd' [Hin'|Hin'%elem_spawn]%elem_of_app; [by apply IHs|].
        destruct Hin' as (_ & _ & _ & Hph & ->). rewrite Hph, hop_relay.
        split; [lia|done].
      * intros t' ca' m' g' w' [?|Hin']%elem_insert_inv; [done|by eapply IHf].
    + (* the timer *)
      split_and!; try done.
      intros t' ca' m' g' w' [?|Hin]%elem_insert_inv; [done|by eapply IHf].
    + (* an entry is made *)
      split_and!; try done.
      intros sd' [->|Hin]%elem_insert_inv; [|by apply IHs]. simpl.
      destruct (IHk _ _ Hk) as [Hnow _]. split; [done|].
      intros e' [= <-]. simpl. lia.
    + (* an entry is collected *)
      rewrite Hm in IHc. split_and!; try done.
      * intros sd' Hin%elem_delete_inv. by apply IHs.
      * intros e' g' [Hin|Hin%list_elem_of_singleton]%elem_of_app; [by eapply IHc|].
        simplify_eq. by apply (IHk _ _ Hk).
    + (* the round returns *)
      rewrite Hm in IHc. split_and!; done.
    + (* a panic *)
      split_and!; done.
Qed.

(** *** Schedules that let the round return *)

Lemma count_pos_exists {A} (P : A → bool) l :
  0 < count P l → ∃ i x, l !! i = Some x ∧ P x = true.
Proof.
  induction l as [|y l IH]; simpl; [lia|]. intros Hc.
  destruct (P y) eqn:HP.
  - by exists 0%nat, y.
  - destruct IH as (i & x & Hi & Hx); [simpl in Hc; lia|]. by exists (S i), x.
Qed.

Lemma idle_timeout_pos : 0 < idle_timeout.
Proof. done. Qed.

(** One actor that is alive can be brought to return, by its timer, with
    nothing else moving but the clock. *)
Lemma exit_one sim s i a :
  panicked s = false → actors s !! i = Some a → running a = true →
  ∃ ls s', run sim ls s = Some s' ∧ panicked s' = false ∧ main s' = main s ∧
           count running (actors s') = count running (actors s) - 1.
Proof.
  intros Hp Hi Ha. pose proof (lookup_lt_Some _ _ _ Hi) as Hlt.
  pose proof idle_timeout_pos as Hidle.
  destruct a as [|t cache|t cache m g wake|]; [| | |done].
  - exists [LBoot i; LTick idle_timeout; LTimeout i]. eexists. split.
    + simpl. rewrite (Step_step _ _ _ _ (SBoot sim s i Hp Hi)).
      erewrite Step_step; [|by apply STick].
      erewrite Step_step; [done|].
      eapply (STimeout _ _ i);
        [done|simpl; by apply list_lookup_insert_eq|simpl; lia].
    + simpl. split_and!; [done..|].
      rewrite list_insert_insert_eq. erewrite count_insert by eassumption. simpl. lia.
  - exists [LTick (Z.max 1 (t - now s)); LTimeout i]. eexists. split.
    + simpl. erewrite Step_step; [|apply STick; [done|lia]].
      erewrite Step_step; [done|].
      eapply (STimeout _ _ i); [done|done|simpl; lia].
    + simpl. split_and!; [done..|]. erewrite count_insert by eassumption. simpl. lia.
  - exists [LTick (Z.max 1 (Z.max (wake - now s) (t - now s))); LRelay i; LTimeout i].
    eexists. split.
    + simpl. erewrite Step_step; [|apply STick; [done|lia]].
      erewrite Step_step; [|eapply (SRelay _ _ i); [done|done|simpl; lia]].
      erewrite Step_step; [done|].
      eapply (STimeout _ _ i);
        [done|simpl; by apply list_lookup_insert_eq|simpl; lia].
    + simpl. split_and!; [done..|].
      rewrite list_insert_insert_eq. erewrite count_insert by eassumption. simpl. lia.
Qed.

Lemma drain sim n : ∀ s,
  panicked s = false → count running (actors s) = Z.of_nat n →
  ∃ ls s', run sim ls s = Some s' ∧ panicked s' = false ∧ main s' = main s ∧
           count running (actors s') = 0.
Proof.
  induction n as [|n IH]; intros s Hp Hn.
  - by exists [], s.
  - destruct (count_pos_exists running (actors s)) as (i & a & Hi & Ha); [lia|].
    destruct (exit_one sim s i a Hp Hi Ha) as (ls1 & s1 & Hrun1 & Hp1 & Hm1 & Hc1).
    destruct (IH s1 Hp1) as (ls2 & s2 & Hrun2 & Hp2 & Hm2 & Hc2); [lia|].
    exists (ls1 ++ ls2), s2. rewrite run_app, Hrun1. simpl.
    split_and!; try done. congruence.
Qed.

(** From the select loop the round can return with what it has. *)
Lemma collect_can_return sim s ret :
  reachable sim s → panicked s = false → main s = MCollect ret →
  ∃ ls s', run sim ls s = Some s' ∧ main s' = MReturned ret ∧ panicked s' = false.
Proof.
  intros Hr Hp Hm.
  pose proof (count_nonneg running (actors s)) as Hnn.
  destruct (drain sim (Z.to_nat (count running (actors s))) s Hp)
    as (ls & s1 & Hrun & Hp1 & Hm1 & Hc1); [lia|].
  pose proof (reachable_run _ _ _ _ Hr Hrun) as Hr1.
  destruct (inv_shape _ _ Hr1) as [_ Hwg].
  exists (ls ++ [LDone]). eexists. rewrite run_app, Hrun. simpl. split.
  - erewrite Step_step; [done|]. apply SDone; [done|by rewrite Hm1|lia].
  - done.
Qed.

(** *** How an actor returns *)

Lemma exit_ok_mono h evs c c' i a :
  exit_ok h c i a → c ≤ c' → exit_ok (h ++ evs) c' i a.
Proof.
  destruct a; simpl; try done.
  intros [H|[H Hc]] Hle; [left|right; split; [|lia]]; apply elem_of_app; by left.
Qed.

Lemma exit_invariant sim s : reachable sim s → inv_exit s.
Proof.
  induction 1 as [|l s s' Hr [Hnow IH] HS] using reachable_ind.
  - split; [done|]. intros i a [-> _]%lookup_replicate. done.
  - assert (∀ evs c' i a, actors s !! i = Some a → now s ≤ c' →
              exit_ok (history s ++ evs) c' i a) as IHm
      by (intros; eapply exit_ok_mono; [by apply IH|done]).
    assert (∀ c' i a, actors s !! i = Some a → now s ≤ c' →
              exit_ok (history s) c' i a) as IH0.
    { intros c' i a Hi Hle. rewrite <- (app_nil_r (history s)). by apply IHm. }
    unfold inv_exit.
    step_cases HS; simpl; (split; [lia|]); intros j a' Hj;
      try (apply IH0; [done|lia]);
      try (apply IHm; [done|lia]).
    all: apply list_lookup_insert_Some in Hj as [(<- & <- & _)|[_ Hj]];
         try (apply IHm; [done|lia]); try (apply IH0; [done|lia]); simpl.
    + pose proof idle_timeout_pos. lia.
    + left. apply valid_idx_to_nat in Hv as [-> _].
      apply elem_of_app. right. apply list_elem_of_further, list_elem_of_here.
    + by apply (IH _ _ Ha).
    + by apply (IH _ _ Ha).
    + right. pose proof (IH _ _ Ha) as Ht'. simpl in Ht'. split; [|lia].
      apply elem_of_app. right. apply list_elem_of_here.
Qed.

(** *** The books of the first round *)

Lemma ledger_invariant sim s : reachable sim s → inv_ledger sim s.
Proof.
  induction 1 as [|l s s' Hr IH HS] using reachable_ind.
  - intros _ f t. unfold fanouts, logged. simpl. lia.
  - pose proof (entries_invariant _ _ Hr) as Hent.
    pose proof (fresh_state _ _ Hr) as Hfresh.
    unfold inv_ledger, collected, fanouts in *.
    step_cases HS; simpl; rewrite ?calls_app; simpl; rewrite ?app_nil_r;
      intros Hlen lf lt.
    all: try (specialize (IH Hlen lf lt)).
    all: try match goal with H : main _ = _ |- _ => rewrite H in IH end.
    all: rewrite ?count_app; simpl; rewrite ?Z.add_0_r; try done.
    all: try (erewrite count_insert by eassumption; rewrite on_link_phase; lia).
    all: try (rewrite count_on_link_spawn; case_bool_decide; subst; simpl;
              rewrite ?Z.mul_add_distr_l, ?Z.mul_1_r, ?Z.mul_0_r;
              unfold logged in *; simpl in *; lia).
    + rewrite length_app in Hlen.
      destruct Hfresh as (_ & Hnil & Hcol & _);
        [destruct (calls (history s)); [done|simpl in Hlen; lia]|].
      assert (length (calls (history s)) ≤ 1)%nat as Hlen0 by (simpl in Hlen; lia).
      specialize (IH Hlen0 lf lt). rewrite Hnil in *. unfold collected in Hcol.
      rewrite Hcol in IH. unfold logged in *. simpl in *. lia.
    + erewrite count_delete by eassumption.
      unfold logged in *. rewrite count_app. simpl.
      destruct (Hent sd e) as [HF HT]; [by eapply list_elem_of_lookup_2|done|].
      unfold entry_on, on_link in *. rewrite HF, HT. lia.
Qed.

(** *** A start node without peers *)

Lemma isolated_invariant sim st0 tt0 s :
  peers_of sim st0 = [] → reachable sim s → inv_isolated st0 tt0 s.
Proof.
  intros Hpeers.
  induction 1 as [|l s s' Hr IH HS] using reachable_ind.
  - intros _. split_and!; try done.
    apply Forall_forall. by intros a ->%elem_of_replicate_inv.
  - unfold inv_isolated, collected in *.
    step_cases HS; simpl; rewrite ?calls_app; simpl; rewrite ?app_nil_r;
      intros Hcalls.
    all: try (destruct (IH Hcalls) as (IHs & IHc & IHe & IHf & IHm); clear IH).
    all: try (rewrite IHs in *; done).
    all: try (split_and!; done).
    + (* an actor begins *)
      split_and!; try done.
      apply Forall_insert; done.
    + (* the call *)
      destruct IH as (IHs & IHc & IHe & IHf & IHm).
      { destruct Hcalls as [[_ ?]%app_nil|Hc]; [done|].
        destruct (calls (history s)); [by left|].
        by destruct l; simplify_eq/=. }
      assert (calls (history s) = []) as Hnil.
      { destruct Hcalls as [[_ ?]%app_nil|Hc]; [done|].
        destruct (calls (history s)) as [|c l]; [done|].
        by destruct l; simplify_eq/=. }
      rewrite count_app. simpl. split_and!; try done; [lia|].
      intros st m w [= <- <- <-]. by rewrite Hnil.
    + (* the seed fan-out *)
      specialize (IHm _ _ _ Hm).
      assert (start = st0) as ->.
      { destruct Hcalls as [Hc|Hc]; rewrite Hc in IHm; by simplify_eq. }
      unfold propagateMessage. rewrite IHs, Hpeers, count_app. simpl.
      split_and!; try done. lia.
    + (* a relay *)
      exfalso. by apply (proj1 (Forall_lookup _ _) IHf _ _ Ha).
    + (* the timer *)
      rewrite count_app. simpl. split_and!; try done; [lia|].
      apply Forall_insert; done.
    + (* the round returns *)
      rewrite Hm in IHc. split_and!; done.
Qed.

(** *** Receivers *)

Lemma receiver_invariant sim s : reachable sim s → inv_receiver sim s.
Proof.
  induction 1 as [|l s s' Hr [IHs IHc] HS] using reachable_ind.
  - split; [by intros ? ?%elem_of_nil|by intros ?? ?%elem_of_nil].
  - pose proof (entries_invariant _ _ Hr) as Hent.
    assert (∀ k sd, senders s !! k = Some sd → handed sd = true →
              valid_idx sim (sto sd) = true) as IHk
      by (intros; eapply IHs; [by eapply list_elem_of_lookup_2|done]).
    unfold inv_receiver, collected in *.
    step_cases HS; simpl; split; try done.
    all: try (by intros ?? ?%elem_of_nil).
    all: try (intros sd' [->|Hin]%elem_insert_inv; simpl; [done|by apply IHs]).
    all: try (intros sd' [Hin|Hin%elem_spawn]%elem_of_app; [by apply IHs|];
              destruct Hin as (_ & _ & _ & Hph & _); unfold handed; by rewrite Hph).
    + intros sd' [->|Hin]%elem_insert_inv; simpl; [|by apply IHs].
      intros _. apply (IHk _ _ Hk). unfold handed. by rewrite Hph.
    + intros sd' Hin%elem_delete_inv. by apply IHs.
    + rewrite Hm in IHc.
      intros e' g' [Hin|Hin%list_elem_of_singleton]%elem_of_app; [by eapply IHc|].
      simplify_eq.
      destruct (Hent sd e) as [_ ->]; [by eapply list_elem_of_lookup_2|done|].
      apply (IHk _ _ Hk). unfold handed. by rewrite Hph.
    + by rewrite Hm in IHc.
Qed.

(** *** A topology without nodes *)

Lemma no_nodes_invariant sim s :
  nodeCount sim = 0%nat → reachable sim s →
  collected s = [] ∧ count handed (senders s) = 0 ∧ actors s = [] ∧
  count (λ e, match e with EvRecv _ _ _ _ => true | _ => false end) (history s) = 0.
Proof.
  intros Hn.
  induction 1 as [|l s s' Hr (IHc & IHh & IHa & IHr) HS] using reachable_ind.
  - unfold init. rewrite Hn. done.
  - unfold collected in *.
    step_cases HS; simpl; rewrite ?count_app, ?handed_spawn; simpl.
    all: try (rewrite IHa in Ha; done).
    all: try (exfalso;
              assert (handed sd = true) as Hh by (unfold handed; by rewrite Hph);
              pose proof (count_pos_lookup handed _ _ _ Hk Hh); lia).
    all: try match goal with H : main _ = MCollect _ |- _ => rewrite H in IHc end.
    all: split_and!; first [done | lia].
Qed.

Lemma seeds_invariant sim s : reachable sim s → inv_seeds s.
Proof.
  induction 1 as [|l s s' Hr IH HS] using reachable_ind.
  - intros f. unfold seeds. simpl. lia.
  - intros f. specialize (IH f). unfold seeds in *.
    step_cases HS; simpl; rewrite ?calls_app, ?count_app, ?length_app; simpl;
      rewrite ?app_nil_r; try lia.
    + destruct Hm as [Hm|[ret Hm]]; rewrite Hm in IH; simpl in IH;
        destruct (bool_decide (start = f)); simpl; lia.
    + rewrite Hm in IH. simpl in IH. lia.
    + rewrite Hm in IH. simpl in IH. lia.
    + rewrite Hm in IH. simpl in IH. lia.
Qed.

(** *** Routes are simple *)

Lemma relays_app h evs f c : relays (h ++ evs) f c = relays h f c + relays evs f c.
Proof. apply count_app. Qed.

Lemma relays_nonneg h f c : 0 ≤ relays h f c.
Proof. apply count_nonneg. Qed.

Lemma simple_route_mono sim h evs g :
  simple_route sim h g → simple_route sim (h ++ evs) g.
Proof.
  intros [Hnd Hx]. split; [done|]. intros x Hin. destruct (Hx x Hin) as [Hr Hrel].
  split; [done|]. rewrite relays_app. pose proof (relays_nonneg evs x "dummy"). lia.
Qed.

Lemma tail_snoc {A} (l : list A) x : l ≠ [] → tail (l ++ [x]) = tail l ++ [x].
Proof. by destruct l. Qed.

Lemma simple_invariant sim s : reachable sim s → inv_simple sim s.
Proof.
  induction 1 as [|l s s' Hr (IHs & IHf & IHc) HS] using reachable_ind.
  - split_and!.
    + by intros ? ?%elem_of_nil.
    + by intros ????? ?%elem_of_replicate_inv.
    + by intros ?? ?%elem_of_nil.
  - assert (∀ k sd, senders s !! k = Some sd →
              simple_route sim (history s) (stag sd)) as IHk
      by (intros; eapply IHs, list_elem_of_lookup_2; eassumption).
    unfold inv_simple, collected in *.
    step_cases HS; simpl.
    all: try match goal with H : main _ = MCollect _ |- _ => rewrite H in IHc end.
    all: split_and!; try done.
    all: try (by intros ?? ?%elem_of_nil).
    all: try (intros sd' Hin; apply simple_route_mono; by apply IHs).
    all: try (intros e' g' Hin; apply simple_route_mono; by eapply IHc).
    all: try (intros t' ca' m' g' w' Hin; apply simple_route_mono; by eapply IHf).
    all: try (intros t' ca' m' g' w' [?|Hin]%elem_insert_inv;
              [done|apply simple_route_mono || idtac; by eapply IHf]).
    all: try (intros sd' [->|Hin]%elem_insert_inv; simpl;
              apply simple_route_mono || idtac; [by eapply IHk|by apply IHs]).
    + (* the seed fan-out *)
      intros sd' [Hin|Hin%elem_spawn]%elem_of_app;
        [apply simple_route_mono; by apply IHs|].
      destruct Hin as (_ & _ & _ & _ & ->). split; [apply NoDup_nil_2|].
      by intros x ?%elem_of_nil.
    + (* a message is accepted *)
      intros t' ca' m' g' w' [Heq|Hin]%elem_insert_inv;
        [|apply simple_route_mono; by eapply IHf].
      simplify_eq. apply simple_route_mono. by eapply IHk.
    + (* a relay *)
      intros sd' [Hin|Hin%elem_spawn]%elem_of_app;
        [apply simple_route_mono; by apply IHs|].
      destruct Hin as (_ & _ & _ & _ & ->).
      assert (AForward t cache m g wake ∈ actors s) as Hin
        by (by eapply list_elem_of_lookup_2).
      destruct (IHf _ _ _ _ _ Hin) as [Hnd Hx].
      destruct (tags_invariant _ _ Hr) as (_ & _ & _ & Hfwd & _).
      destruct (Hfwd _ _ _ _ _ Hin) as (Hcont & _ & _ & Hhop & _).
      destruct (inv_shape _ _ Hr) as [Hlen _].
      pose proof (lookup_lt_Some _ _ _ Ha) as Hlt.
      assert (relays (history s) (Z.of_nat i) "dummy" = 0) as Hnone.
      { pose proof (dedup_invariant _ _ Hr (Z.of_nat i) "dummy") as [Hd _].
        rewrite actor_at_of_nat, Ha in Hd. simpl in Hd.
        rewrite bool_decide_eq_true_2 in Hd by done. simpl in Hd.
        pose proof (relays_nonneg (history s) (Z.of_nat i) "dummy"). lia. }
      assert (route g ≠ []) as Hne.
      { unfold hop in Hhop. destruct (route g); [simpl in Hhop; lia|done]. }
      unfold simple_route, relay_tag. simpl. rewrite tail_snoc by done. split.
      * apply NoDup_app. split_and!; [done| |apply NoDup_singleton].
        intros x Hxin Hxi%list_elem_of_singleton. subst x.
        destruct (Hx _ Hxin) as [_ Hrel]. lia.
      * intros x [Hxin|Hxi%list_elem_of_singleton]%elem_of_app; [|subst x].
        -- destruct (Hx _ Hxin) as [Hrange Hrel]. split; [done|].
           rewrite relays_app. pose proof (relays_nonneg
             [EvFanout (Z.of_nat i) (Content m) false] x "dummy"). lia.
        -- split; [lia|]. rewrite relays_app, Hnone. unfold relays at 1. simpl.
           rewrite bool_decide_eq_true_2 by done. simpl. lia.
    + (* an entry is collected *)
      intros sd' Hin%elem_delete_inv. by apply IHs.
    + intros e' g' [Hin|Hin%list_elem_of_singleton]%elem_of_app; [by eapply IHc|].
      simplify_eq. by eapply IHk.
Qed.

(** Distinct indices of nodes are no more than the nodes. *)
Lemma NoDup_range_length (l : list Z) (n : nat) :
  NoDup l → (∀ x, x ∈ l → 0 ≤ x < Z.of_nat n) → (length l ≤ n)%nat.
Proof.
  intros Hnd Hr.
  assert ((list_to_set l : gset Z) ⊆ list_to_set (seqZ 0 (Z.of_nat n))) as Hs%subseteq_size.
  { intros x. rewrite !elem_of_list_to_set, elem_of_seqZ. intros Hx%Hr. lia. }
  rewrite (size_list_to_set l), (size_list_to_set (seqZ _ _)), length_seqZ in Hs
    by (done || apply NoDup_seqZ).
  lia.
Qed.

(** ** Properties of the engine *)

(** X1. The wait group: [NewSimulator] adds one count per node and every
    [runNode] goroutine takes one off when it returns, so in every state
    the counter is the number of [runNode] goroutines that have not
    returned. It is never negative, a transition leaves it or lowers it by
    one, it is zero exactly when every actor has returned, and
    [SendMessage] returns only then. *)
Theorem waitgroup_counts_live_actors sim s :
  reachable sim s →
  length (actors s) = nodeCount sim ∧
  wg s = count running (actors s) ∧
  0 ≤ wg s ≤ Z.of_nat (nodeCount sim) ∧
  (wg s = 0 ↔ all_exited (actors s)) ∧
  (∀ l s', step sim l s = Some s' → wg s' = wg s ∨ wg s' = wg s - 1) ∧
  (∀ ret, main s = MReturned ret → all_exited (actors s)).
Proof.
  intros Hr. destruct (inv_shape _ _ Hr) as [Hlen Hwg].
  pose proof (count_nonneg running (actors s)).
  pose proof (count_le_length running (actors s)).
  split_and!; try done; try lia.
  - by rewrite all_exited_count, Hwg.
  - intros l s' HS%step_Step. destruct HS; simpl; auto.
  - intros ret Hm. apply all_exited_count. rewrite <- Hwg.
    pose proof (round_invariant _ _ Hr) as Hround. unfold inv_round in Hround.
    by rewrite Hm in Hround.
Qed.

Lemma waitgroup_counts_live_actors_witness :
  reachable pair_sim relay_state ∧
  wg relay_state = count running (actors relay_state) ∧
  reachable pair_sim prompt_state ∧ all_exited (actors prompt_state).
Proof.
  assert (reachable pair_sim relay_state) as Hr
    by (exists relay_run; vm_compute; reflexivity).
  assert (reachable pair_sim prompt_state) as Hp
    by (exists prompt_run; vm_compute; reflexivity).
  split_and!; [exact Hr| |exact Hp|].
  - apply (waitgroup_counts_live_actors pair_sim relay_state Hr).
  - destruct (waitgroup_counts_live_actors pair_sim prompt_state Hp)
      as (_ & _ & _ & _ & _ & Hret).
    apply (Hret [( {| Ts := 10; From := 0; To := 1 |}, seed_tag 0 1)]).
    vm_compute. reflexivity.
Defined.

(** X2. A simulator serves one round: once [SendMessage] has returned,
    every [runNode] goroutine has returned for good, so whatever is done
    with the simulator afterwards no message is handed over again. A
    later round dispatches goroutines that stay blocked on their channel
    send, and the entries it collects, with the goroutines still past
    their send, are at most the goroutines that the earlier rounds left
    past their send. *)
Theorem simulator_serves_one_round sim s ret :
  reachable sim s → main s = MReturned ret →
  ∀ ls s', run sim ls s = Some s' →
    all_exited (actors s') ∧
    (∀ k, step sim (LRecv k) s' = None) ∧
    (∀ f t, count (is_recv f t) (history s') = count (is_recv f t) (history s)) ∧
    count sending (senders s) ≤ count sending (senders s') ∧
    count handed (senders s') ≤ count handed (senders s) ∧
    ((length (calls (history s)) < length (calls (history s')))%nat →
     Z.of_nat (length (collected s')) + count handed (senders s')
     ≤ count handed (senders s)).
Proof.
  intros Hr Hm ls s' Hrun.
  assert (all_exited (actors s)) as Hq.
  { apply all_exited_count. destruct (inv_shape _ _ Hr) as [_ <-].
    pose proof (round_invariant _ _ Hr) as Hround. unfold inv_round in Hround.
    by rewrite Hm in Hround. }
  destruct (quiet_run _ _ _ _ Hrun Hq) as (Hq' & Hrecv & Hh & Hs & _ & Hp).
  split_and!; try done.
  - intros k. by apply quiet_blocked.
  - intros Hlt. specialize (Hp Hlt). unfold pending in Hp. lia.
Qed.

Lemma simulator_serves_one_round_witness :
  reachable pair_sim prompt_state ∧
  run pair_sim [LCall 0 1; LTick 10; LInject; LDone] prompt_state = Some second_state ∧
  all_exited (actors second_state) ∧
  count sending (senders prompt_state) ≤ count sending (senders second_state).
Proof.
  assert (reachable pair_sim prompt_state) as Hr
    by (exists prompt_run; vm_compute; reflexivity).
  assert (run pair_sim [LCall 0 1; LTick 10; LInject; LDone] prompt_state
          = Some second_state) as Hrun by (vm_compute; reflexivity).
  assert (main prompt_state
          = MReturned [( {| Ts := 10; From := 0; To := 1 |}, seed_tag 0 1)]) as Hm
    by (vm_compute; reflexivity).
  destruct (simulator_serves_one_round pair_sim prompt_state _ Hr Hm _ _ Hrun)
    as (Hq & _ & _ & Hs & _).
  split_and!; [exact Hr|exact Hrun|exact Hq|exact Hs].
Defined.

(** X3. Timestamps: the timestamp of a log entry is never negative, and
    in the first round of a simulator an entry on the h-th hop of its
    message is stamped no earlier than h delays after the start of the
    round, [propagateMessage] sleeping one delay before every fan-out (a
    delay below zero counts as none). *)
Theorem timestamps_by_hop sim s :
  reachable sim s →
  simulationStart s ≤ now s ∧
  (∀ e g, (e, g) ∈ collected s → 0 ≤ Ts e) ∧
  ((length (calls (history s)) ≤ 1)%nat →
   ∀ e g, (e, g) ∈ collected s →
     Z.of_nat (length (route g)) * Z.max 0 (delay sim) ≤ Ts e).
Proof.
  intros Hr. destruct (time_invariant _ _ Hr) as (Hclock & _ & Hts).
  split_and!; [done|done|].
  intros Hlen e g Hin. by apply (hops_invariant _ _ Hr Hlen).
Qed.

Lemma timestamps_by_hop_witness :
  reachable pair_sim relay_state ∧
  (λ r, (Ts r.1, route r.2)) <$> collected relay_state = [(10, [0]); (20, [0; 1])] ∧
  ∀ e g, (e, g) ∈ collected relay_state →
    Z.of_nat (length (route g)) * Z.max 0 (delay pair_sim) ≤ Ts e.
Proof.
  assert (reachable pair_sim relay_state) as Hr
    by (exists relay_run; vm_compute; reflexivity).
  split_and!; [exact Hr|vm_compute; reflexivity|].
  apply (timestamps_by_hop pair_sim relay_state Hr).
  vm_compute. lia.
Defined.

(** X4. The caller is never stuck: from every state of a round in which
    no goroutine has panicked there is a schedule on which [SendMessage]
    returns, and returns exactly the entries it has collected so far: the
    actors idle out one after the other, and the select takes [done] while
    entries may still wait on [reportCh]. *)
Theorem SendMessage_can_return sim s :
  reachable sim s → panicked s = false →
  (∀ ret, main s = MCollect ret →
     ∃ ls s', run sim ls s = Some s' ∧ main s' = MReturned ret ∧ panicked s' = false) ∧
  (∀ start m w, main s = MSleep start m w →
     ∃ ls s', run sim ls s = Some s' ∧ main s' = MReturned [] ∧ panicked s' = false).
Proof.
  intros Hr Hp.
  pose proof (collect_can_return sim) as Hcollect.
  split.
  - intros ret Hm. by apply Hcollect.
  - intros start m w Hm.
    assert (step sim (LTick (Z.max 1 (w - now s))) s
            = Some (with_now (now s + Z.max 1 (w - now s)) s)) as H1
      by (apply Step_step, STick; [done|lia]).
    assert (∃ s2, step sim LInject (with_now (now s + Z.max 1 (w - now s)) s) = Some s2
                  ∧ main s2 = MCollect [] ∧ panicked s2 = false) as (s2 & H2 & Hm2 & Hp2).
    { eexists. split; [apply Step_step; eapply SInject; [done|done|simpl; lia]|done]. }
    destruct (Hcollect s2 []) as (ls & s' & Hrun & Hm' & Hp'); [|done|done|].
    { eapply reachable_step; [|exact H2]. by eapply reachable_step. }
    exists (LTick (Z.max 1 (w - now s)) :: LInject :: ls), s'.
    simpl. rewrite H1, H2. done.
Qed.

Lemma SendMessage_can_return_witness :
  reachable pair_sim zero_seed_state ∧ panicked zero_seed_state = false ∧
  main zero_seed_state = MCollect [] ∧
  ∃ ls s', run pair_sim ls zero_seed_state = Some s' ∧ main s' = MReturned [] ∧
           panicked s' = false.
Proof.
  assert (reachable pair_sim zero_seed_state) as Hr
    by (exists zero_seed_run; vm_compute; reflexivity).
  assert (panicked zero_seed_state = false) as Hp by (vm_compute; reflexivity).
  assert (main zero_seed_state = MCollect []) as Hm by (vm_compute; reflexivity).
  split_and!; [exact Hr|exact Hp|exact Hm|].
  exact (proj1 (SendMessage_can_return pair_sim zero_seed_state Hr Hp) [] Hm).
Defined.

(** X5. [SendMessage] returns only when every node's [runNode] has
    returned, on the ttl test or on its idle timer, and a timer does not
    fire before ten seconds after [NewSimulator]: unless every node has
    met a ttl of zero the round lasts until then, and so does every round
    called with ttl <= 0 on a simulator with a node. *)
Theorem SendMessage_waits_for_every_actor sim s ret :
  reachable sim s → main s = MReturned ret →
  (∀ i, (i < nodeCount sim)%nat →
     actors s !! i = Some AExited ∧
     (EvExpire (Z.of_nat i) ∈ history s ∨ EvTimeout (Z.of_nat i) ∈ history s)) ∧
  (∀ i, (i < nodeCount sim)%nat → EvExpire (Z.of_nat i) ∉ history s →
     10 * 1000000000 ≤ now s) ∧
  ((0 < nodeCount sim)%nat → Z.of_nat (nodeCount sim) < 2 ^ 63 →
   (∀ start ttl, EvCall start ttl ∈ history s → ttl ≤ 0) →
   10 * 1000000000 ≤ now s).
Proof.
  intros Hr Hm.
  destruct (inv_shape _ _ Hr) as [Hlen Hwg].
  destruct (exit_invariant _ _ Hr) as [_ Hex].
  assert (all_exited (actors s)) as Hq.
  { apply all_exited_count. rewrite <- Hwg.
    pose proof (round_invariant _ _ Hr) as Hround. unfold inv_round in Hround.
    by rewrite Hm in Hround. }
  assert (∀ i, (i < nodeCount sim)%nat → actors s !! i = Some AExited) as Hall.
  { intros i Hi. destruct (lookup_lt_is_Some_2 (actors s) i) as [a Ha]; [lia|].
    by rewrite (all_exited_lookup _ _ _ Hq Ha) in Ha. }
  assert (∀ i, (i < nodeCount sim)%nat → EvExpire (Z.of_nat i) ∉ history s →
            10 * 1000000000 ≤ now s) as Hlate.
  { intros i Hi Hne. pose proof (Hex _ _ (Hall i Hi)) as [He|[_ Ht]]; done. }
  split_and!; [|done|].
  - intros i Hi. split; [by apply Hall|].
    pose proof (Hex _ _ (Hall i Hi)) as [He|[Ht _]]; auto.
  - intros Hpos Hn Hcalls. apply (Hlate 0%nat Hpos).
    intros Hin. pose proof (no_expire _ _ Hn Hr Hcalls) as H0.
    by pose proof (count_zero_inv is_expire _ _ H0 Hin).
Qed.

Lemma SendMessage_waits_for_every_actor_witness :
  reachable pair_sim zero_ttl_state ∧
  returned zero_ttl_state ≠ None ∧
  10 * 1000000000 ≤ now zero_ttl_state.
Proof.
  assert (reachable pair_sim zero_ttl_state) as Hr
    by (exists zero_ttl_run; vm_compute; reflexivity).
  split_and!; [exact Hr|vm_compute; discriminate|].
  refine (proj1 (proj2 (SendMessage_waits_for_every_actor pair_sim zero_ttl_state _ Hr _))
            0%nat _ _).
  - vm_compute. reflexivity.
  - vm_compute. lia.
  - vm_compute. intros Hin.
    repeat (apply elem_of_cons in Hin as [Hin|Hin]; [discriminate Hin|]).
    by apply elem_of_nil in Hin.
Defined.

(** X6. The books of the first round: until [SendMessage] is called a
    second time, the goroutines of [sendMessage] alive on a link together
    with the entries collected on it are exactly the fan-outs of its
    source, one per parallel link; a node fans out once for each seed
    injected at it, of which there is at most one per call, and at most
    once more on a receipt. No entry is made up or collected twice, and one
    is missing from the log only while its goroutine is still there. *)
Theorem first_round_ledger sim s :
  reachable sim s → (length (calls (history s)) ≤ 1)%nat →
  (∀ f t, count (on_link f t) (senders s) + logged f t (collected s)
          = mult t (peers_of sim f) * fanouts (history s) f) ∧
  (∀ f, fanouts (history s) f = seeds (history s) f + relays (history s) f "dummy" ∧
        0 ≤ seeds (history s) f ≤ Z.of_nat (length (calls (history s))) ∧
        0 ≤ relays (history s) f "dummy" ≤ 1) ∧
  (∀ f t, logged f t (collected s) ≤ 2 * mult t (peers_of sim f)).
Proof.
  intros Hr Hlen.
  pose proof (ledger_invariant _ _ Hr Hlen) as Hledger.
  destruct (tags_invariant _ _ Hr) as (Hc & _).
  assert (∀ f, fanouts (history s) f = seeds (history s) f + relays (history s) f "dummy" ∧
               0 ≤ seeds (history s) f ≤ Z.of_nat (length (calls (history s))) ∧
               0 ≤ relays (history s) f "dummy" ≤ 1) as Hfan.
  { intros f. pose proof (seeds_invariant _ _ Hr f) as Hseeds.
    pose proof (relays_bound _ _ f "dummy" Hr).
    pose proof (count_nonneg (is_seed f) (history s)).
    pose proof (count_nonneg (is_relay f "dummy") (history s)).
    unfold seeds, relays in *.
    split_and!; try done; try lia.
    - by apply fanouts_split.
    - destruct (seeding f (main s)); simpl in Hseeds; lia. }
  split_and!; [done|done|].
  intros f t. specialize (Hledger f t). destruct (Hfan f) as (Hsplit & Hs & Hrel).
  pose proof (count_nonneg (on_link f t) (senders s)).
  pose proof (mult_nonneg t (peers_of sim f)). nia.
Qed.

Lemma first_round_ledger_witness :
  reachable pair_sim relay_state ∧ (length (calls (history relay_state)) ≤ 1)%nat ∧
  count (on_link 0 1) (senders relay_state) + logged 0 1 (collected relay_state)
  = mult 1 (peers_of pair_sim 0) * fanouts (history relay_state) 0.
Proof.
  assert (reachable pair_sim relay_state) as Hr
    by (exists relay_run; vm_compute; reflexivity).
  assert (length (calls (history relay_state)) ≤ 1)%nat as Hlen by (vm_compute; lia).
  split_and!; [exact Hr|exact Hlen|].
  exact (proj1 (first_round_ledger pair_sim relay_state Hr Hlen) 0 1).
Defined.

(** X7. A topology without nodes: [NewSimulator] starts no actor and
    the wait group is zero from the start, so [SendMessage] can return as
    soon as its own Sleep has ended, and whatever the schedule no message
    is ever handed over and the log is empty. *)
Theorem empty_topology_returns_nothing sim :
  nodeCount sim = 0%nat →
  (∀ start ttl, GoInt.is_int start → GoInt.is_int ttl →
     ∃ s', run sim (lone_run sim start ttl) (init sim) = Some s' ∧
           returned s' = Some [] ∧ now s' = Z.max 1 (delay sim)) ∧
  (∀ s, reachable sim s →
     collected s = [] ∧ actors s = [] ∧ wg s = 0 ∧
     (∀ f t, count (is_recv f t) (history s) = 0) ∧
     (∀ sd, sd ∈ senders s → sphase sd = PSend)).
Proof.
  intros Hn. split.
  - intros start ttl Hs Ht. unfold lone_run. eexists. simpl.
    erewrite Step_step; [|apply SCall; [done|done|done|by left]].
    erewrite Step_step; [|apply STick; [done|lia]].
    erewrite Step_step; [|eapply SInject; [done|done|simpl; unfold sleep_until; lia]].
    erewrite Step_step; [|eapply SDone; [done|done|simpl; by rewrite Hn]].
    done.
  - intros s Hr. destruct (no_nodes_invariant _ _ Hn Hr) as (Hc & Hh & Ha & Hrecv).
    destruct (inv_shape _ _ Hr) as [_ Hwg]. rewrite Ha in Hwg.
    split_and!; try done.
    + intros f t. pose proof (count_nonneg (is_recv f t) (history s)).
      assert (count (is_recv f t) (history s)
              ≤ count (λ e, match e with EvRecv _ _ _ _ => true | _ => false end)
                  (history s)); [|lia].
      clear. induction (history s) as [|e h IH]; simpl; [lia|].
      destruct e; simpl; try lia. destruct (bool_decide _); simpl; lia.
    + intros sd Hin. pose proof (count_zero_inv handed _ sd Hh Hin) as Hsd.
      unfold handed in Hsd. by destruct (sphase sd).
Qed.

Lemma empty_topology_returns_nothing_witness :
  nodeCount empty_sim = 0%nat ∧
  returned <$> run empty_sim (lone_run empty_sim 0 3) (init empty_sim) = Some (Some []).
Proof.
  assert (nodeCount empty_sim = 0%nat) as Hn by reflexivity.
  split; [exact Hn|].
  destruct (proj1 (empty_topology_returns_nothing empty_sim Hn) 0 3)
    as (s' & Hrun & Hret & _);
    [vm_compute; split; discriminate..|].
  rewrite Hrun. simpl. by rewrite Hret.
Defined.

(** X8. A round started at an index whose peer list is empty or missing
    (a node without links, an index that names no node): the seed fan-out
    dispatches nothing, no goroutine of [sendMessage] ever exists, no
    actor meets the ttl test, and the first round returns the empty log,
    not before every actor has idled out ten seconds after
    [NewSimulator]. *)
Theorem isolated_start_returns_empty sim start ttl s :
  peers_of sim start = [] →
  reachable sim s → calls (history s) = [(start, ttl)] →
  senders s = [] ∧ collected s = [] ∧ count is_expire (history s) = 0 ∧
  (∀ ret, main s = MReturned ret →
     ret = [] ∧ ((0 < nodeCount sim)%nat → 10 * 1000000000 ≤ now s)).
Proof.
  intros Hpeers Hr Hcalls.
  destruct (isolated_invariant sim start ttl s Hpeers Hr) as (Hs & Hc & He & _);
    [by right|].
  split_and!; try done.
  intros ret Hm. unfold collected in Hc. rewrite Hm in Hc. split; [done|].
  intros Hpos.
  destruct (inv_shape _ _ Hr) as [Hlen Hwg].
  destruct (exit_invariant _ _ Hr) as [_ Hex].
  assert (all_exited (actors s)) as Hq.
  { apply all_exited_count. rewrite <- Hwg.
    pose proof (round_invariant _ _ Hr) as Hround. unfold inv_round in Hround.
    by rewrite Hm in Hround. }
  destruct (lookup_lt_is_Some_2 (actors s) 0) as [a Ha]; [lia|].
  pose proof (all_exited_lookup _ _ _ Hq Ha) as ->.
  destruct (Hex _ _ Ha) as [Hin|[_ Ht]]; [|done].
  by pose proof (count_zero_inv is_expire _ _ He Hin).
Qed.

Lemma isolated_start_returns_empty_witness :
  peers_of pair_sim 7 = [] ∧ reachable pair_sim bad_start_state ∧
  calls (history bad_start_state) = [(7, 1)] ∧
  returned bad_start_state = Some [] ∧ 10 * 1000000000 ≤ now bad_start_state.
Proof.
  assert (peers_of pair_sim 7 = []) as Hpeers by (vm_compute; reflexivity).
  assert (reachable pair_sim bad_start_state) as Hr
    by (exists bad_start_run; vm_compute; reflexivity).
  assert (calls (history bad_start_state) = [(7, 1)]) as Hc by (vm_compute; reflexivity).
  assert (main bad_start_state = MReturned []) as Hm by (vm_compute; reflexivity).
  destruct (isolated_start_returns_empty pair_sim 7 1 bad_start_state Hpeers Hr Hc)
    as (_ & _ & _ & Hret).
  destruct (Hret [] Hm) as [_ Hlate].
  split_and!; [exact Hpeers|exact Hr|exact Hc|vm_compute; reflexivity|].
  apply Hlate. vm_compute. lia.
Defined.

(** X9. Receivers are nodes: a message is handed over only through the
    channel of a node, so the receiving index of every log entry names a
    node of the topology, whatever the peer lists hold; the node
    statistics of a log made of such entries never stop on an unknown
    node. *)
Theorem log_receivers_are_nodes {Histogram : Type} (hist0 : Histogram)
    (Add : Histogram → Z → Histogram)
    (order : gmap string Z → list (string * Z)) sim s :
  reachable sim s →
  (∀ e g, (e, g) ∈ collected s →
     0 ≤ To e < Z.of_nat (nodeCount sim) ∧ is_Some (NodeIDByIdx (data sim) (To e))) ∧
  (∀ sd, sd ∈ senders s → handed sd = true → 0 ≤ sto sd < Z.of_nat (nodeCount sim)) ∧
  (∀ plog,
     (∀ j, j ∈ Stats.receivers plog → ∃ e g, (e, g) ∈ collected s ∧ To e = j) →
     Stats.Analyze hist0 Add order (data sim) plog ≠ None).
Proof.
  intros Hr. destruct (receiver_invariant _ _ Hr) as [Hs Hc].
  assert (∀ e g, (e, g) ∈ collected s → 0 ≤ To e < Z.of_nat (nodeCount sim)) as Hto.
  { intros e g Hin. specialize (Hc _ _ Hin). by apply bool_decide_eq_true in Hc. }
  split_and!.
  - intros e g Hin. split; [by eapply Hto|]. apply NodeIDByIdx_valid. by eapply Hto.
  - intros sd Hin Hh. specialize (Hs _ Hin Hh). by apply bool_decide_eq_true in Hs.
  - intros plog Hplog Hnone.
    apply analyze_None, hits_None in Hnone as (j & Hj & Hn).
    destruct (Hplog j Hj) as (e & g & Hin & <-).
    apply NodeIDByIdx_None in Hn. apply Hn. by eapply Hto.
Qed.

Lemma log_receivers_are_nodes_witness :
  reachable pair_sim relay_state ∧
  (To ∘ fst) <$> collected relay_state = [1; 0] ∧
  ∀ e g, (e, g) ∈ collected relay_state →
    0 ≤ To e < Z.of_nat (nodeCount pair_sim) ∧ is_Some (NodeIDByIdx (data pair_sim) (To e)).
Proof.
  assert (reachable pair_sim relay_state) as Hr
    by (exists relay_run; vm_compute; reflexivity).
  split_and!; [exact Hr|vm_compute; reflexivity|].
  apply (log_receivers_are_nodes tt (λ h _, h) map_to_list pair_sim relay_state Hr).
Defined.

(** X18. A hop can be logged: on a fresh simulator, for every peer of the
    start index that names a node, there is a schedule on which
    [SendMessage(start, ttl)] returns a log that holds the entry of the
    first hop to that peer, stamped with the time the caller slept before
    the fan-out: the actor of the peer takes the seed from its channel,
    the goroutine of [sendMessage] makes the entry and the select loop
    collects it before it takes [done]. *)
Theorem first_hop_can_be_logged sim start ttl k t :
  GoInt.is_int start → GoInt.is_int ttl →
  peers_of sim start !! k = Some t → valid_idx sim t = true →
  ∃ ls s',
    run sim ls (init sim) = Some s' ∧ panicked s' = false ∧
    returned s' = Some [ {| Ts := Z.max 1 (delay sim); From := start; To := t |} ].
Proof.
  intros Hstart Httl Hk Hv.
  apply valid_idx_to_nat in Hv as Hnat. destruct Hnat as [Hto Hlt].
  set (i := Z.to_nat t) in *.
  set (m := {| Content := "dummy"; TTL := ttl |}).
  set (sd := {| sfrom := start; sto := t; smsg := m; sphase := PSend;
                stag := seed_tag start ttl |}).
  set (e := {| Ts := Z.max 1 (delay sim); From := start; To := t |}).
  assert (propagateMessage sim start m (seed_tag start ttl) !! k = Some sd) as Hsd.
  { unfold propagateMessage. by rewrite list_lookup_fmap, Hk. }
  pose proof (lookup_lt_Some _ _ _ Hsd) as Hklt.
  assert (∃ s7, run sim [LBoot i; LCall start ttl; LTick (Z.max 1 (delay sim)); LInject;
                         LRecv k; LEntry k; LReport k] (init sim) = Some s7 ∧
                main s7 = MCollect [(e, seed_tag start ttl)] ∧ panicked s7 = false)
    as (s7 & Hrun & Hm7 & Hp7).
  { simpl.
    erewrite Step_step;
      [|apply SBoot; [done|simpl; by apply lookup_replicate_2]].
    erewrite Step_step; [|apply SCall; [done|done|done|by left]].
    erewrite Step_step; [|apply STick; [done|lia]].
    erewrite Step_step;
      [|eapply SInject; [done|done|simpl; unfold sleep_until; lia]].
    assert (NewLogEntry (0 + Z.max 1 (delay sim)) 0 start t = e) as He
      by (unfold NewLogEntry, e; f_equal; lia).
    destruct (decide (GoInt.dec ttl = 0)) as [Hz|Hnz].
    - erewrite Step_step;
        [|eapply (SRecvExpire _ _ k sd);
          [done|done|done|done
          |simpl; fold i; apply list_lookup_insert_eq; by rewrite length_replicate
          |done|done]].
      erewrite Step_step;
        [|eapply (SEntry _ _ k (with_phase PEntry sd));
          [done|simpl; by apply list_lookup_insert_eq|done]].
      erewrite Step_step;
        [|eapply (SReport _ _ k);
          [done|simpl; rewrite list_insert_insert_eq; by apply list_lookup_insert_eq
          |done|done]].
      eexists. split; [done|]. simpl. by rewrite He.
    - erewrite Step_step;
        [|eapply (SRecvForward _ _ k sd);
          [done|done|done|done
          |simpl; fold i; apply list_lookup_insert_eq; by rewrite length_replicate
          |done|done]].
      erewrite Step_step;
        [|eapply (SEntry _ _ k (with_phase PEntry sd));
          [done|simpl; by apply list_lookup_insert_eq|done]].
      erewrite Step_step;
        [|eapply (SReport _ _ k);
          [done|simpl; rewrite list_insert_insert_eq; by apply list_lookup_insert_eq
          |done|done]].
      eexists. split; [done|]. simpl. by rewrite He. }
  assert (reachable sim s7) as Hr7 by (eexists; exact Hrun).
  destruct (collect_can_return sim s7 _ Hr7 Hp7 Hm7) as (ls & s' & Hrun' & Hm' & Hp').
  eexists (_ ++ ls), s'. rewrite run_app, Hrun. simpl.
  split_and!; [done|done|]. unfold returned. by rewrite Hm'.
Qed.

Lemma first_hop_can_be_logged_witness :
  peers_of pair_sim 0 !! 0%nat = Some 1 ∧
  ∃ ls s', run pair_sim ls (init pair_sim) = Some s' ∧ panicked s' = false ∧
           returned s' = Some [ {| Ts := Z.max 1 (delay pair_sim); From := 0; To := 1 |} ].
Proof.
  assert (peers_of pair_sim 0 !! 0%nat = Some 1) as Hk by (vm_compute; reflexivity).
  split; [exact Hk|].
  apply (first_hop_can_be_logged pair_sim 0 1 0 1); try exact Hk;
    vm_compute; first [reflexivity | split; discriminate].
Defined.

(** X19. Routes are simple paths: the nodes that have relayed the message
    of a log entry, its route after the start index, are pairwise distinct
    nodes of the topology, each of which has run the fan-out of [runNode]
    exactly once; no message passes the same relay twice, and whatever the
    ttl a forwarding chain has at most as many hops as there are nodes,
    plus one. *)
Theorem routes_are_simple sim s :
  reachable sim s →
  ∀ e g, (e, g) ∈ collected s →
    NoDup (tail (route g)) ∧
    (∀ x, x ∈ tail (route g) →
       0 ≤ x < Z.of_nat (nodeCount sim) ∧ relays (history s) x "dummy" = 1) ∧
    (length (route g) ≤ nodeCount sim + 1)%nat.
Proof.
  intros Hr e g Hin.
  destruct (simple_invariant _ _ Hr) as (_ & _ & Hc).
  destruct (Hc _ _ Hin) as [Hnd Hx].
  split_and!; [done| |].
  - intros x Hxin. destruct (Hx _ Hxin) as [Hrange Hrel]. split; [done|].
    pose proof (relays_bound _ _ x "dummy" Hr). lia.
  - assert (length (tail (route g)) ≤ nodeCount sim)%nat as Hlen.
    { apply NoDup_range_length; [done|]. intros x Hxin. by apply Hx. }
    destruct (route g); simpl in *; lia.
Qed.

Lemma routes_are_simple_witness :
  reachable pair_sim relay_state ∧
  snd <$> collected relay_state = [seed_tag 0 3; relay_tag 1 (seed_tag 0 3)] ∧
  NoDup (tail (route (relay_tag 1 (seed_tag 0 3)))) ∧
  (length (route (relay_tag 1 (seed_tag 0 3))) ≤ nodeCount pair_sim + 1)%nat.
Proof.
  assert (reachable pair_sim relay_state) as Hr
    by (exists relay_run; vm_compute; reflexivity).
  destruct (routes_are_simple pair_sim relay_state Hr
              {| Ts := 20; From := 1; To := 0 |} (relay_tag 1 (seed_tag 0 3)))
    as (Hnd & _ & Hlen).
  { vm_compute. apply list_elem_of_further, list_elem_of_here. }
  split_and!; [exact Hr|vm_compute; reflexivity|exact Hnd|exact Hlen].
Defined.

(** ** Properties of the WhisperV6 simulator *)

(** X10. The log of the WhisperV6 [SendMessage]: the entries handed to
    [LogEntries2Log] are those of the events selected before the timer
    that are message events of protocol shh with code 1 and not receipts,
    one entry each, in the order of arrival; events after the timer are
    not read; an error of the subscription discards everything with
    [log.Fatal], as does a window without such an event; a nil error does
    not end the loop. *)
Theorem whisper_log_is_filtered_events (ncache : gmap string Z) (start : Z)
    (cs : list Whisper.Select) :
  Whisper.SendMessage ncache start cs =
  match window cs with
  | None => None
  | Some (_, Some _) => Some (Whisper.Fatal "[ERROR] Failed to collect propagation info")
  | Some (events, None) =>
      Some (match entry_of ncache start <$> filter relevant events with
            | [] => Whisper.Fatal
                      "[ERROR] Didn't get any events, something wrong with simulator."
            | es => Whisper.Returned es
            end)
  end.
Proof.
  unfold Whisper.SendMessage. rewrite loop_window by done.
  destruct (window cs) as [[events [e|]]|]; simpl; [done| |done].
  unfold Whisper.finish. simpl.
  destruct (existsb relevant events) eqn:Hex; simpl.
  - destruct (filter relevant events) eqn:Hf; [|done].
    apply relevant_filter_nil in Hf. congruence.
  - apply relevant_filter_nil in Hex. by rewrite Hex.
Qed.

(** X11. The index cache of [SendMessage]: after the loop over
    [s.network.Nodes] an identifier reads as the last index that carries
    it, so with distinct identifiers the entry of an event names the
    indices of its two nodes; an identifier of no node is missing from the
    map and reads as index 0, so such an event is logged against node 0. *)
Theorem whisper_node_attribution (ids : list string) (start : Z)
    (event : Whisper.SimEvent) :
  (∀ id i, ids !! i = Some id → (∀ j, (i < j)%nat → ids !! j ≠ Some id) →
     precache ids !! id = Some (Z.of_nat i)) ∧
  (∀ id, id ∉ ids → precache ids !! id = None) ∧
  (NoDup ids → ∀ i j,
     ids !! i = Some (Whisper.One event) → ids !! j = Some (Whisper.Other event) →
     entry_of (precache ids) start event
     = {| Ts := Whisper.Time event - start; From := Z.of_nat i; To := Z.of_nat j |}) ∧
  (Whisper.One event ∉ ids → From (entry_of (precache ids) start event) = 0) ∧
  (Whisper.Other event ∉ ids → To (entry_of (precache ids) start event) = 0).
Proof.
  assert (∀ id i, ids !! i = Some id → (∀ j, (i < j)%nat → ids !! j ≠ Some id) →
            precache ids !! id = Some (Z.of_nat i)) as Hlast.
  { intros id i Hi Hl. unfold precache. by rewrite (precache_from_last ids i). }
  assert (∀ id, id ∉ ids → precache ids !! id = None) as Hmiss.
  { intros id Hn. unfold precache. by rewrite precache_from_miss. }
  split_and!; [done|done| | |].
  - intros Hnd i j Hi Hj. unfold entry_of, NewLogEntry.
    rewrite (Hlast _ i), (Hlast _ j); try done.
    + intros j' Hlt Hj'. pose proof (NoDup_lookup _ _ _ _ Hnd Hj Hj'). lia.
    + intros i' Hlt Hi'. pose proof (NoDup_lookup _ _ _ _ Hnd Hi Hi'). lia.
  - intros Hn. unfold entry_of. simpl. by rewrite Hmiss.
  - intros Hn. unfold entry_of. simpl. by rewrite Hmiss.
Qed.

(** X12. Node names: [nodeIdxToName] gives distinct names to distinct
    indices, the decimal numeral after the word Node, with a minus sign
    for a negative index. *)
Theorem nodeIdxToName_distinct (i j : Z) :
  (nodeIdxToName i = nodeIdxToName j ↔ i = j) ∧
  (0 < i → nodeIdxToName (- i) = "Node -" +:+ pretty (Z.to_N i)) ∧
  nodeIdxToName 0 = "Node 0".
Proof.
  split_and!.
  - split; [|by intros ->]. unfold nodeIdxToName. intros H.
    apply (inj pretty). simpl in H. by simplify_eq.
  - intros Hi. unfold nodeIdxToName. destruct i as [|p|p]; try lia. done.
  - done.
Qed.

(** ** Properties of the trace analysis *)

(** X13. [Analyze] stops the program with [log.Fatal] exactly when some
    entry of the log names a receiving node index outside the topology;
    the link indices and the timestamps of the log are never checked, so
    whether it returns does not depend on them. *)
Theorem analyze_aborts_iff_out_of_range {Histogram : Type} (hist0 : Histogram)
    (Add : Histogram → Z → Histogram)
    (order : gmap string Z → list (string * Z)) (g : Graph) (plog : Propagation.Log) :
  (Stats.Analyze hist0 Add order g plog = None ↔
   ∃ j, j ∈ Stats.receivers plog ∧ ¬ (0 ≤ j < Z.of_nat (length (Nodes g)))) ∧
  (∀ ts ind,
     Stats.Analyze hist0 Add order g
       {| Propagation.Timestamps := ts; Propagation.Indices := ind;
          Propagation.Nodes := Propagation.Nodes plog |} = None
     ↔ Stats.Analyze hist0 Add order g plog = None).
Proof.
  split.
  - rewrite analyze_None, hits_None.
    split; intros (j & Hin & Hj); exists j; (split; [done|]); by apply NodeIDByIdx_None.
  - intros ts ind. by rewrite !analyze_None.
Qed.

(** X14. Link coverage: [analyzeLinkCoverage] reports the number of
    distinct link indices of the log over the number of links of the
    topology. The former is at most the number of entries, and at most the
    latter when every index names a link; the indices are not checked, and
    on a topology without links any entry gives a coverage above the
    total. *)
Theorem link_coverage_counts_distinct_links (g : Graph) (plog : Propagation.Log) :
  Stats.Total (Stats.analyzeLinkCoverage g plog) = Z.of_nat (length (Links g)) ∧
  Stats.Actual (Stats.analyzeLinkCoverage g plog)
  = Z.of_nat (length (remove_dups (links_hit plog))) ∧
  0 ≤ Stats.Actual (Stats.analyzeLinkCoverage g plog) ≤ Z.of_nat (length (links_hit plog)) ∧
  ((∀ j, j ∈ links_hit plog → 0 ≤ j < Z.of_nat (length (Links g))) →
   Stats.Actual (Stats.analyzeLinkCoverage g plog)
   ≤ Stats.Total (Stats.analyzeLinkCoverage g plog)) ∧
  (Links g = [] → links_hit plog ≠ [] →
   Stats.Total (Stats.analyzeLinkCoverage g plog)
   < Stats.Actual (Stats.analyzeLinkCoverage g plog)).
Proof.
  unfold Stats.analyzeLinkCoverage. fold (links_hit plog). simpl.
  split; [done|].
  split; [by rewrite size_list_to_set_dups|].
  split; [pose proof (size_list_to_set_le (links_hit plog)); lia|].
  split.
  - intros Hv.
    assert ((list_to_set (links_hit plog) : gset Z)
            ⊆ list_to_set (seqZ 0 (Z.of_nat (length (Links g))))) as Hs%subseteq_size.
    { intros j. rewrite !elem_of_list_to_set, elem_of_seqZ. intros Hj%Hv. lia. }
    rewrite (size_list_to_set (seqZ _ _)), length_seqZ in Hs by apply NoDup_seqZ. lia.
  - intros -> Hne. simpl.
    destruct (links_hit plog) as [|j js]; [done|].
    rewrite list_to_set_cons.
    assert (size ({[j]} : gset Z) ≤ size ({[j]} ∪ list_to_set js : gset Z))%nat as Hs
      by (apply subseteq_size, union_subseteq_l).
    rewrite size_singleton in Hs. lia.
Qed.

(** X15. Conservation of hits: when [Analyze] returns (fewer than 2^63
    entries), the hit counters add up to the number of entries of the log,
    every entry counted once under the identifier of its receiving node;
    a counter that exists is at least one. *)
Theorem node_hits_sum_to_entries {Histogram : Type} (hist0 : Histogram)
    (Add : Histogram → Z → Histogram)
    (order : gmap string Z → list (string * Z)) (g : Graph) (plog : Propagation.Log) st :
  Stats.Analyze hist0 Add order g plog = Some st →
  Z.of_nat (length (Stats.receivers plog)) ≤ GoInt.max_int →
  total_hits (Stats.NodeHits st) = Z.of_nat (length (Stats.receivers plog)) ∧
  (∀ id v, Stats.NodeHits st !! id = Some v →
     1 ≤ v ≤ Z.of_nat (length (Stats.receivers plog))).
Proof.
  intros (Hh & _)%analyze_inv Hlen.
  assert (total_hits (∅ : gmap string Z) = 0) as H0
    by (unfold total_hits; by rewrite map_fold_empty).
  destruct (hits_total g (Stats.receivers plog) ∅ (Stats.NodeHits st)) as [Ht Hv];
    [by intros id v; rewrite lookup_empty|lia|done|].
  split; [lia|]. intros id v Hid. split; [by eapply Hv|].
  rewrite <- (Z.add_0_l (Z.of_nat _)), <- H0, <- Ht.
  eapply total_hits_lookup; [|done].
  intros id' v' H'. specialize (Hv _ _ H'). lia.
Qed.

Lemma node_hits_sum_to_entries_witness :
  Stats.Analyze tt (λ h _, h) map_to_list pair_graph pair_log ≠ None ∧
  (λ st, total_hits (Stats.NodeHits st)) <$> Stats.Analyze tt (λ h _, h) map_to_list pair_graph pair_log
  = Some 3.
Proof.
  destruct (Stats.Analyze tt (λ h _, h) map_to_list pair_graph pair_log) as [st|] eqn:Hst;
    [|by vm_compute in Hst].
  split; [done|]. simpl. f_equal.
  apply (node_hits_sum_to_entries tt (λ h _, h) map_to_list pair_graph pair_log st Hst).
  vm_compute. discriminate.
Defined.

(** X16. Node coverage: when [Analyze] returns, the number of nodes hit is
    between zero and the number of nodes of the topology; it is zero
    exactly for the empty log, and, the identifiers being distinct, it is
    the number of nodes exactly when every node index occurs as a
    receiver. *)
Theorem node_coverage_full_iff_all_hit {Histogram : Type} (hist0 : Histogram)
    (Add : Histogram → Z → Histogram)
    (order : gmap string Z → list (string * Z)) (g : Graph) (plog : Propagation.Log) st :
  Stats.Analyze hist0 Add order g plog = Some st →
  0 ≤ Stats.Actual (Stats.NodeCoverage st) ≤ Stats.Total (Stats.NodeCoverage st) ∧
  Stats.Total (Stats.NodeCoverage st) = Z.of_nat (length (Nodes g)) ∧
  (Stats.Actual (Stats.NodeCoverage st) = 0 ↔ Stats.receivers plog = []) ∧
  (NoDup (Nodes g) →
   (Stats.Actual (Stats.NodeCoverage st) = Stats.Total (Stats.NodeCoverage st)
    ↔ ∀ i, 0 ≤ i < Z.of_nat (length (Nodes g)) → i ∈ Stats.receivers plog)).
Proof.
  intros Hst.
  assert (∀ j, j ∈ Stats.receivers plog → is_Some (NodeIDByIdx g j)) as Hv.
  { intros j Hj. destruct (NodeIDByIdx g j) eqn:Hn; [done|].
    assert (Stats.Analyze hist0 Add order g plog = None); [|congruence].
    apply analyze_None, hits_None. eauto. }
  destruct (analyze_inv _ _ _ _ _ _ Hst) as (Hh & -> & _).
  apply hits_dom in Hh. rewrite dom_empty_L, (left_id_L ∅ (∪)) in Hh.
  unfold Stats.analyzeNodeCoverage. simpl.
  rewrite <- size_dom, Hh.
  pose proof (subseteq_size _ _ (ids_hit_nodes g (Stats.receivers plog))) as Hsub.
  pose proof (size_list_to_set_le (Nodes g)) as Hle. fold (node_ids g) in Hle.
  split_and!; [lia|lia|done| |].
  - split.
    + intros H0. destruct (Stats.receivers plog) as [|j js] eqn:Hjs; [done|]. exfalso.
      destruct (Hv j) as [id Hid]; [by left|].
      assert (size (ids_hit g (j :: js)) = 0%nat) as Hz%size_empty_inv by lia.
      apply (not_elem_of_empty (C := gset string) id). rewrite <- Hz.
      unfold ids_hit. simpl. rewrite Hid. simpl. apply elem_of_union_l. by apply elem_of_singleton.
    + intros ->. done.
  - intros Hnd.
    assert (size (node_ids g) = length (Nodes g)) as Hsz
      by (by apply size_list_to_set).
    split.
    + intros Heq i Hi.
      assert (ids_hit g (Stats.receivers plog) = node_ids g) as Hset
        by (apply set_subseteq_size_eq; [apply ids_hit_nodes|lia]).
      destruct (NodeIDByIdx_valid g i Hi) as [id Hid].
      assert (id ∈ ids_hit g (Stats.receivers plog)) as Hin.
      { rewrite Hset. unfold node_ids. rewrite elem_of_list_to_set.
        unfold NodeIDByIdx in Hid. case_bool_decide; [|done].
        by eapply list_elem_of_lookup_2. }
      unfold ids_hit in Hin. rewrite elem_of_list_to_set, list_elem_of_omap in Hin.
      destruct Hin as (j & Hj & Hjid).
      by rewrite (NodeIDByIdx_inj g i j id).
    + intros Hall.
      assert (node_ids g ⊆ ids_hit g (Stats.receivers plog)) as Hs%subseteq_size; [|lia].
      intros id. unfold node_ids, ids_hit.
      rewrite !elem_of_list_to_set, list_elem_of_omap.
      intros [i Hi]%list_elem_of_lookup_1.
      exists (Z.of_nat i). apply lookup_lt_Some in Hi as Hlt. split.
      * apply Hall. lia.
      * unfold NodeIDByIdx. rewrite bool_decide_eq_true_2 by lia. by rewrite Nat2Z.id.
Qed.

Lemma node_coverage_full_iff_all_hit_witness :
  Stats.Analyze tt (λ h _, h) map_to_list pair_graph pair_log ≠ None ∧
  (λ st, Stats.Actual (Stats.NodeCoverage st))
    <$> Stats.Analyze tt (λ h _, h) map_to_list pair_graph pair_log = Some 2 ∧
  (0 ∈ Stats.receivers pair_log ∧ 1 ∈ Stats.receivers pair_log).
Proof.
  destruct (Stats.Analyze tt (λ h _, h) map_to_list pair_graph pair_log) as [st|] eqn:Hst;
    [|by vm_compute in Hst].
  assert (NoDup (Nodes pair_graph)) as Hnd.
  { apply NoDup_cons. split; [|apply NoDup_singleton].
    intros [=]%list_elem_of_singleton. }
  destruct (node_coverage_full_iff_all_hit tt (λ h _, h) map_to_list pair_graph pair_log st Hst)
    as (_ & Htot & _ & Hfull).
  assert (∀ i, 0 ≤ i < Z.of_nat (length (Nodes pair_graph)) → i ∈ Stats.receivers pair_log)
    as Hall.
  { intros i Hi. change (i ∈ [1; 0; 1]). simpl in Hi.
    destruct (decide (i = 0)) as [->|]; [apply list_elem_of_further, list_elem_of_here|].
    assert (i = 1) as -> by lia. apply list_elem_of_here. }
  split_and!; [done| |apply Hall; simpl; lia|apply Hall; simpl; lia].
  simpl. f_equal. rewrite (proj2 (Hfull Hnd) Hall), Htot. done.
Defined.

(** X17. Order and grouping: the statistics depend on the log only through
    the receiving indices and the link indices it holds, however these are
    ordered or grouped by timestamp, and whatever the order in which each
    run ranges over the map of counters: two logs with the same entries in
    any order make [Analyze] stop alike, and when it returns the counters
    and both coverages are the same. The histograms are the same as well
    when the additions to the histogram commute; they are filled in the
    order of the range over the map, which Go leaves open. *)
Theorem analyze_ignores_entry_order {Histogram : Type} (hist0 : Histogram)
    (Add : Histogram → Z → Histogram)
    (order1 order2 : gmap string Z → list (string * Z))
    (g : Graph) (plog1 plog2 : Propagation.Log) :
  Stats.receivers plog1 ≡ₚ Stats.receivers plog2 →
  links_hit plog1 ≡ₚ links_hit plog2 →
  (Stats.Analyze hist0 Add order1 g plog1 = None
   ↔ Stats.Analyze hist0 Add order2 g plog2 = None) ∧
  (∀ st1 st2,
     Stats.Analyze hist0 Add order1 g plog1 = Some st1 →
     Stats.Analyze hist0 Add order2 g plog2 = Some st2 →
     Stats.NodeHits st1 = Stats.NodeHits st2 ∧
     Stats.NodeCoverage st1 = Stats.NodeCoverage st2 ∧
     Stats.LinkCoverage st1 = Stats.LinkCoverage st2 ∧
     ((∀ h v w, Add (Add h v) w = Add (Add h w) v) →
      (∀ m, order1 m ≡ₚ map_to_list m) → (∀ m, order2 m ≡ₚ map_to_list m) →
      Stats.Hist st1 = Stats.Hist st2)).
Proof.
  intros Hn Hl. split.
  - by rewrite !analyze_None, (hits_perm g _ _ Hn ∅).
  - intros st1 st2 (Hh1 & Hc1 & Hl1 & Hi1)%analyze_inv (Hh2 & Hc2 & Hl2 & Hi2)%analyze_inv.
    rewrite (hits_perm g _ _ Hn ∅), Hh2 in Hh1.
    assert (Stats.NodeHits st1 = Stats.NodeHits st2) as Hhits by congruence.
    split_and!.
    + done.
    + by rewrite Hc1, Hc2, Hhits.
    + rewrite Hl1, Hl2. unfold Stats.analyzeLinkCoverage.
      fold (links_hit plog1) (links_hit plog2).
      by rewrite (list_to_set_perm_L (C := gset Z) _ _ Hl).
    + intros Hcomm Ho1 Ho2. rewrite Hi1, Hi2, Hhits.
      apply foldl_add_perm; [done|]. by rewrite Ho1, Ho2.
Qed.

Lemma analyze_ignores_entry_order_witness :
  Stats.receivers pair_log ≡ₚ Stats.receivers pair_log_shuffled ∧
  links_hit pair_log ≡ₚ links_hit pair_log_shuffled ∧
  (Stats.Analyze 0 Z.add map_to_list pair_graph pair_log = None
   ↔ Stats.Analyze 0 Z.add backwards pair_graph pair_log_shuffled = None) ∧
  Stats.Hist <$> Stats.Analyze 0 Z.add map_to_list pair_graph pair_log = Some 3 ∧
  Stats.Hist <$> Stats.Analyze 0 Z.add backwards pair_graph pair_log_shuffled = Some 3.
Proof.
  assert (Stats.receivers pair_log ≡ₚ Stats.receivers pair_log_shuffled) as Hn
    by apply perm_skip, perm_swap.
  assert (links_hit pair_log ≡ₚ links_hit pair_log_shuffled) as Hl by done.
  split_and!; [exact Hn|exact Hl| |vm_compute; reflexivity..].
  exact (proj1 (analyze_ignores_entry_order 0 Z.add map_to_list backwards pair_graph
                  pair_log pair_log_shuffled Hn Hl)).
Defined.

(** With a histogram that keeps the order of its additions, two runs over
    the same log that range over the map in different orders give different
    histograms, and the same counters. *)
Example histogram_follows_range_order :
  Stats.Hist <$> Stats.Analyze [] keep_order map_to_list pair_graph pair_log = Some [2; 1] ∧
  Stats.Hist <$> Stats.Analyze [] keep_order backwards pair_graph pair_log = Some [1; 2] ∧
  Stats.NodeHits <$> Stats.Analyze [] keep_order map_to_list pair_graph pair_log
  = Stats.NodeHits <$> Stats.Analyze [] keep_order backwards pair_graph pair_log.
Proof. vm_compute. done. Qed.
